(** * BulkRR: the Go file watcher service (server-go/main.go)

    A shallow embedding of the scheduling core of the service: the
    tracking table [lock], the round-robin picker [pickNextFile], the
    bounded dispatch [processFiles] and the chunked reader [readFile].

    Representation choices.
    - Go [int] is a 64-bit signed integer: it is a [Z], and every
      arithmetic operation of the source goes through [intWrap].
    - [FileStatus] is a Go string type: it is a [string], so that the zero
      value read from an absent map key (the empty string) exists.
    - [map[string]T] is a [gmap string T]; a read of an absent key gives
      the zero value of [T], as in Go.
    - The service is one shared object mutated by the two loops and by the
      workers: every function is a computation over one [World], which
      holds the service, the standard output, the result file and the
      worker goroutines that were started and have not run yet.
    - A run-time panic, and a send on a full channel that nobody else
      receives from, are results of their own ([Panic], [Blocked]).
    - The mutex [mu] is not a field: [setFileStatus] and [pickNextFile],
      which hold it, each run as one step.
    - Two step relations. In [step] a dispatch tick is one step and the
      run of a worker is one step. In [cstep] each is two steps, cut where
      it has read the offset that it writes back later, so that ticks and
      workers interleave; every run of [step] is a run of [cstep]. *)

From Stdlib Require Import ZArith Lia Ascii String.
From stdpp Require Import base strings list gmap fin_maps relations.

Local Open Scope Z_scope.

(** ** Go integers *)

Definition minInt : Z := -9223372036854775808.
Definition maxInt : Z := 9223372036854775807.

(** Two's complement wrap-around of a mathematical integer into [int]. *)
Definition intWrap (z : Z) : Z :=
  (z - minInt) `mod` 18446744073709551616 + minInt.

Definition intAdd (a b : Z) : Z := intWrap (a + b).
Definition intSub (a b : Z) : Z := intWrap (a - b).

(** Go's [%] truncates towards zero, like [Z.rem]. *)
Definition intRem (a b : Z) : Z := Z.rem a b.

Definition isInt (z : Z) : Prop := minInt <= z <= maxInt.

(** [len] of a slice, as an [int]. *)
Definition len {A} (l : list A) : Z := Z.of_nat (length l).

(** ** Constants of the program *)

Definition nl : string := String "010"%char EmptyString.

Definition DATA_FILES_DIR : string := "./data".
Definition RESULT_FILE_PATH : string := "./result.txt".
Definition MAX_THREADS_COUNT : Z := 4.
Definition MAX_CHUNK_SIZE : Z := 3.
(** [time.Duration] counts nanoseconds. *)
Definition INTERVAL_MS_CHECK_FILES : Z := 1000 * 1000000.
Definition INTERVAL_MS_PROCESS_FILES : Z := 1000 * 1000000.

(** Capacity of the buffered channel [newFilesEvent]. *)
Definition newFilesEventCap : Z := 10.

(** ** Data model *)

Definition FileStatus : Type := string.

Definition NotRead : FileStatus := "not_read".
Definition Reading : FileStatus := "reading".
Definition Completed : FileStatus := "completed".

Record FileLock : Type := mkFileLock {
  Status : FileStatus;
  ReadLinesNumber : Z
}.

(** The zero value of [FileLock], read from an absent key. *)
Definition zeroFileLock : FileLock := mkFileLock "" 0.

Definition lockAt (m : gmap string FileLock) (file : string) : FileLock :=
  default zeroFileLock (m !! file).

(** [processFilesEvent] is an unbuffered channel on which nothing ever
    sends: its receive case never fires and it carries no state. *)
Record FileWatcherService : Type := mkService {
  activeWorkers : Z;
  filesQueue : list string;
  lock : gmap string FileLock;
  currentFileIndex : Z;
  watching : bool;
  maxThreads : Z;
  intervalMsCheckFiles : Z;
  intervalMsProcessFiles : Z;
  folderPath : string;
  newFilesEvent : list string
}.

Definition set_activeWorkers (v : Z) (s : FileWatcherService) :=
  mkService v (filesQueue s) (lock s) (currentFileIndex s) (watching s)
    (maxThreads s) (intervalMsCheckFiles s) (intervalMsProcessFiles s)
    (folderPath s) (newFilesEvent s).

Definition set_filesQueue (v : list string) (s : FileWatcherService) :=
  mkService (activeWorkers s) v (lock s) (currentFileIndex s) (watching s)
    (maxThreads s) (intervalMsCheckFiles s) (intervalMsProcessFiles s)
    (folderPath s) (newFilesEvent s).

Definition set_lock (v : gmap string FileLock) (s : FileWatcherService) :=
  mkService (activeWorkers s) (filesQueue s) v (currentFileIndex s) (watching s)
    (maxThreads s) (intervalMsCheckFiles s) (intervalMsProcessFiles s)
    (folderPath s) (newFilesEvent s).

Definition set_currentFileIndex (v : Z) (s : FileWatcherService) :=
  mkService (activeWorkers s) (filesQueue s) (lock s) v (watching s)
    (maxThreads s) (intervalMsCheckFiles s) (intervalMsProcessFiles s)
    (folderPath s) (newFilesEvent s).

Definition set_watching (v : bool) (s : FileWatcherService) :=
  mkService (activeWorkers s) (filesQueue s) (lock s) (currentFileIndex s) v
    (maxThreads s) (intervalMsCheckFiles s) (intervalMsProcessFiles s)
    (folderPath s) (newFilesEvent s).

Definition set_newFilesEvent (v : list string) (s : FileWatcherService) :=
  mkService (activeWorkers s) (filesQueue s) (lock s) (currentFileIndex s)
    (watching s) (maxThreads s) (intervalMsCheckFiles s)
    (intervalMsProcessFiles s) (folderPath s) v.

(** A worker holds its file; its [service] pointer is the one service of
    the world. *)
Record Worker : Type := mkWorker { file : string }.

Record World : Type := mkWorld {
  service : FileWatcherService;
  stdout : list string;
  resultFile : list string;
  goroutines : list Worker;
  scanLoopBlocked : bool
}.

Definition on_service (f : FileWatcherService → FileWatcherService) (w : World) :=
  mkWorld (f (service w)) (stdout w) (resultFile w) (goroutines w)
    (scanLoopBlocked w).

Definition set_stdout (v : list string) (w : World) :=
  mkWorld (service w) v (resultFile w) (goroutines w) (scanLoopBlocked w).

Definition set_resultFile (v : list string) (w : World) :=
  mkWorld (service w) (stdout w) v (goroutines w) (scanLoopBlocked w).

Definition set_goroutines (v : list Worker) (w : World) :=
  mkWorld (service w) (stdout w) (resultFile w) v (scanLoopBlocked w).

Definition set_scanLoopBlocked (v : bool) (w : World) :=
  mkWorld (service w) (stdout w) (resultFile w) (goroutines w) v.

(** ** What the environment answers *)

Record DirEntry : Type := mkDirEntry { Name : string; IsDir : bool }.

(** [os.ReadDir]. *)
Inductive ReadDirResult : Type :=
  | ReadDirError (err : string)
  | DirEntries (files : list DirEntry).

(** How the sequence of successful [reader.Read()] calls ends. *)
Inductive ReadStop : Type :=
  | EOF
  | ParseError (err : string).

(** [os.Open] of a data file, and what the CSV reader then delivers: the
    records returned with a nil error, followed by the first error. *)
Inductive OpenResult : Type :=
  | OpenError (err : string)
  | Opened (records : list (list string)) (stop : ReadStop).

(** A failed [Fprintf]: the error, and the number of bytes of the line
    that [Write] had written when it failed. [Fprintf] returns this count
    and [appendToResultFile] discards it. *)
Record WriteError : Type := mkWriteError { written : nat; writeErr : string }.

(** [os.OpenFile] of the result file and the failure, if any, of the
    [Fprintf] of the i-th row of the chunk. *)
Record SinkResult : Type := mkSink {
  sinkOpenErr : option string;
  sinkWriteErr : nat → option WriteError
}.

(** ** Computations over the world *)

Inductive Result (A : Type) : Type :=
  | Ok (a : A) (w : World)
  | Panic (msg : string)
  | Blocked (w : World).
Arguments Ok {A} a w.
Arguments Panic {A} msg.
Arguments Blocked {A} w.

Definition M (A : Type) : Type := World → Result A.

#[global] Instance M_ret : MRet M := λ A a w, Ok a w.

#[global] Instance M_bind : MBind M := λ A B f m w,
  match m w with
  | Ok a w' => f a w'
  | Panic msg => Panic msg
  | Blocked w' => Blocked w'
  end.

Definition getService : M FileWatcherService := λ w, Ok (service w) w.

Definition modService (f : FileWatcherService → FileWatcherService) : M unit :=
  λ w, Ok tt (on_service f w).

(** [fmt.Printf]/[fmt.Println]: one entry of [stdout] per call. *)
Definition printf (msg : string) : M unit :=
  λ w, Ok tt (set_stdout (stdout w ++ [msg]) w).

Definition panic {A} (msg : string) : M A := λ _, Panic msg.

(** [l[index]], with Go's bounds check. *)
Definition sliceIndex {A} (l : list A) (index : Z) : M A :=
  if index <? 0 then panic "index out of range"
  else match l !! Z.to_nat index with
       | Some x => mret x
       | None => panic "index out of range"
       end.

(** The [go] statement: the goroutine is recorded and runs in a later
    step. *)
Definition go (wk : Worker) : M unit :=
  λ w, Ok tt (set_goroutines (goroutines w ++ [wk]) w).

(** [s.newFilesEvent <- name]. The only receiver is the loop that also
    runs the sender, so a send on a full buffer never completes. *)
Definition chanSend (name : string) : M unit :=
  λ w, if len (newFilesEvent (service w)) <? newFilesEventCap
       then Ok tt (on_service
                     (λ s, set_newFilesEvent (newFilesEvent s ++ [name]) s) w)
       else Blocked w.

(** ** The service *)

Definition NewFileWatcherService (folder : string) (maxThr : Z)
    (checkInterval processInterval : Z) : FileWatcherService :=
  mkService 0 [] ∅ 0 false maxThr checkInterval processInterval folder [].

Definition isFileTracked (file : string) : M bool :=
  s ← getService;
  mret (bool_decide (is_Some (lock s !! file))).

Definition getFileStatus (file : string) : M FileStatus :=
  s ← getService;
  mret (Status (lockAt (lock s) file)).

Definition setFileStatus (file : string) (status : FileStatus)
    (readLinesNumber : Z) : M unit :=
  s ← getService;
  let currentStatus := Status (lockAt (lock s) file) in
  if bool_decide (currentStatus = Completed) && bool_decide (status ≠ Completed)
  then printf ("Cannot change status from completed to " +:+ status +:+
               " for file " +:+ file +:+ nl)
  else
    modService (λ s, set_lock (<[file := mkFileLock status readLinesNumber]> (lock s)) s);;
    printf ("File " +:+ file +:+ " status updated to " +:+ status +:+ nl).

(** The loop of [pickNextFile]: [n] is the number of iterations left,
    [len(filesQueue) - i]; the queue does not change inside the loop. *)
Fixpoint pickNextFile_loop (n : nat) (i : Z) : M string :=
  match n with
  | O => mret ""
  | S n' =>
      s ← getService;
      let index := intRem (intAdd (currentFileIndex s) i) (len (filesQueue s)) in
      currentFile ← sliceIndex (filesQueue s) index;
      if bool_decide (Status (lockAt (lock s) currentFile) ≠ Completed)
      then
        modService (set_currentFileIndex
                      (intRem (intAdd index 1) (len (filesQueue s))));;
        mret currentFile
      else pickNextFile_loop n' (intAdd i 1)
  end.

(** The empty string stands for "no file". *)
Definition pickNextFile : M string :=
  s ← getService;
  if len (filesQueue s) =? 0 then mret ""
  else pickNextFile_loop (length (filesQueue s)) 0.

Definition NewWorker (f : string) : Worker := mkWorker f.

Definition processFiles : M unit :=
  s ← getService;
  if maxThreads s <=? activeWorkers s then mret tt
  else
    f ← pickNextFile;
    if bool_decide (f ≠ "") then
      s ← getService;
      setFileStatus f Reading (ReadLinesNumber (lockAt (lock s) f));;
      modService (λ s, set_activeWorkers (intAdd (activeWorkers s) 1) s);;
      go (NewWorker f)
    else mret tt.

Definition handleNewFileEvent (f : string) : M unit :=
  tracked ← isFileTracked f;
  if (tracked : bool) then
    printf ("File " +:+ f +:+ " is already being processed or completed" +:+ nl)
  else
    printf ("Processing new file: " +:+ f +:+ nl);;
    processFiles.

(** ** The worker *)

Definition isEmptyLine (record : list string) : bool :=
  forallb (λ field, bool_decide (field = "")) record.

(** One collected row, [map[string]string{"id": ..., "name": ...}]. *)
Definition mkRow (id name : string) : gmap string string :=
  <["id" := id]> (<["name" := name]> ∅).

(** [row[key]] on a [map[string]string]. *)
Definition rowAt (row : gmap string string) (key : string) : string :=
  default "" (row !! key).

(** The read loop of [readFile] over the records the reader delivers. The
    end of the list is the first [err != nil] of [reader.Read()], end of
    file or parse error alike: the loop breaks on both. *)
Fixpoint readFile_loop (records : list (list string))
    (readLines tempReadLines : Z) (results : list (gmap string string))
    : M (list (gmap string string) * Z) :=
  match records with
  | [] => mret (results, tempReadLines)
  | record :: rest =>
      if isEmptyLine record then
        readFile_loop rest readLines tempReadLines results
      else if 0 <? readLines then
        readFile_loop rest (intSub readLines 1) tempReadLines results
      else if len results <? MAX_CHUNK_SIZE then
        id ← sliceIndex record 0;
        name ← sliceIndex record 1;
        readFile_loop rest readLines (intAdd tempReadLines 1)
          (results ++ [mkRow id name])
      else mret (results, tempReadLines)
  end.

(** The line [Fprintf] formats for a row, ["%s,%s\n"] of its two
    entries. *)
Definition lineOf (row : gmap string string) : string :=
  rowAt row "id" +:+ "," +:+ rowAt row "name" +:+ nl.

(** What a failed write of [line] leaves in the file: the bytes written
    before the failure, nothing when there are none. *)
Definition fragment (n : nat) (line : string) : list string :=
  match n with
  | O => []
  | S _ => [substring 0 n line]
  end.

(** A write to the result file, opened with [O_APPEND]: [resultFile] holds
    what was written, one entry per write. *)
Definition fileWrite (bytes : list string) : M unit :=
  λ w, Ok tt (set_resultFile (resultFile w ++ bytes) w).

(** The [Fprintf] loop of [appendToResultFile]. A failed write is logged
    and the loop goes on; of its line the file keeps the bytes written
    before the failure. *)
Fixpoint appendRows (sink : SinkResult) (i : nat)
    (chunk : list (gmap string string)) : M unit :=
  match chunk with
  | [] => mret tt
  | row :: rest =>
      match sinkWriteErr sink i with
      | Some e =>
          fileWrite (fragment (written e) (lineOf row));;
          printf ("Error writing to result file: " +:+ writeErr e +:+ nl)
      | None => fileWrite [lineOf row]
      end;;
      appendRows sink (S i) rest
  end.

Definition appendToResultFile (chunk : list (gmap string string))
    (sink : SinkResult) : M unit :=
  match sinkOpenErr sink with
  | Some err => printf ("Error opening result file: " +:+ err +:+ nl)
  | None =>
      appendRows sink 0%nat chunk;;
      printf ("Appended chunk to " +:+ RESULT_FILE_PATH +:+ nl)
  end.

Definition readFile (wk : Worker) (opened : OpenResult) (sink : SinkResult)
    : M unit :=
  printf ("Start reading file " +:+ file wk +:+ nl);;
  match opened with
  | OpenError err =>
      printf ("Error opening file " +:+ file wk +:+ ": " +:+ err +:+ nl);;
      modService (λ s, set_activeWorkers (intSub (activeWorkers s) 1) s)
  | Opened records _ =>
      s ← getService;
      let readLines := ReadLinesNumber (lockAt (lock s) (file wk)) in
      '(results, tempReadLines) ← readFile_loop records readLines readLines [];
      appendToResultFile results sink;;
      (if len results <? MAX_CHUNK_SIZE then
         setFileStatus (file wk) Completed tempReadLines;;
         printf ("File " +:+ file wk +:+ " has been completed." +:+ nl)
       else
         setFileStatus (file wk) NotRead tempReadLines;;
         printf ("File " +:+ file wk +:+
                 " is set to 'not_read' for further processing." +:+ nl));;
      modService (λ s, set_activeWorkers (intSub (activeWorkers s) 1) s)
  end.

Definition startProcessing (wk : Worker) (opened : OpenResult)
    (sink : SinkResult) : M unit :=
  readFile wk opened sink.

(** ** The directory scanner *)

(** [filepath.Ext] of the standard library: the suffix that starts at the
    last dot of the last element of the path, empty if there is none.
    [Ext_scan] is its right-to-left scan: [Some] once a dot or a separator
    was met. *)
Fixpoint Ext_scan (path : string) : option string :=
  match path with
  | EmptyString => None
  | String c rest =>
      match Ext_scan rest with
      | Some e => Some e
      | None =>
          if Ascii.eqb c "/" then Some ""
          else if Ascii.eqb c "." then Some path
          else None
      end
  end.

Definition Ext (path : string) : string := default "" (Ext_scan path).

(** The body of the loop over the directory entries. *)
Definition checkForNewFiles_body (f : DirEntry) : M unit :=
  if IsDir f then mret tt
  else if bool_decide (Ext (Name f) = ".csv") then
    tracked ← isFileTracked (Name f);
    if negb tracked then
      modService (λ s, set_lock (<[Name f := mkFileLock NotRead 0]> (lock s)) s);;
      modService (λ s, set_filesQueue (filesQueue s ++ [Name f]) s);;
      printf ("Added new file " +:+ Name f +:+
              " to the queue with status 'not_read'" +:+ nl);;
      chanSend (Name f)
    else mret tt
  else mret tt.

Fixpoint checkForNewFiles_loop (files : list DirEntry) : M unit :=
  match files with
  | [] => mret tt
  | f :: rest => checkForNewFiles_body f;; checkForNewFiles_loop rest
  end.

Definition checkForNewFiles (dir : ReadDirResult) : M unit :=
  match dir with
  | ReadDirError err => printf ("Error reading directory: " +:+ err +:+ nl)
  | DirEntries files => checkForNewFiles_loop files
  end.

(** ** Start-up and the step relation *)

(** [StartWatching] sets the flag and starts the two loops; what the loops
    and the workers then do is the relation [step]. *)
Definition StartWatching : M unit :=
  s ← getService;
  if watching s then mret tt else modService (set_watching true).

(** The world in which [main] creates the service, for a given ceiling. *)
Definition bootWorld (maxThr : Z) : World :=
  mkWorld
    (NewFileWatcherService DATA_FILES_DIR maxThr
       INTERVAL_MS_CHECK_FILES INTERVAL_MS_PROCESS_FILES)
    [] [] [] false.

(** The world after [service.StartWatching()]. *)
Definition initWorld (maxThr : Z) : World :=
  on_service (set_watching true) (bootWorld maxThr).

(** A data file holds fewer records than an [int] can count. *)
Definition recordsFit (opened : OpenResult) : Prop :=
  match opened with
  | OpenError _ => True
  | Opened records _ => len records <= maxInt
  end.

(** The queue is a slice in memory: twice its length is still an [int]. *)
Definition queueFits (q : list string) : Prop := 2 * len q <= maxInt.

(** One step of the sequential system: a scan tick, the receipt of a
    new-file event, a dispatch tick, or the run of one started worker
    (which completes or fails to open its file). A step that panics has no
    successor: the process is gone. *)
Inductive step : World → World → Prop :=
  | step_scan w dir w' :
      scanLoopBlocked w = false →
      checkForNewFiles dir w = Ok tt w' →
      queueFits (filesQueue (service w')) →
      step w w'
  | step_scan_blocked w dir w' :
      scanLoopBlocked w = false →
      checkForNewFiles dir w = Blocked w' →
      queueFits (filesQueue (service w')) →
      step w (set_scanLoopBlocked true w')
  | step_event w f rest w' :
      scanLoopBlocked w = false →
      newFilesEvent (service w) = f :: rest →
      handleNewFileEvent f (on_service (set_newFilesEvent rest) w) = Ok tt w' →
      step w w'
  | step_dispatch w w' :
      processFiles w = Ok tt w' →
      step w w'
  | step_worker w pre wk post opened sink w' :
      goroutines w = pre ++ wk :: post →
      recordsFit opened →
      startProcessing wk opened sink (set_goroutines (pre ++ post) w) = Ok tt w' →
      step w w'.

Definition reachable (maxThr : Z) (w : World) : Prop :=
  rtc step (initWorld maxThr) w.

(** ** Vocabulary of the statements *)

Definition statusOf (w : World) (f : string) : FileStatus :=
  Status (lockAt (lock (service w)) f).

Definition offsetOf (w : World) (f : string) : Z :=
  ReadLinesNumber (lockAt (lock (service w)) f).

(** The only test of [pickNextFile]: the status is not Completed. *)
Definition eligible (s : FileWatcherService) (f : string) : Prop :=
  Status (lockAt (lock s) f) ≠ Completed.

#[global] Instance eligible_dec s f : Decision (eligible s f).
Proof. unfold eligible. apply _. Defined.

(** The queue read circularly from position [c]. *)
Definition circular {A} (c : nat) (q : list A) : list A := drop c q ++ take c q.

Definition isBlank (record : list string) : Prop := Forall (λ field, field = "") record.

(** The non-blank records of a file, in file order. *)
Definition dataRows (records : list (list string)) : list (list string) :=
  filter (λ r, ¬ isBlank r) records.

(** A service whose cursor is a position of its queue (or 0 on an empty
    queue), whose queue fits in memory and holds no empty name. *)
Record wfQueue (s : FileWatcherService) : Prop := mkWfQueue {
  wf_cursor_lo : 0 <= currentFileIndex s;
  wf_cursor_hi : currentFileIndex s < len (filesQueue s) ∨ currentFileIndex s = 0;
  wf_fits : queueFits (filesQueue s);
  wf_names : "" ∉ filesQueue s
}.

(** What may happen between two picks of one pass: anything that keeps
    the queue, the cursor, and which queued files are Completed. *)
Definition samePass (w1 w2 : World) : Prop :=
  filesQueue (service w2) = filesQueue (service w1) ∧
  currentFileIndex (service w2) = currentFileIndex (service w1) ∧
  ∀ g, g ∈ filesQueue (service w1) →
       (statusOf w2 g = Completed ↔ statusOf w1 g = Completed).

(** [pass n w fs w']: [n] consecutive [pickNextFile] calls from [w] return
    the names [fs], in this order. *)
Inductive pass : nat → World → list string → World → Prop :=
  | pass_nil w : pass 0 w [] w
  | pass_pick n w f w1 w2 fs w3 :
      pickNextFile w = Ok f w1 →
      samePass w1 w2 →
      pass n w2 fs w3 →
      pass (S n) w (f :: fs) w3.


(** A record with both fields the worker reads, [record[0]] and
    [record[1]]. *)
Definition wellFormedRow (r : list string) : Prop := (2 ≤ length r)%nat.

(** The row collected from a record. *)
Definition toRow (r : list string) : gmap string string :=
  mkRow (default "" (r !! 0%nat)) (default "" (r !! 1%nat)).

(** The chunk of a dispatch at saved offset [o]: skip the first [o]
    non-blank records, take at most [MAX_CHUNK_SIZE] of the next ones. *)
Definition chunkOf (o : Z) (records : list (list string)) : list (list string) :=
  take (Z.to_nat MAX_CHUNK_SIZE) (drop (Z.to_nat o) (dataRows records)).

(** The status a worker asks for after collecting [k] rows. *)
Definition statusAfter (k : nat) : FileStatus :=
  if Z.of_nat k <? MAX_CHUNK_SIZE then Completed else NotRead.

(** A sink without failures. *)
Definition sinkOk : SinkResult := mkSink None (λ _, None).

(** What a worker leaves in the service: the answer of [setFileStatus] to
    the pair it asks for, and one worker less. *)
Definition afterWorker (w : World) (f : string) (st : FileStatus) (n : Z)
    : FileWatcherService :=
  set_activeWorkers (intSub (activeWorkers (service w)) 1)
    (if decide (statusOf w f = Completed ∧ st ≠ Completed)
     then service w
     else set_lock (<[f := mkFileLock st n]> (lock (service w))) (service w)).

(** The world a dispatch tick leaves when it picks [f], met [k] places
    after the cursor in circular order. *)
Definition dispatched (w : World) (k : nat) (f : string) : World :=
  let s := service w in
  let n := length (filesQueue s) in
  let c := Z.to_nat (currentFileIndex s) in
  mkWorld
    (set_activeWorkers (intAdd (activeWorkers s) 1)
       (set_lock (<[f := mkFileLock Reading (offsetOf w f)]> (lock s))
          (set_currentFileIndex (Z.of_nat (((c + k) mod n + 1) mod n)) s)))
    (stdout w ++ ["File " +:+ f +:+ " status updated to " +:+ Reading +:+ nl])
    (resultFile w)
    (goroutines w ++ [NewWorker f])
    (scanLoopBlocked w).

(** ** One interleaving: every started worker runs before the next tick *)

(** What each file holds when a worker opens it, and how the sink
    behaves. *)
Definition Env : Type := string → OpenResult * SinkResult.

(** Run the recorded goroutines in the order in which they were started;
    [n] bounds their number. *)
Fixpoint runWorkers (env : Env) (n : nat) : M unit :=
  match n with
  | O => mret tt
  | S n' => λ w,
      match goroutines w with
      | [] => Ok tt w
      | wk :: rest =>
          (startProcessing wk (env (file wk)).1 (env (file wk)).2;;
           runWorkers env n') (set_goroutines rest w)
      end
  end.

Definition runStarted (env : Env) : M unit :=
  λ w, runWorkers env (length (goroutines w)) w.

(** A dispatch tick followed by the run of the workers it left. *)
Definition dispatchAndRun (env : Env) : M unit :=
  processFiles;;
  runStarted env.

(** Successive dispatches leave file [f] with the listed status and
    offset, one pair per dispatch. *)
Fixpoint dispatchesGive (env : Env) (f : string) (w : World)
    (trace : list (FileStatus * Z)) : Prop :=
  match trace with
  | [] => True
  | (st, o) :: rest =>
      ∃ w', dispatchAndRun env w = Ok tt w' ∧
            statusOf w' f = st ∧ offsetOf w' f = o ∧
            dispatchesGive env f w' rest
  end.

(** A world with one tracked file, no worker in flight and spare
    capacity. *)
Record idleSingle (f : string) (w : World) : Prop := mkIdleSingle {
  idle_queue : filesQueue (service w) = [f];
  idle_name : f ≠ "";
  idle_cursor : currentFileIndex (service w) = 0;
  idle_active : activeWorkers (service w) = 0;
  idle_capacity : 0 < maxThreads (service w);
  idle_goroutines : goroutines w = []
}.

(** ** Example worlds, for a ceiling of [MAX_THREADS_COUNT] *)

(** After a scan tick that finds the one file [a.csv]. *)
Definition oneFileTracked : World :=
  mkWorld
    (mkService 0 ["a.csv"] (<["a.csv" := mkFileLock NotRead 0]> ∅) 0 true
       MAX_THREADS_COUNT INTERVAL_MS_CHECK_FILES INTERVAL_MS_PROCESS_FILES
       DATA_FILES_DIR ["a.csv"])
    ["Added new file a.csv to the queue with status 'not_read'" +:+ nl]
    [] [] false.

(** After a dispatch tick: one worker started, not yet run. *)
Definition oneFileReading : World := dispatched oneFileTracked 0 "a.csv".

(** After a second dispatch tick, the first worker still not run. *)
Definition oneFileTwice : World := dispatched oneFileReading 0 "a.csv".

(** A queue of three files with the cursor on the second, which is
    Completed. *)
Definition threeFiles : World :=
  mkWorld
    (mkService 0 ["a.csv"; "b.csv"; "c.csv"]
       (<["a.csv" := mkFileLock NotRead 0]>
          (<["b.csv" := mkFileLock Completed 2]>
             (<["c.csv" := mkFileLock NotRead 3]> ∅)))
       1 true MAX_THREADS_COUNT INTERVAL_MS_CHECK_FILES
       INTERVAL_MS_PROCESS_FILES DATA_FILES_DIR [])
    [] [] [] false.

(** Data files of seven and of six rows, the third line of each blank. *)
Definition sevenRows : list (list string) :=
  [["1"; "a"]; ["2"; "b"]; [""; ""]; ["3"; "c"]; ["4"; "d"]; ["5"; "e"];
   ["6"; "f"]; ["7"; "g"]].

Definition sixRows : list (list string) :=
  [["1"; "a"]; ["2"; "b"]; [""; ""]; ["3"; "c"]; ["4"; "d"]; ["5"; "e"];
   ["6"; "f"]].

Definition sevenRowsEnv : Env := λ _, (Opened sevenRows EOF, sinkOk).
Definition sixRowsEnv : Env := λ _, (Opened sixRows EOF, sinkOk).

(** ** The invariant of the reachable worlds *)

Record wfState (maxThr : Z) (w : World) : Prop := mkWfState {
  wfs_maxThreads : maxThreads (service w) = maxThr;
  wfs_active : activeWorkers (service w) = len (goroutines w);
  wfs_ceiling : activeWorkers (service w) <= maxThr;
  wfs_cursor_lo : 0 <= currentFileIndex (service w);
  wfs_cursor_hi : currentFileIndex (service w) < len (filesQueue (service w)) ∨
                  currentFileIndex (service w) = 0;
  wfs_names : "" ∉ filesQueue (service w);
  wfs_nodup : NoDup (filesQueue (service w));
  wfs_tracked : ∀ f, f ∈ filesQueue (service w) ↔ is_Some (lock (service w) !! f);
  wfs_workers : ∀ wk, wk ∈ goroutines w → file wk ∈ filesQueue (service w);
  wfs_offsets : ∀ f, 0 <= offsetOf w f <= maxInt;
  wfs_status : ∀ f, f ∈ filesQueue (service w) →
                    statusOf w f ∈ [NotRead; Reading; Completed];
  wfs_events : ∀ f, f ∈ newFilesEvent (service w) → f ∈ filesQueue (service w);
  wfs_buffer : len (newFilesEvent (service w)) <= newFilesEventCap
}.

Definition wfWorld (maxThr : Z) (w : World) : Prop :=
  wfState maxThr w ∧ queueFits (filesQueue (service w)).

(** ** What a scan registers *)

(** The names a scan of [files] registers, in listing order, when the
    tracking table is [m]: the entries that are no directories, have the
    extension [.csv] and are not tracked, each at its first occurrence. *)
Fixpoint registered (m : gmap string FileLock) (files : list DirEntry)
    : list string :=
  match files with
  | [] => []
  | e :: rest =>
      if IsDir e then registered m rest
      else if decide (Ext (Name e) = ".csv" ∧ m !! Name e = None)
      then Name e :: registered (<[Name e := mkFileLock NotRead 0]> m) rest
      else registered m rest
  end.

(** The tracking table with the names [names] registered. *)
Definition registerAll (m : gmap string FileLock) (names : list string)
    : gmap string FileLock :=
  foldl (λ m n, <[n := mkFileLock NotRead 0]> m) m names.

(** The world in which [queued] were registered and queued, and the events
    of [sent] were sent. *)
Definition scanned (w : World) (queued sent : list string) : World :=
  mkWorld
    (set_newFilesEvent (newFilesEvent (service w) ++ sent)
       (set_filesQueue (filesQueue (service w) ++ queued)
          (set_lock (registerAll (lock (service w)) queued) (service w))))
    (stdout w ++
       ((λ n, "Added new file " +:+ n +:+
              " to the queue with status 'not_read'" +:+ nl) <$> queued))
    (resultFile w) (goroutines w) (scanLoopBlocked w).

(** The free places of the event buffer. *)
Definition freeSlots (w : World) : nat :=
  Z.to_nat (newFilesEventCap - len (newFilesEvent (service w))).

(** The fields of the service that only the scanner writes. *)
Definition sameScanFields (w w' : World) : Prop :=
  filesQueue (service w') = filesQueue (service w) ∧
  newFilesEvent (service w') = newFilesEvent (service w) ∧
  maxThreads (service w') = maxThreads (service w) ∧
  watching (service w') = watching (service w) ∧
  scanLoopBlocked w' = scanLoopBlocked w.

(** ** Draining a file *)

(** [m] dispatch ticks in a row, each followed by the run of its worker. *)
Fixpoint dispatchTimes (env : Env) (m : nat) : M unit :=
  match m with
  | O => mret tt
  | S m' => dispatchAndRun env;; dispatchTimes env m'
  end.

(** The line of the result file for a record: its first two fields,
    separated by a comma. *)
Definition rowLine (r : list string) : string :=
  default "" (r !! 0%nat) +:+ "," +:+ default "" (r !! 1%nat) +:+ nl.

(** A sink whose open and writes all succeed. *)
Definition sinkWorks (sink : SinkResult) : Prop :=
  sinkOpenErr sink = None ∧ ∀ j, sinkWriteErr sink j = None.

(** ** The other Go variant of the reader (unnamed/part_001)

    Its service, tracking table, picker and dispatch are those above,
    without the event channels. Its [readFile] has no test for blank
    records and no [tempReadLines]: it writes back the countdown
    [readLines] plus the number of rows collected. *)
Module PartOne.

(** The read loop: the records the reader delivers, the countdown
    [readLines] and the rows collected so far; it returns the rows and
    what is left of the countdown. *)
Fixpoint readFile_loop (records : list (list string)) (readLines : Z)
    (results : list (gmap string string))
    : M (list (gmap string string) * Z) :=
  match records with
  | [] => mret (results, readLines)
  | record :: rest =>
      if 0 <? readLines then readFile_loop rest (intSub readLines 1) results
      else if len results <? MAX_CHUNK_SIZE then
        id ← sliceIndex record 0;
        name ← sliceIndex record 1;
        readFile_loop rest readLines (results ++ [mkRow id name])
      else mret (results, readLines)
  end.

Definition readFile (wk : Worker) (opened : OpenResult) (sink : SinkResult)
    : M unit :=
  printf ("Start reading file " +:+ file wk +:+ nl);;
  match opened with
  | OpenError err =>
      printf ("Error opening file " +:+ file wk +:+ ": " +:+ err +:+ nl);;
      modService (λ s, set_activeWorkers (intSub (activeWorkers s) 1) s)
  | Opened records _ =>
      s ← getService;
      '(results, readLines) ←
        readFile_loop records (ReadLinesNumber (lockAt (lock s) (file wk))) [];
      appendToResultFile results sink;;
      (if len results <? MAX_CHUNK_SIZE then
         setFileStatus (file wk) Completed (intAdd readLines (len results));;
         printf ("File " +:+ file wk +:+ " has been completed." +:+ nl)
       else
         setFileStatus (file wk) NotRead (intAdd readLines (len results));;
         printf ("File " +:+ file wk +:+
                 " is set to 'not_read' for further processing." +:+ nl));;
      modService (λ s, set_activeWorkers (intSub (activeWorkers s) 1) s)
  end.

(** What is left of a countdown [o] after [n] records. *)
Definition countdownLeft (o n : Z) : Z :=
  if 0 <? o then Z.max 0 (o - n) else o.

(** The scanner of this variant: the loop body registers and queues a new
    file and sends no event. *)
Definition checkForNewFiles_body (f : DirEntry) : M unit :=
  if IsDir f then mret tt
  else if bool_decide (Ext (Name f) = ".csv") then
    tracked ← isFileTracked (Name f);
    if negb tracked then
      modService (λ s, set_lock (<[Name f := mkFileLock NotRead 0]> (lock s)) s);;
      modService (λ s, set_filesQueue (filesQueue s ++ [Name f]) s);;
      printf ("Added new file " +:+ Name f +:+
              " to the queue with status 'not_read'" +:+ nl)
    else mret tt
  else mret tt.

Fixpoint checkForNewFiles_loop (files : list DirEntry) : M unit :=
  match files with
  | [] => mret tt
  | f :: rest => checkForNewFiles_body f;; checkForNewFiles_loop rest
  end.

Definition checkForNewFiles (dir : ReadDirResult) : M unit :=
  match dir with
  | ReadDirError err => printf ("Error reading directory: " +:+ err +:+ nl)
  | DirEntries files => checkForNewFiles_loop files
  end.

End PartOne.

(** ** More example worlds *)

(** Eleven new files in one listing: one more than the event buffer
    holds. *)
Definition elevenNames : list string :=
  ["f01.csv"; "f02.csv"; "f03.csv"; "f04.csv"; "f05.csv"; "f06.csv";
   "f07.csv"; "f08.csv"; "f09.csv"; "f10.csv"; "f11.csv"].

Definition elevenFiles : list DirEntry := (λ n, mkDirEntry n false) <$> elevenNames.

(** The world after the first scan found them: the scan loop is blocked
    in the send of the eleventh event. *)
Definition blockedWorld : World :=
  set_scanLoopBlocked true
    (scanned (initWorld MAX_THREADS_COUNT) elevenNames (take 10 elevenNames)).

(** After the worker of [oneFileReading] has read its first chunk of the
    seven-row file. *)
Definition oneFileChunked : World :=
  match startProcessing (NewWorker "a.csv") (Opened sevenRows EOF) sinkOk
          (set_goroutines [] oneFileReading) with
  | Ok _ w' => w'
  | Panic _ | Blocked _ => oneFileReading
  end.


Definition missingFileEnv : Env := λ _, (OpenError "no such file", sinkOk).

(** ** Writes that fail *)




(** ** Operations that interleave

    The workers are goroutines and the dispatch loop runs beside them.
    [readFile] reads the saved offset once, at line 230, and writes it
    back at its end, at line 265 or 268; [processFiles] evaluates the
    arguments of line 192 before [setFileStatus] takes the mutex. Other
    goroutines run in between. Each read and each write of the table is
    one event here: the interleaved system orders the accesses of the
    goroutines, it does not overlap them. *)

(** [readFile] through line 231: the log line, the open and the read of
    the saved offset. It returns the records the reader will deliver and
    that offset, or nothing when the open failed and the worker is
    done. *)
Definition readFile_open (wk : Worker) (opened : OpenResult)
    : M (option (list (list string) * Z)) :=
  printf ("Start reading file " +:+ file wk +:+ nl);;
  match opened with
  | OpenError err =>
      printf ("Error opening file " +:+ file wk +:+ ": " +:+ err +:+ nl);;
      modService (λ s, set_activeWorkers (intSub (activeWorkers s) 1) s);;
      mret None
  | Opened records _ =>
      s ← getService;
      mret (Some (records, ReadLinesNumber (lockAt (lock s) (file wk))))
  end.

(** [readFile] from line 233, with [readLines] as it was read at line
    230. *)
Definition readFile_rest (wk : Worker) (records : list (list string))
    (readLines : Z) (sink : SinkResult) : M unit :=
  '(results, tempReadLines) ← readFile_loop records readLines readLines [];
  appendToResultFile results sink;;
  (if len results <? MAX_CHUNK_SIZE then
     setFileStatus (file wk) Completed tempReadLines;;
     printf ("File " +:+ file wk +:+ " has been completed." +:+ nl)
   else
     setFileStatus (file wk) NotRead tempReadLines;;
     printf ("File " +:+ file wk +:+
             " is set to 'not_read' for further processing." +:+ nl));;
  modService (λ s, set_activeWorkers (intSub (activeWorkers s) 1) s).

(** [processFiles] up to the call of line 192, its arguments evaluated:
    the file picked and the offset read for it, or nothing when the tick
    ends before. *)
Definition processFiles_pick : M (option (string * Z)) :=
  s ← getService;
  if maxThreads s <=? activeWorkers s then mret None
  else
    f ← pickNextFile;
    if bool_decide (f ≠ "") then
      s ← getService;
      mret (Some (f, ReadLinesNumber (lockAt (lock s) f)))
    else mret None.

(** [processFiles] from the call of line 192. *)
Definition processFiles_mark (f : string) (readLinesNumber : Z) : M unit :=
  setFileStatus f Reading readLinesNumber;;
  modService (λ s, set_activeWorkers (intAdd (activeWorkers s) 1) s);;
  go (NewWorker f).

(** A worker past line 231: the records its reader will deliver and the
    offset it read. *)
Record Reader : Type := mkReader {
  rWorker : Worker;
  rRecords : list (list string);
  rReadLines : Z
}.

(** The world together with the goroutines that are inside an operation:
    the workers past line 231, and the dispatch tick that has evaluated
    the arguments of line 192, if there is one. [goroutines] of the world
    are the workers started and not yet at line 217. *)
Record Conc : Type := mkConc {
  shared : World;
  readers : list Reader;
  marking : option (string * Z)
}.

Definition idle (w : World) : Conc := mkConc w [] None.

(** One step of the interleaved system. The scan tick and the receipt of
    an event are those of [step]; a dispatch tick is two steps and the
    run of a worker is two steps, and anything may happen between the
    two. *)
Inductive cstep : Conc → Conc → Prop :=
  | cstep_scan c dir w' :
      scanLoopBlocked (shared c) = false →
      checkForNewFiles dir (shared c) = Ok tt w' →
      queueFits (filesQueue (service w')) →
      cstep c (mkConc w' (readers c) (marking c))
  | cstep_scan_blocked c dir w' :
      scanLoopBlocked (shared c) = false →
      checkForNewFiles dir (shared c) = Blocked w' →
      queueFits (filesQueue (service w')) →
      cstep c (mkConc (set_scanLoopBlocked true w') (readers c) (marking c))
  | cstep_event c f rest w' :
      scanLoopBlocked (shared c) = false →
      newFilesEvent (service (shared c)) = f :: rest →
      handleNewFileEvent f (on_service (set_newFilesEvent rest) (shared c)) =
        Ok tt w' →
      cstep c (mkConc w' (readers c) (marking c))
  | cstep_pick c r w' :
      marking c = None →
      processFiles_pick (shared c) = Ok r w' →
      cstep c (mkConc w' (readers c) r)
  | cstep_mark c f o w' :
      marking c = Some (f, o) →
      processFiles_mark f o (shared c) = Ok tt w' →
      cstep c (mkConc w' (readers c) None)
  | cstep_open c pre wk post opened r w' :
      goroutines (shared c) = pre ++ wk :: post →
      recordsFit opened →
      readFile_open wk opened (set_goroutines (pre ++ post) (shared c)) =
        Ok r w' →
      cstep c (mkConc w'
                 (match r with
                  | Some (records, o) => readers c ++ [mkReader wk records o]
                  | None => readers c
                  end)
                 (marking c))
  | cstep_rest c pre rd post sink w' :
      readers c = pre ++ rd :: post →
      readFile_rest (rWorker rd) (rRecords rd) (rReadLines rd) sink (shared c) =
        Ok tt w' →
      cstep c (mkConc w' (pre ++ post) (marking c)).

#[global] Instance queueFits_dec q : Decision (queueFits q).
Proof. unfold queueFits. apply _. Defined.

#[global] Instance recordsFit_dec opened : Decision (recordsFit opened).
Proof. destruct opened; simpl; apply _. Defined.

(** The steps as moves that can be run: which operation goes next, and
    what the environment answers it. *)
Inductive Move : Type :=
  | MScan (dir : ReadDirResult)
  | MEvent
  | MPick
  | MMark
  | MOpen (i : nat) (opened : OpenResult)
  | MRest (i : nat) (sink : SinkResult).

Definition move (m : Move) (c : Conc) : option Conc :=
  let w := shared c in
  match m with
  | MScan dir =>
      if scanLoopBlocked w then None
      else match checkForNewFiles dir w with
           | Ok _ w' =>
               if decide (queueFits (filesQueue (service w')))
               then Some (mkConc w' (readers c) (marking c)) else None
           | Blocked w' =>
               if decide (queueFits (filesQueue (service w')))
               then Some (mkConc (set_scanLoopBlocked true w') (readers c)
                            (marking c))
               else None
           | Panic _ => None
           end
  | MEvent =>
      if scanLoopBlocked w then None
      else match newFilesEvent (service w) with
           | f :: rest =>
               match handleNewFileEvent f
                       (on_service (set_newFilesEvent rest) w) with
               | Ok _ w' => Some (mkConc w' (readers c) (marking c))
               | Panic _ | Blocked _ => None
               end
           | [] => None
           end
  | MPick =>
      match marking c with
      | Some _ => None
      | None =>
          match processFiles_pick w with
          | Ok r w' => Some (mkConc w' (readers c) r)
          | Panic _ | Blocked _ => None
          end
      end
  | MMark =>
      match marking c with
      | Some (f, o) =>
          match processFiles_mark f o w with
          | Ok _ w' => Some (mkConc w' (readers c) None)
          | Panic _ | Blocked _ => None
          end
      | None => None
      end
  | MOpen i opened =>
      match goroutines w !! i with
      | Some wk =>
          if decide (recordsFit opened) then
            match readFile_open wk opened
                    (set_goroutines
                       (take i (goroutines w) ++ drop (S i) (goroutines w)) w)
            with
            | Ok r w' =>
                Some (mkConc w'
                        (match r with
                         | Some (records, o) =>
                             readers c ++ [mkReader wk records o]
                         | None => readers c
                         end)
                        (marking c))
            | Panic _ | Blocked _ => None
            end
          else None
      | None => None
      end
  | MRest i sink =>
      match readers c !! i with
      | Some rd =>
          match readFile_rest (rWorker rd) (rRecords rd) (rReadLines rd) sink w
          with
          | Ok _ w' =>
              Some (mkConc w' (take i (readers c) ++ drop (S i) (readers c))
                      (marking c))
          | Panic _ | Blocked _ => None
          end
      | None => None
      end
  end.

Fixpoint moves (ms : list Move) (c : Conc) : option Conc :=
  match ms with
  | [] => Some c
  | m :: rest =>
      match move m c with
      | Some c' => moves rest c'
      | None => None
      end
  end.

(** ** What interleaved runs keep *)

(** The offsets of the table, those the workers in flight have read and
    the one a dispatch tick in flight has read are non-negative [int]s,
    and the files being read fit an [int]. *)
Record cwf (c : Conc) : Prop := mkCwf {
  cwf_offsets : ∀ f, 0 <= offsetOf (shared c) f <= maxInt;
  cwf_readers : ∀ rd, rd ∈ readers c →
                      0 <= rReadLines rd <= maxInt ∧
                      len (rRecords rd) <= maxInt;
  cwf_marking : ∀ f o, marking c = Some (f, o) → 0 <= o <= maxInt
}.

Definition creachable (maxThr : Z) (c : Conc) : Prop :=
  rtc cstep (idle (initWorld maxThr)) c.

(** ** Two interleaved runs *)

Definition aListing : ReadDirResult := DirEntries [mkDirEntry "a.csv" false].

(** A scan finds [a.csv]; two dispatch ticks start two workers on it (the
    second because a file in status Reading is picked again), and both
    read the saved offset 0. The first writes its chunk back; a third
    worker is dispatched, reads offset 3 and writes its chunk back. The
    second worker is still between line 231 and its write-back. *)
Definition staleWorkerRun : list Move :=
  [MScan aListing; MPick; MMark; MPick; MMark;
   MOpen 0 (Opened sevenRows EOF); MOpen 0 (Opened sevenRows EOF);
   MRest 0 sinkOk;
   MPick; MMark; MOpen 0 (Opened sevenRows EOF); MRest 1 sinkOk].

Definition staleWorkerBefore : Conc :=
  default (idle (initWorld MAX_THREADS_COUNT))
    (moves staleWorkerRun (idle (initWorld MAX_THREADS_COUNT))).

(** Then the second worker goes on. *)
Definition staleWorkerAfter : Conc :=
  default staleWorkerBefore (move (MRest 0 sinkOk) staleWorkerBefore).

(** A scan finds [a.csv]; a dispatch tick starts a worker on it, which
    reads offset 0; the next dispatch tick picks the file again and
    evaluates the arguments of line 192, offset 0 among them; the worker
    writes its chunk back. The tick is still before its call of
    [setFileStatus]. *)
Definition staleMarkRun : list Move :=
  [MScan aListing; MPick; MMark; MOpen 0 (Opened sevenRows EOF);
   MPick; MRest 0 sinkOk].

Definition staleMarkBefore : Conc :=
  default (idle (initWorld MAX_THREADS_COUNT))
    (moves staleMarkRun (idle (initWorld MAX_THREADS_COUNT))).

(** Then the tick goes on. *)
Definition staleMarkAfter : Conc :=
  default staleMarkBefore (move MMark staleMarkBefore).

(** * Proofs *)

(** ** Integers *)

Lemma intWrap_id (z : Z) : isInt z → intWrap z = z.
Proof.
  unfold isInt, intWrap, minInt, maxInt. intros Hz.
  rewrite Z.mod_small by lia. lia.
Qed.

Lemma intAdd_exact (a b : Z) : isInt (a + b) → intAdd a b = a + b.
Proof. apply intWrap_id. Qed.

Lemma intSub_exact (a b : Z) : isInt (a - b) → intSub a b = a - b.
Proof. apply intWrap_id. Qed.

Lemma intWrap_isInt (z : Z) : isInt (intWrap z).
Proof.
  unfold isInt, intWrap, minInt, maxInt.
  pose proof (Z.mod_pos_bound (z - -9223372036854775808) 18446744073709551616).
  lia.
Qed.

(** ** Computations *)

Lemma bind_unfold {A B} (m : M A) (f : A → M B) (w : World) :
  (m ≫= f) w =
  match m w with
  | Ok a w' => f a w'
  | Panic msg => Panic msg
  | Blocked w' => Blocked w'
  end.
Proof. reflexivity. Qed.

Lemma bind_Ok {A B} (m : M A) (f : A → M B) (w w' : World) (a : A) :
  m w = Ok a w' → (m ≫= f) w = f a w'.
Proof. intros H. rewrite bind_unfold, H. reflexivity. Qed.

Ltac msimpl :=
  repeat (rewrite bind_unfold; simpl);
  unfold getService, modService, printf, go, mret, M_ret; simpl.

(** ** The tracking table *)

Lemma lockAt_insert_eq (m : gmap string FileLock) (f : string) (fl : FileLock) :
  lockAt (<[f := fl]> m) f = fl.
Proof. unfold lockAt. rewrite lookup_insert_eq. reflexivity. Qed.

Lemma lockAt_insert_ne (m : gmap string FileLock) (f g : string) (fl : FileLock) :
  f ≠ g → lockAt (<[f := fl]> m) g = lockAt m g.
Proof. intros H. unfold lockAt. rewrite lookup_insert_ne by done. reflexivity. Qed.

(** The two outcomes of [setFileStatus], as equations. *)
Lemma setFileStatus_rejected (w : World) (f : string) (status : FileStatus) (n : Z) :
  statusOf w f = Completed → status ≠ Completed →
  setFileStatus f status n w =
  Ok tt (set_stdout
           (stdout w ++ ["Cannot change status from completed to " +:+ status +:+
                         " for file " +:+ f +:+ nl]) w).
Proof.
  intros Hc Hs. unfold setFileStatus, statusOf in *. rewrite bind_unfold. simpl.
  rewrite (bool_decide_eq_true_2 _ Hc), (bool_decide_eq_true_2 _ Hs). reflexivity.
Qed.

Lemma setFileStatus_applied (w : World) (f : string) (status : FileStatus) (n : Z) :
  ¬ (statusOf w f = Completed ∧ status ≠ Completed) →
  setFileStatus f status n w =
  Ok tt (set_stdout
           (stdout w ++ ["File " +:+ f +:+ " status updated to " +:+ status +:+ nl])
           (on_service (set_lock (<[f := mkFileLock status n]> (lock (service w)))) w)).
Proof.
  intros Hn. unfold setFileStatus, statusOf in *. rewrite bind_unfold. simpl.
  destruct (bool_decide _ && bool_decide _) eqn:E.
  - apply andb_prop in E as [E1 E2].
    apply bool_decide_eq_true_1 in E1, E2. tauto.
  - reflexivity.
Qed.

(** C1. Every [setFileStatus] call returns, and does one of two things.
    If the file's current status is Completed and the requested status is
    not, the call only logs the refusal: the service, hence status and
    offset of every file, is unchanged. Otherwise the entry of the file is
    replaced by the pair (status, offset) in one update, nothing else in
    the service changes, and the update is logged. In both cases the pair
    read back afterwards is the old pair or the new pair, never a mix. *)
Theorem setFileStatus_guarded_pair_update
    (w : World) (f : string) (status : FileStatus) (n : Z) :
  ∃ w', setFileStatus f status n w = Ok tt w' ∧
    resultFile w' = resultFile w ∧ goroutines w' = goroutines w ∧
    scanLoopBlocked w' = scanLoopBlocked w ∧
    (statusOf w f = Completed ∧ status ≠ Completed →
       service w' = service w ∧
       statusOf w' f = statusOf w f ∧ offsetOf w' f = offsetOf w f ∧
       stdout w' = stdout w ++ ["Cannot change status from completed to " +:+
                                status +:+ " for file " +:+ f +:+ nl]) ∧
    (¬ (statusOf w f = Completed ∧ status ≠ Completed) →
       service w' =
         set_lock (<[f := mkFileLock status n]> (lock (service w))) (service w) ∧
       statusOf w' f = status ∧ offsetOf w' f = n ∧
       (∀ g, g ≠ f → statusOf w' g = statusOf w g ∧ offsetOf w' g = offsetOf w g) ∧
       stdout w' = stdout w ++ ["File " +:+ f +:+ " status updated to " +:+
                                status +:+ nl]) ∧
    ((statusOf w' f, offsetOf w' f) = (statusOf w f, offsetOf w f) ∨
     (statusOf w' f, offsetOf w' f) = (status, n)).
Proof.
  destruct (decide (statusOf w f = Completed ∧ status ≠ Completed)) as [[Hc Hs]|Hn].
  - eexists. split; [apply setFileStatus_rejected; done|].
    simpl. split_and!; try done; try tauto.
  - eexists. split; [apply setFileStatus_applied; done|].
    unfold statusOf, offsetOf. simpl. split_and!; try done; try tauto.
    + intros _. split_and!; try done; try (by rewrite lockAt_insert_eq).
      intros g Hg. split; by rewrite lockAt_insert_ne.
    + right. by rewrite lockAt_insert_eq.
Qed.

(** ** Reading a list circularly *)

Section Circular.
Context {A : Type}.
Implicit Types (q : list A) (c m j : nat).

Lemma circular_length c q : length (circular c q) = length q.
Proof. unfold circular. rewrite length_app, length_drop, length_take. lia. Qed.

Lemma circular_0 q : circular 0 q = q.
Proof. unfold circular. simpl. by rewrite drop_0, app_nil_r. Qed.

Lemma circular_elem_of c q x : x ∈ circular c q ↔ x ∈ q.
Proof.
  unfold circular. rewrite <- (take_drop c q) at 3.
  rewrite !elem_of_app. tauto.
Qed.

Lemma circular_lookup c q j :
  (c < length q)%nat → (j < length q)%nat →
  circular c q !! j = q !! ((c + j) mod length q)%nat.
Proof.
  intros Hc Hj. unfold circular.
  destruct (decide (c + j < length q)%nat) as [Hlt|Hge].
  - rewrite lookup_app_l by (rewrite length_drop; lia).
    rewrite lookup_drop, Nat.mod_small by lia. done.
  - rewrite lookup_app_r by (rewrite length_drop; lia).
    rewrite length_drop, lookup_take_lt by lia.
    f_equal.
    replace (c + j)%nat with ((j - (length q - c)) + 1 * length q)%nat by lia.
    rewrite Nat.Div0.mod_add, Nat.mod_small by lia. done.
Qed.

Lemma circular_shift c m q :
  (c < length q)%nat → (m ≤ length q)%nat →
  circular ((c + m) mod length q) q =
  drop m (circular c q) ++ take m (circular c q).
Proof.
  intros Hc Hm. unfold circular.
  destruct (decide (c + m < length q)%nat) as [Hlt|Hge].
  - rewrite Nat.mod_small by lia.
    rewrite drop_app_le by (rewrite length_drop; lia).
    rewrite take_app_le by (rewrite length_drop; lia).
    rewrite drop_drop, <- app_assoc. f_equal.
    rewrite <- take_take_drop. done.
  - replace (c + m)%nat with ((c + m - length q) + 1 * length q)%nat at 1 2 by lia.
    rewrite Nat.Div0.mod_add, Nat.mod_small by lia.
    set (d := (c + m - length q)%nat).
    rewrite drop_app_ge by (rewrite length_drop; lia).
    rewrite take_app_ge by (rewrite length_drop; lia).
    rewrite length_drop.
    replace (m - (length q - c))%nat with d by lia.
    rewrite take_take, Nat.min_l by lia.
    rewrite <- (take_drop c q) at 1.
    rewrite drop_app_le by (rewrite length_take; lia).
    by rewrite <- !app_assoc.
Qed.
End Circular.

(** ** The round-robin picker *)

Lemma wfQueue_cursor_lt (s : FileWatcherService) :
  wfQueue s → filesQueue s ≠ [] →
  (Z.to_nat (currentFileIndex s) < length (filesQueue s))%nat.
Proof.
  intros [Hlo Hhi _ _] Hne. unfold len in *.
  destruct (filesQueue s); [done|]. simpl in *. lia.
Qed.

Lemma pick_index (cur : Z) (q : list string) (i : nat) :
  0 <= cur < len q → queueFits q → (i ≤ length q)%nat →
  intRem (intAdd cur (Z.of_nat i)) (len q) =
  Z.of_nat ((Z.to_nat cur + i) mod length q).
Proof.
  unfold queueFits, len. intros Hc Hf Hi.
  rewrite intAdd_exact by (unfold isInt, minInt, maxInt in *; lia).
  unfold intRem. rewrite Z.rem_mod_nonneg by lia.
  rewrite Nat2Z.inj_mod, Nat2Z.inj_add, Z2Nat.id by lia. done.
Qed.

Lemma pick_next_index (q : list string) (p : nat) :
  (p < length q)%nat → queueFits q →
  intRem (intAdd (Z.of_nat p) 1) (len q) = Z.of_nat ((p + 1) mod length q).
Proof.
  unfold queueFits, len. intros Hp Hf.
  rewrite intAdd_exact by (unfold isInt, minInt, maxInt in *; lia).
  unfold intRem. rewrite Z.rem_mod_nonneg by lia.
  rewrite Nat2Z.inj_mod, Nat2Z.inj_add. done.
Qed.

Lemma sliceIndex_lookup {A} (l : list A) (p : nat) (x : A) (w : World) :
  l !! p = Some x → sliceIndex l (Z.of_nat p) w = Ok x w.
Proof.
  intros H. unfold sliceIndex.
  destruct (Z.ltb_spec (Z.of_nat p) 0); [lia|].
  rewrite Nat2Z.id, H. done.
Qed.

Lemma pickNextFile_loop_spec (w : World) (n i : nat) :
  let s := service w in
  let q := filesQueue s in
  let c := Z.to_nat (currentFileIndex s) in
  wfQueue s → q ≠ [] → (i + n = length q)%nat →
  pickNextFile_loop n (Z.of_nat i) w =
  match list_find (eligible s) (drop i (circular c q)) with
  | Some (k, f) =>
      Ok f (on_service
              (set_currentFileIndex
                 (Z.of_nat ((((c + (i + k)) mod length q) + 1) mod length q))) w)
  | None => Ok "" w
  end.
Proof.
  intros s q c Hwf Hne. revert i.
  pose proof (wfQueue_cursor_lt s Hwf Hne) as Hc. fold q c in Hc.
  assert (Hcur : 0 <= currentFileIndex s < len q).
  { destruct Hwf. unfold len. fold q. lia. }
  pose proof (wf_fits s Hwf) as Hfit. fold q in Hfit.
  induction n as [|n IH]; intros i Hi.
  - rewrite drop_ge by (rewrite circular_length; lia). done.
  - assert (Hlt : (i < length q)%nat) by lia.
    destruct (lookup_lt_is_Some_2 (circular c q) i) as [x Hx];
      [rewrite circular_length; lia|].
    rewrite (drop_S _ _ _ Hx). simpl.
    rewrite bind_unfold. simpl. fold s q.
    rewrite pick_index by (done || lia). fold c.
    rewrite circular_lookup in Hx by done.
    rewrite bind_unfold, (sliceIndex_lookup _ _ _ _ Hx).
    destruct (decide (eligible s x)) as [He|He].
    + rewrite bool_decide_eq_true_2 by done.
      rewrite pick_next_index by (done || apply Nat.mod_upper_bound; lia).
      rewrite Nat.add_0_r. done.
    + rewrite bool_decide_eq_false_2 by done.
      assert (HS : intAdd (Z.of_nat i) 1 = Z.of_nat (S i)).
      { rewrite intAdd_exact; [lia|].
        unfold queueFits, len, isInt, minInt, maxInt in *. lia. }
      rewrite HS, IH by lia.
      destruct (list_find (eligible s) (drop (S i) (circular c q))) as [[k f]|]; simpl; [|done].
      by replace (c + S (i + k))%nat with (c + (i + S k))%nat by lia.
Qed.

Lemma pickNextFile_spec (w : World) :
  let s := service w in
  let q := filesQueue s in
  let c := Z.to_nat (currentFileIndex s) in
  wfQueue s →
  pickNextFile w =
  match list_find (eligible s) (circular c q) with
  | Some (k, f) =>
      Ok f (on_service
              (set_currentFileIndex
                 (Z.of_nat ((((c + k) mod length q) + 1) mod length q))) w)
  | None => Ok "" w
  end.
Proof.
  intros s q c Hwf. unfold pickNextFile. rewrite bind_unfold. simpl.
  fold s q. destruct (decide (q = [])) as [Hq|Hq].
  - rewrite Hq. simpl. unfold circular. by rewrite drop_nil, take_nil.
  - destruct (Z.eqb_spec (len q) 0) as [H0|H0].
    { unfold len in H0. destruct q; [done|simpl in H0; lia]. }
    change 0 with (Z.of_nat 0).
    rewrite (pickNextFile_loop_spec w (length q) 0) by (done || lia).
    fold s q c. rewrite drop_0. done.
Qed.


Lemma not_eligible_completed (s : FileWatcherService) (g : string) :
  ¬ eligible s g ↔ Status (lockAt (lock s) g) = Completed.
Proof.
  unfold eligible. split; [|tauto].
  intros H. by destruct (decide (Status (lockAt (lock s) g) = Completed)).
Qed.

(** C3. On a well-formed service, [pickNextFile] returns. It returns the
    empty name, and leaves the world as it is, exactly when the queue is
    empty or every queued file is Completed. Otherwise it returns the
    first file, in the circular order that starts at the cursor, whose
    status is not Completed: the file is met after [k] probes of Completed
    files, with [k] less than the queue length, and the cursor becomes the
    queue position just after the file's (modulo the queue length). The
    cursor is all it writes: the queue, the tracking table, the worker
    count, the started workers and both outputs stay as they are. *)
Theorem pickNextFile_first_eligible_circular (w : World) :
  let s := service w in
  let q := filesQueue s in
  let c := Z.to_nat (currentFileIndex s) in
  wfQueue s →
  ∃ f w', pickNextFile w = Ok f w' ∧
    (f = "" ↔ q = [] ∨ Forall (λ g, Status (lockAt (lock s) g) = Completed) q) ∧
    (f = "" → w' = w) ∧
    (f ≠ "" → ∃ k : nat,
       (k < length q)%nat ∧
       circular c q !! k = Some f ∧
       Status (lockAt (lock s) f) ≠ Completed ∧
       (∀ (j : nat) g, (j < k)%nat → circular c q !! j = Some g →
                       Status (lockAt (lock s) g) = Completed) ∧
       q !! ((c + k) mod length q)%nat = Some f ∧
       currentFileIndex (service w') =
         Z.of_nat (((c + k) mod length q + 1) mod length q) ∧
       filesQueue (service w') = q ∧
       lock (service w') = lock s ∧
       activeWorkers (service w') = activeWorkers s ∧
       goroutines w' = goroutines w ∧
       stdout w' = stdout w ∧
       resultFile w' = resultFile w ∧
       w' = on_service
              (set_currentFileIndex
                 (Z.of_nat (((c + k) mod length q + 1) mod length q))) w).
Proof.
  intros s q c Hwf. rewrite (pickNextFile_spec w Hwf). fold s q c.
  destruct (list_find (eligible s) (circular c q)) as [[k f]|] eqn:Hfind.
  - apply list_find_Some in Hfind as (Hk & He & Hbefore).
    assert (Hin : f ∈ q).
    { apply (circular_elem_of c). by eapply list_elem_of_lookup_2. }
    assert (Hf : f ≠ "").
    { intros ->. by apply (wf_names s Hwf). }
    assert (Hklt : (k < length q)%nat).
    { apply lookup_lt_Some in Hk. by rewrite circular_length in Hk. }
    assert (Hq : q ≠ []) by (intros E; rewrite E in Hin; by apply elem_of_nil in Hin).
    pose proof (wfQueue_cursor_lt s Hwf Hq) as Hc. fold q c in Hc.
    eexists _, _. split; [done|]. split_and!.
    + split; [done|]. intros [E|Hall]; [done|].
      rewrite Forall_forall in Hall. destruct He. by apply Hall.
    + done.
    + intros _. exists k. split_and!; try done.
      * intros j g Hj Hg. apply not_eligible_completed. by eapply Hbefore.
      * by rewrite <- circular_lookup.
  - apply list_find_None in Hfind.
    eexists _, _. split; [done|]. split_and!; try done.
    split; [|done]. intros _.
    destruct (decide (q = [])) as [|Hq]; [by left|right].
    rewrite Forall_forall in Hfind. apply Forall_forall. intros g Hg.
    apply not_eligible_completed, Hfind. by apply circular_elem_of.
Qed.

(** ** Round-robin passes *)

Lemma filter_iff_in {A} (P1 P2 : A → Prop)
    `{!∀ x, Decision (P1 x), !∀ x, Decision (P2 x)} (l : list A) :
  (∀ x, x ∈ l → (P1 x ↔ P2 x)) → filter P1 l = filter P2 l.
Proof.
  induction l as [|a l IH]; intros Hiff; [done|].
  assert (Ha : P1 a ↔ P2 a) by (apply Hiff; left).
  assert (Hl : filter P1 l = filter P2 l).
  { apply IH. intros x Hx. apply Hiff. by right. }
  destruct (decide (P1 a)).
  - rewrite !filter_cons_True by tauto. by rewrite Hl.
  - rewrite !filter_cons_False by tauto. done.
Qed.

Lemma list_find_filter {A} (P : A → Prop) `{!∀ x, Decision (P x)}
    (l : list A) (k : nat) (x : A) :
  list_find P l = Some (k, x) →
  filter P (take k l) = [] ∧ filter P l = x :: filter P (drop (S k) l).
Proof.
  revert k. induction l as [|a l IH]; intros k Hf; [done|].
  simpl in Hf. destruct (decide (P a)) as [Ha|Ha].
  - inversion Hf; subst. simpl. rewrite filter_cons_True by done.
    by rewrite drop_0.
  - destruct (list_find P l) as [[k' y]|] eqn:E; [|done].
    simpl in Hf. inversion Hf; subst. destruct (IH k' eq_refl) as [H1 H2].
    simpl. rewrite !filter_cons_False by done. done.
Qed.

Lemma list_find_filter_nil {A} (P : A → Prop) `{!∀ x, Decision (P x)}
    (l : list A) :
  list_find P l = None → filter P l = [].
Proof.
  intros Hf%list_find_None. induction Hf as [|a l Ha _ IH]; [done|].
  by rewrite filter_cons_False.
Qed.

(** One pick moves the picked file from the head of the eligible files, in
    circular order from the cursor, to their end. *)
Lemma pickNextFile_rotates (w : World) (f : string) (rest : list string) :
  let s := service w in
  let q := filesQueue s in
  let c := Z.to_nat (currentFileIndex s) in
  wfQueue s →
  filter (eligible s) (circular c q) = f :: rest →
  ∃ w', pickNextFile w = Ok f w' ∧
    wfQueue (service w') ∧
    filesQueue (service w') = q ∧
    lock (service w') = lock s ∧
    filter (eligible s)
      (circular (Z.to_nat (currentFileIndex (service w'))) q) = rest ++ [f].
Proof.
  intros s q c Hwf Hfilter. rewrite (pickNextFile_spec w Hwf). fold s q c.
  destruct (list_find (eligible s) (circular c q)) as [[k g]|] eqn:Hfind.
  2: { apply list_find_filter_nil in Hfind. congruence. }
  destruct (list_find_filter _ _ _ _ Hfind) as [Hpre Hpost].
  rewrite Hpost in Hfilter. inversion Hfilter; subst g rest. clear Hfilter.
  apply list_find_Some in Hfind as (Hk & He & _).
  assert (Hklt : (k < length q)%nat).
  { apply lookup_lt_Some in Hk. by rewrite circular_length in Hk. }
  assert (Hq : q ≠ []) by (intros E; rewrite E in Hklt; simpl in Hklt; lia).
  pose proof (wfQueue_cursor_lt s Hwf Hq) as Hc. fold q c in Hc.
  set (c' := (((c + k) mod length q + 1) mod length q)%nat).
  assert (Hc' : (c' < length q)%nat) by (apply Nat.mod_upper_bound; lia).
  eexists. split; [done|]. simpl. fold s q. split_and!; try done.
  - destruct Hwf as [Hlo Hhi Hfit Hnames]. split; simpl; fold s q; try done.
    + lia.
    + left. unfold len. lia.
  - rewrite Nat2Z.id. unfold c'.
    rewrite Nat.Div0.add_mod_idemp_l, <- Nat.add_assoc.
    replace (k + 1)%nat with (S k) by lia.
    rewrite circular_shift by lia.
    rewrite filter_app, (take_S_r _ _ _ Hk), filter_app, Hpre.
    by rewrite filter_cons_True by done.
Qed.

Lemma samePass_filter (w1 w2 : World) (l : list string) :
  samePass w1 w2 → (∀ g, g ∈ l → g ∈ filesQueue (service w1)) →
  filter (eligible (service w2)) l = filter (eligible (service w1)) l.
Proof.
  intros (_ & _ & H) Hl. apply filter_iff_in. intros g Hg.
  unfold eligible. specialize (H g (Hl g Hg)). unfold statusOf in H. tauto.
Qed.

Lemma pass_prefix (n : nat) (w : World) (fs : list string) (w' : World) :
  pass n w fs w' →
  wfQueue (service w) →
  (n ≤ length (filter (eligible (service w))
                 (circular (Z.to_nat (currentFileIndex (service w)))
                    (filesQueue (service w)))))%nat →
  fs = take n (filter (eligible (service w))
                 (circular (Z.to_nat (currentFileIndex (service w)))
                    (filesQueue (service w)))).
Proof.
  induction 1 as [w|n w f w1 w2 fs w3 Hpick Hsame Hpass IH]; intros Hwf Hn.
  - by rewrite take_0.
  - destruct (filter (eligible (service w)) _) as [|g rest] eqn:Hfilter;
      [simpl in Hn; lia|].
    destruct (pickNextFile_rotates w g rest Hwf Hfilter)
      as (w1' & Hpick' & Hwf1 & Hq1 & Hlock1 & Hrot).
    rewrite Hpick in Hpick'. inversion Hpick'; subst g w1'. clear Hpick'.
    pose proof Hsame as (Hq2 & Hc2 & Hst).
    assert (Hwf2 : wfQueue (service w2)).
    { destruct Hwf1. split; by rewrite ?Hq2, ?Hc2. }
    assert (Hfilter2 :
      filter (eligible (service w2))
        (circular (Z.to_nat (currentFileIndex (service w2)))
           (filesQueue (service w2))) = rest ++ [f]).
    { rewrite Hq2, Hc2, Hq1.
      rewrite (samePass_filter w1 w2) by
        (done || (intros g Hg; rewrite Hq1; by apply circular_elem_of in Hg)).
      rewrite <- Hrot. apply filter_iff_in. intros g _.
      unfold eligible. by rewrite Hlock1. }
    simpl in Hn. rewrite Hfilter2 in IH.
    rewrite IH by (done || rewrite length_app; simpl; lia).
    simpl. f_equal. rewrite take_app_le by lia. done.
Qed.

Lemma circular_Permutation {A} (c : nat) (q : list A) : circular c q ≡ₚ q.
Proof.
  unfold circular. rewrite <- (take_drop c q) at 3. apply Permutation_app_comm.
Qed.

Lemma samePass_refl (w : World) : samePass w w.
Proof. by split_and!. Qed.

Lemma pass_exists (n : nat) (w : World) :
  wfQueue (service w) →
  (n ≤ length (filter (eligible (service w))
                 (circular (Z.to_nat (currentFileIndex (service w)))
                    (filesQueue (service w)))))%nat →
  ∃ fs w', pass n w fs w'.
Proof.
  revert w. induction n as [|n IH]; intros w Hwf Hn.
  - exists [], w. constructor.
  - destruct (filter (eligible (service w)) _) as [|g rest] eqn:Hfilter;
      [simpl in Hn; lia|].
    destruct (pickNextFile_rotates w g rest Hwf Hfilter)
      as (w1 & Hpick & Hwf1 & Hq1 & Hlock1 & Hrot).
    destruct (IH w1 Hwf1) as (fs & w' & Hpass).
    { rewrite Hq1.
      rewrite (filter_iff_in (eligible (service w1)) (eligible (service w)))
        by (intros x _; unfold eligible; by rewrite Hlock1).
      rewrite Hrot, length_app. simpl in *. lia. }
    exists (g :: fs), w'. econstructor; [done|apply samePass_refl|done].
Qed.

(** C6. Take a well-formed service whose queue names are pairwise
    distinct and has [N] files that are not Completed. Then [N] consecutive
    [pickNextFile] calls can be made, from whatever cursor the service
    has, and whatever happens between them that keeps the queue, the
    cursor and the Completed files: the names they return are the [N]
    non-Completed files in circular queue order from the cursor, so each
    of them is returned exactly once and none twice. *)
Theorem pass_returns_each_eligible_once
    (N : nat) (w : World) :
  let s := service w in
  let q := filesQueue s in
  let c := Z.to_nat (currentFileIndex s) in
  wfQueue s → NoDup q →
  N = length (filter (eligible s) q) →
  (∃ fs w', pass N w fs w') ∧
  ∀ fs w', pass N w fs w' →
    fs = filter (eligible s) (circular c q) ∧
    length fs = N ∧
    NoDup fs ∧
    (∀ g, g ∈ fs ↔ g ∈ q ∧ Status (lockAt (lock s) g) ≠ Completed).
Proof.
  intros s q c Hwf Hnd HN.
  assert (HN' : N = length (filter (eligible s) (circular c q))).
  { rewrite HN. apply Permutation_length.
    by rewrite (circular_Permutation c q). }
  split.
  { apply pass_exists; [done|]. fold s q c. lia. }
  intros fs w' Hpass.
  apply pass_prefix in Hpass; [|done|fold s q c; lia].
  fold s q c in Hpass. rewrite HN', take_ge in Hpass by lia. subst fs.
  split_and!; try done.
  - apply NoDup_filter. by rewrite circular_Permutation.
  - intros g. rewrite list_elem_of_filter, circular_elem_of.
    unfold eligible. tauto.
Qed.

(** ** The worker *)

Lemma isEmptyLine_blank (r : list string) : isEmptyLine r = true ↔ isBlank r.
Proof.
  unfold isEmptyLine, isBlank. induction r as [|x r IH]; simpl.
  - split; [constructor|done].
  - rewrite andb_true_iff, IH, bool_decide_eq_true, Forall_cons. done.
Qed.

Lemma dataRows_blank (r : list string) (rest : list (list string)) :
  isBlank r → dataRows (r :: rest) = dataRows rest.
Proof. intros H. unfold dataRows. by rewrite filter_cons_False by tauto. Qed.

Lemma dataRows_data (r : list string) (rest : list (list string)) :
  ¬ isBlank r → dataRows (r :: rest) = r :: dataRows rest.
Proof. intros H. unfold dataRows. by rewrite filter_cons_True. Qed.

Lemma dataRows_length (records : list (list string)) :
  (length (dataRows records) ≤ length records)%nat.
Proof. apply length_filter. Qed.

(** The read loop, exactly: it collects the chunk, or panics when a row of
    the chunk lacks its second field. *)
Lemma readFile_loop_spec (records : list (list string)) :
  ∀ (readLines temp : Z) (results : list (gmap string string)) (w : World),
  let chunk := take (Z.to_nat MAX_CHUNK_SIZE - length results)
                 (drop (Z.to_nat readLines) (dataRows records)) in
  isInt readLines → isInt temp → temp + len chunk <= maxInt →
  (length results ≤ Z.to_nat MAX_CHUNK_SIZE)%nat →
  readFile_loop records readLines temp results w =
  if decide (Forall wellFormedRow chunk)
  then Ok (results ++ (toRow <$> chunk), temp + len chunk) w
  else Panic "index out of range".
Proof.
  induction records as [|record rest IH]; intros readLines temp results w chunk
    HrI HtI Hsum Hres.
  - subst chunk. unfold dataRows. rewrite filter_nil, drop_nil, take_nil. simpl.
    unfold len. simpl. by rewrite app_nil_r, Z.add_0_r.
  - simpl. destruct (isEmptyLine record) eqn:Hblank.
    { apply isEmptyLine_blank in Hblank. subst chunk.
      rewrite (dataRows_blank _ _ Hblank) in *. by apply IH. }
    assert (Hdata : ¬ isBlank record).
    { intros H%isEmptyLine_blank. congruence. }
    subst chunk. rewrite (dataRows_data _ _ Hdata) in *.
    destruct (Z.ltb_spec 0 readLines) as [Hpos|Hnonpos].
    { assert (Hsub : intSub readLines 1 = readLines - 1).
      { apply intSub_exact. unfold isInt, minInt, maxInt in *. lia. }
      rewrite Hsub.
      replace (Z.to_nat readLines) with (S (Z.to_nat (readLines - 1))) in * by lia.
      simpl in *. apply IH; try done.
      unfold isInt, minInt, maxInt in *. lia. }
    replace (Z.to_nat readLines) with 0%nat in * by lia.
    rewrite drop_0 in *.
    destruct (Z.ltb_spec (len results) MAX_CHUNK_SIZE) as [Hroom|Hfull].
    2: { unfold len, MAX_CHUNK_SIZE in *.
         replace (Z.to_nat 3 - length results)%nat with 0%nat by lia.
         simpl. unfold len. simpl. by rewrite app_nil_r, Z.add_0_r. }
    unfold len, MAX_CHUNK_SIZE in Hroom.
    destruct (Z.to_nat MAX_CHUNK_SIZE - length results)%nat as [|m] eqn:Hm;
      [unfold MAX_CHUNK_SIZE in Hm; lia|].
    rewrite firstn_cons in *.
    unfold len in Hsum. rewrite length_cons in Hsum.
    destruct record as [|id [|name fields]].
    + destruct Hdata. constructor.
    + rewrite decide_False.
      * rewrite bind_unfold. simpl. by rewrite bind_unfold.
      * intros H. apply Forall_cons in H as [H _]. unfold wellFormedRow in H.
        simpl in H. lia.
    + assert (Hadd : intAdd temp 1 = temp + 1).
      { apply intAdd_exact. unfold isInt, minInt, maxInt in *. lia. }
      specialize (IH readLines (temp + 1) (results ++ [mkRow id name]) w).
      replace (Z.to_nat readLines) with 0%nat in IH by lia.
      rewrite drop_0, length_app in IH. simpl in IH.
      replace (Z.to_nat MAX_CHUNK_SIZE - (length results + 1))%nat with m in IH
        by lia.
      rewrite bind_unfold. simpl. rewrite bind_unfold. simpl.
      rewrite Hadd, IH.
      * destruct (decide (Forall wellFormedRow (take m (dataRows rest)))) as [Hw|Hw].
        -- rewrite decide_True.
           ++ rewrite <- app_assoc. unfold len. rewrite length_cons.
              change (toRow (id :: name :: fields)) with (mkRow id name).
              simpl. do 2 f_equal. lia.
           ++ constructor; [unfold wellFormedRow; simpl; lia|done].
        -- rewrite decide_False; [done|].
           intros H. apply Forall_cons in H as [_ H]. done.
      * done.
      * unfold isInt, minInt, maxInt in *. lia.
      * unfold len. lia.
      * unfold MAX_CHUNK_SIZE in *. lia.
Qed.

Lemma chunkOf_length (o : Z) (records : list (list string)) :
  (length (chunkOf o records) ≤ Z.to_nat MAX_CHUNK_SIZE)%nat.
Proof. unfold chunkOf. rewrite length_take. lia. Qed.

(** The new offset is an [int]: a positive offset plus the rows collected
    after it counts records of the file. *)
Lemma chunkOf_fits (o : Z) (records : list (list string)) :
  isInt o → len records <= maxInt →
  o + len (chunkOf o records) <= maxInt.
Proof.
  unfold isInt, len, chunkOf. intros Ho Hr.
  pose proof (dataRows_length records) as Hd.
  rewrite length_take, length_drop.
  unfold MAX_CHUNK_SIZE, minInt, maxInt in *. lia.
Qed.

Lemma appendRows_frame (sink : SinkResult) (chunk : list (gmap string string)) :
  ∀ (i : nat) (w : World),
  ∃ w', appendRows sink i chunk w = Ok tt w' ∧
    service w' = service w ∧ goroutines w' = goroutines w ∧
    scanLoopBlocked w' = scanLoopBlocked w ∧
    ((∀ j, sinkWriteErr sink j = None) →
       stdout w' = stdout w ∧
       resultFile w' = resultFile w ++ (lineOf <$> chunk)).
Proof.
  induction chunk as [|row rest IH]; intros i w.
  - exists w. simpl. split_and!; try done. intros _. by rewrite app_nil_r.
  - simpl. rewrite bind_unfold.
    destruct (sinkWriteErr sink i) as [e|] eqn:Herr.
    + rewrite bind_unfold. simpl.
      destruct (IH (S i) (set_stdout (stdout w ++
        ["Error writing to result file: " +:+ writeErr e +:+ nl])
        (set_resultFile (resultFile w ++ fragment (written e) (lineOf row)) w)))
        as (w' & -> & Hs & Hg & Hb & _).
      exists w'. split_and!; try done. intros H. rewrite H in Herr. done.
    + simpl. destruct (IH (S i) (set_resultFile (resultFile w ++ [lineOf row]) w))
        as (w' & -> & Hs & Hg & Hb & Hout).
      exists w'. split_and!; try done. intros H.
      destruct (Hout H) as [-> ->]. simpl. by rewrite <- app_assoc.
Qed.

Lemma appendToResultFile_frame (sink : SinkResult)
    (chunk : list (gmap string string)) (w : World) :
  ∃ w', appendToResultFile chunk sink w = Ok tt w' ∧
    service w' = service w ∧ goroutines w' = goroutines w ∧
    scanLoopBlocked w' = scanLoopBlocked w ∧
    (sinkOpenErr sink = None → (∀ j, sinkWriteErr sink j = None) →
       resultFile w' = resultFile w ++ (lineOf <$> chunk)).
Proof.
  unfold appendToResultFile. destruct (sinkOpenErr sink) as [err|].
  - eexists. split; [done|]. by split_and!.
  - destruct (appendRows_frame sink chunk 0%nat w) as (w' & Hw & Hs & Hg & Hb & Hout).
    rewrite bind_unfold, Hw. eexists. split; [done|]. simpl.
    split_and!; try done. intros _ H. by destruct (Hout H) as [_ ->].
Qed.

Lemma readFile_Opened (w : World) (wk : Worker) (records : list (list string))
    (stop : ReadStop) (sink : SinkResult) :
  let f := file wk in
  let o := offsetOf w f in
  let chunk := chunkOf o records in
  isInt o → len records <= maxInt →
  if decide (Forall wellFormedRow chunk)
  then ∃ w', readFile wk (Opened records stop) sink w = Ok tt w' ∧
         service w' = afterWorker w f (statusAfter (length chunk)) (o + len chunk) ∧
         goroutines w' = goroutines w ∧
         scanLoopBlocked w' = scanLoopBlocked w ∧
         (sinkOpenErr sink = None → (∀ j, sinkWriteErr sink j = None) →
            resultFile w' = resultFile w ++ (lineOf <$> (toRow <$> chunk)))
  else readFile wk (Opened records stop) sink w = Panic "index out of range".
Proof.
  intros f o chunk Ho Hfit.
  pose proof (chunkOf_fits o records Ho Hfit) as Hsum.
  pose proof (chunkOf_length o records) as Hlen.
  unfold readFile. rewrite bind_unfold. simpl. rewrite bind_unfold. simpl.
  rewrite bind_unfold. fold f. fold (offsetOf w f). fold o.
  set (w0 := set_stdout _ w).
  pose proof (readFile_loop_spec records o o [] w0) as Hloop.
  simpl in Hloop.
  change (take 3 (drop (Z.to_nat o) (dataRows records))) with chunk in Hloop.
  rewrite Hloop; [|done|done|done|lia].
  clear Hloop.
  destruct (decide (Forall wellFormedRow chunk)) as [Hwf|Hwf]; [|done].
  destruct (appendToResultFile_frame sink (toRow <$> chunk) w0)
    as (w1 & Happ & Hs1 & Hg1 & Hb1 & Hout).
  rewrite bind_unfold, Happ.
  assert (Hst1 : statusOf w1 f = statusOf w f) by (unfold statusOf; by rewrite Hs1).
  unfold len at 1. rewrite length_fmap. fold (len chunk).
  unfold afterWorker, statusAfter. fold (len chunk).
  destruct (Z.ltb_spec (len chunk) MAX_CHUNK_SIZE) as [Hk|Hk].
  - rewrite !bind_unfold.
    rewrite setFileStatus_applied by (intros [_ H]; done).
    simpl. eexists. split; [done|]. simpl.
    rewrite decide_False by (intros [_ H]; done).
    rewrite Hs1. split_and!; try done.
  - rewrite !bind_unfold.
    destruct (decide (statusOf w f = Completed ∧ NotRead ≠ Completed)) as [[Hc Hn]|Hn].
    + rewrite setFileStatus_rejected by (done || congruence).
      simpl. eexists. split; [done|]. simpl. rewrite Hs1. split_and!; try done.
    + rewrite setFileStatus_applied by (rewrite Hst1; done).
      simpl. eexists. split; [done|]. simpl. rewrite Hs1. split_and!; try done.
Qed.

(** ** The dispatch tick *)

Lemma processFiles_full (w : World) :
  maxThreads (service w) <= activeWorkers (service w) →
  processFiles w = Ok tt w.
Proof.
  intros H. unfold processFiles. rewrite bind_unfold. simpl.
  destruct (Z.leb_spec (maxThreads (service w)) (activeWorkers (service w)));
    [done|lia].
Qed.

Lemma processFiles_spare (w : World) :
  let s := service w in
  wfQueue s → activeWorkers s < maxThreads s →
  processFiles w =
  match list_find (eligible s)
          (circular (Z.to_nat (currentFileIndex s)) (filesQueue s)) with
  | Some (k, f) => Ok tt (dispatched w k f)
  | None => Ok tt w
  end.
Proof.
  intros s Hwf Hlt. unfold processFiles. rewrite bind_unfold. simpl. fold s.
  destruct (Z.leb_spec (maxThreads s) (activeWorkers s)); [lia|].
  rewrite bind_unfold, (pickNextFile_spec w Hwf). fold s.
  destruct (list_find _ _) as [[k f]|] eqn:Hfind; [|done].
  apply list_find_Some in Hfind as (Hk & He & _).
  assert (Hf : f ≠ "").
  { intros ->. apply (wf_names s Hwf), (circular_elem_of (Z.to_nat (currentFileIndex s))).
    by eapply list_elem_of_lookup_2. }
  rewrite bool_decide_eq_true_2 by done.
  rewrite bind_unfold. simpl. rewrite bind_unfold.
  rewrite setFileStatus_applied by (intros [H' _]; by apply He).
  simpl. done.
Qed.

(** ** The invariant *)

Lemma wfWorld_wfQueue (maxThr : Z) (w : World) :
  wfWorld maxThr w → wfQueue (service w).
Proof. intros [[] Hfit]. by split. Qed.

Lemma wfState_ext (maxThr : Z) (w w' : World) :
  service w' = service w → goroutines w' = goroutines w →
  wfState maxThr w → wfState maxThr w'.
Proof.
  intros Hs Hg []. split; unfold offsetOf, statusOf in *; rewrite ?Hs, ?Hg; done.
Qed.

Lemma wfWorld_init (maxThr : Z) : 0 <= maxThr → wfWorld maxThr (initWorld maxThr).
Proof.
  intros H. split.
  - split; simpl; try done; try (intros ? ?%elem_of_nil; done).
    + by right.
    + by apply not_elem_of_nil.
    + constructor.
    + intros f. split; [intros ?%elem_of_nil; done|].
      rewrite lookup_empty. by intros [? ?].
  - unfold queueFits, len, maxInt. simpl. lia.
Qed.

Lemma list_find_elem_of {A} (P : A → Prop) `{!∀ x, Decision (P x)}
    (l : list A) (k : nat) (x : A) :
  list_find P l = Some (k, x) → x ∈ l ∧ P x ∧ (k < length l)%nat.
Proof.
  intros (Hk & HP & _)%list_find_Some. split_and!; [|done|].
  - by eapply list_elem_of_lookup_2.
  - by eapply lookup_lt_Some.
Qed.

Lemma dispatched_wf (maxThr : Z) (w : World) (k : nat) (f : string) :
  maxThr <= maxInt → wfWorld maxThr w →
  activeWorkers (service w) < maxThreads (service w) →
  list_find (eligible (service w))
    (circular (Z.to_nat (currentFileIndex (service w)))
       (filesQueue (service w))) = Some (k, f) →
  wfWorld maxThr (dispatched w k f).
Proof.
  intros Hmax [Hwf Hfit] Hlt Hfind.
  apply list_find_elem_of in Hfind as (Hin & He & Hk).
  apply circular_elem_of in Hin. rewrite circular_length in Hk.
  destruct Hwf as [Hmt Hact Hceil Hlo Hhi Hnames Hnd Htr Hwk Hoff Hst Hev Hbuf].
  assert (Hadd : intAdd (activeWorkers (service w)) 1 = activeWorkers (service w) + 1).
  { apply intAdd_exact. unfold isInt, len, minInt, maxInt in *. lia. }
  split; [|done]. split; simpl; try done.
  - rewrite Hadd, Hact. unfold len. rewrite length_app. simpl. lia.
  - rewrite Hadd. lia.
  - lia.
  - left. unfold len. apply inj_lt, Nat.mod_upper_bound. lia.
  - intros g. destruct (decide (g = f)) as [->|Hne].
    + rewrite lookup_insert_eq. split; [by eexists|done].
    + rewrite lookup_insert_ne by done. apply Htr.
  - intros wk [Hwk'|Hwk']%elem_of_app; [by apply Hwk|].
    apply list_elem_of_singleton in Hwk'. by subst wk.
  - intros g. unfold offsetOf. simpl. destruct (decide (g = f)) as [->|Hne].
    + rewrite lockAt_insert_eq. simpl. apply Hoff.
    + rewrite lockAt_insert_ne by done. apply Hoff.
  - intros g Hg. unfold statusOf. simpl. destruct (decide (g = f)) as [->|Hne].
    + rewrite lockAt_insert_eq. simpl. right. left.
    + rewrite lockAt_insert_ne by done. by apply Hst.
Qed.

Lemma processFiles_preserves (maxThr : Z) (w w' : World) :
  maxThr <= maxInt → wfWorld maxThr w →
  processFiles w = Ok tt w' → wfWorld maxThr w'.
Proof.
  intros Hmax Hwf Hrun.
  destruct (Z.le_gt_cases (maxThreads (service w)) (activeWorkers (service w)))
    as [Hfull|Hspare].
  - rewrite processFiles_full in Hrun by done. by inversion Hrun; subst.
  - rewrite processFiles_spare in Hrun by (by eapply wfWorld_wfQueue || lia).
    destruct (list_find _ _) as [[k f]|] eqn:Hfind.
    + inversion Hrun; subst. by apply dispatched_wf.
    + by inversion Hrun; subst.
Qed.

Lemma handleNewFileEvent_preserves (maxThr : Z) (f : string) (w w' : World) :
  maxThr <= maxInt → wfWorld maxThr w →
  handleNewFileEvent f w = Ok tt w' → wfWorld maxThr w'.
Proof.
  intros Hmax Hwf. unfold handleNewFileEvent, isFileTracked.
  rewrite !bind_unfold. simpl.
  destruct (bool_decide _).
  - intros H. inversion H; subst. destruct Hwf as [Hwf Hfit].
    split; [|done]. by eapply wfState_ext; [| |exact Hwf].
  - rewrite bind_unfold. simpl. apply processFiles_preserves; [done|].
    destruct Hwf as [Hwf Hfit]. split; [|done].
    by eapply wfState_ext; [| |exact Hwf].
Qed.

Lemma Ext_nonempty (name : string) : Ext name = ".csv" → name ≠ "".
Proof. by intros H ->. Qed.

(** One entry of the listing keeps the invariant, whether the send of its
    event goes through or blocks. *)
Lemma checkForNewFiles_body_preserves (maxThr : Z) (f : DirEntry) (w : World) :
  wfState maxThr w →
  match checkForNewFiles_body f w with
  | Ok _ w' | Blocked w' =>
      wfState maxThr w' ∧
      (∀ g, offsetOf w g <= offsetOf w' g) ∧
      activeWorkers (service w') = activeWorkers (service w)
  | Panic _ => False
  end.
Proof.
  intros Hwf. unfold checkForNewFiles_body.
  destruct (IsDir f); [by split_and!|].
  destruct (bool_decide_reflect (Ext (Name f) = ".csv")) as [Hext|_];
    [|by split_and!].
  unfold isFileTracked. rewrite bind_unfold. simpl.
  destruct (bool_decide_reflect (is_Some (lock (service w) !! Name f)))
    as [_|Hnew]; [by split_and!|].
  simpl. repeat (rewrite bind_unfold; simpl). unfold chanSend. simpl.
  destruct Hwf as [Hmt Hact Hceil Hlo Hhi Hnames Hnd Htr Hwk Hoff Hst Hev Hbuf].
  assert (Hnotin : Name f ∉ filesQueue (service w)) by (by rewrite Htr).
  assert (Hlookup : lock (service w) !! Name f = None).
  { by apply eq_None_not_Some. }
  assert (Hcore : ∀ events,
    (∀ g, g ∈ events → g ∈ filesQueue (service w) ++ [Name f]) →
    len events <= newFilesEventCap →
    ∀ out blocked,
    wfState maxThr
      (mkWorld
         (set_newFilesEvent events
            (set_filesQueue (filesQueue (service w) ++ [Name f])
               (set_lock (<[Name f := mkFileLock NotRead 0]> (lock (service w)))
                  (service w))))
         out (resultFile w) (goroutines w) blocked)).
  { intros events Hevents Hlen out blocked. split; simpl; try done.
    - unfold len in *. rewrite length_app. simpl. lia.
    - rewrite elem_of_app, list_elem_of_singleton.
      intros [?|E]; [done|]. by apply (Ext_nonempty (Name f)).
    - apply NoDup_app. split_and!; [done| |apply NoDup_singleton].
      intros g Hg ->%list_elem_of_singleton. done.
    - intros g. rewrite elem_of_app, list_elem_of_singleton.
      destruct (decide (g = Name f)) as [->|Hne].
      + rewrite lookup_insert_eq. split; [by eexists|by right].
      + rewrite lookup_insert_ne by done. rewrite <- Htr. split; [|by left].
        by intros [?|?].
    - intros wk Hin. apply elem_of_app. left. by apply Hwk.
    - intros g. unfold offsetOf. simpl. destruct (decide (g = Name f)) as [->|Hne].
      + rewrite lockAt_insert_eq. simpl. unfold maxInt. lia.
      + rewrite lockAt_insert_ne by done. apply Hoff.
    - intros g Hg. unfold statusOf. simpl. destruct (decide (g = Name f)) as [->|Hne].
      + rewrite lockAt_insert_eq. simpl. left.
      + rewrite lockAt_insert_ne by done. apply Hst.
        apply elem_of_app in Hg as [?|?%list_elem_of_singleton]; done. }
  assert (Hmono : ∀ g, offsetOf w g <=
      ReadLinesNumber (lockAt (<[Name f := mkFileLock NotRead 0]> (lock (service w))) g)).
  { intros g. destruct (decide (g = Name f)) as [->|Hne].
    - rewrite lockAt_insert_eq. unfold offsetOf, lockAt. rewrite Hlookup. done.
    - rewrite lockAt_insert_ne by done. done. }
  destruct (Z.ltb_spec (len (newFilesEvent (service w))) newFilesEventCap) as [Hroom|Hfull].
  - simpl. split_and!; try done. apply Hcore.
    + intros g [Hg|Hg]%elem_of_app; apply elem_of_app; [left; by apply Hev|by right].
    + unfold len in *. rewrite length_app. simpl. lia.
  - simpl. split_and!; try done. apply Hcore; [|done].
    intros g Hg. apply elem_of_app. left. by apply Hev.
Qed.

Lemma checkForNewFiles_loop_preserves (maxThr : Z) (files : list DirEntry) :
  ∀ w, wfState maxThr w →
  match checkForNewFiles_loop files w with
  | Ok _ w' | Blocked w' =>
      wfState maxThr w' ∧
      (∀ g, offsetOf w g <= offsetOf w' g) ∧
      activeWorkers (service w') = activeWorkers (service w)
  | Panic _ => False
  end.
Proof.
  induction files as [|f rest IH]; intros w Hwf; simpl.
  - by split_and!.
  - rewrite bind_unfold.
    pose proof (checkForNewFiles_body_preserves maxThr f w Hwf) as Hbody.
    destruct (checkForNewFiles_body f w) as [[] w1|msg|w1]; [|done|done].
    destruct Hbody as (Hwf1 & Hmono1 & Hact1).
    specialize (IH w1 Hwf1).
    destruct (checkForNewFiles_loop rest w1) as [[] w2|msg|w2]; [|done|].
    + destruct IH as (Hwf2 & Hmono2 & Hact2). split_and!; [done| |congruence].
      intros g. specialize (Hmono1 g). specialize (Hmono2 g). lia.
    + destruct IH as (Hwf2 & Hmono2 & Hact2). split_and!; [done| |congruence].
      intros g. specialize (Hmono1 g). specialize (Hmono2 g). lia.
Qed.

Lemma checkForNewFiles_preserves (maxThr : Z) (dir : ReadDirResult) (w : World) :
  wfState maxThr w →
  match checkForNewFiles dir w with
  | Ok _ w' | Blocked w' =>
      wfState maxThr w' ∧
      (∀ g, offsetOf w g <= offsetOf w' g) ∧
      activeWorkers (service w') = activeWorkers (service w)
  | Panic _ => False
  end.
Proof.
  intros Hwf. destruct dir as [err|files]; simpl.
  - split_and!; try done. by eapply wfState_ext; [| |exact Hwf].
  - by apply checkForNewFiles_loop_preserves.
Qed.

Lemma dispatched_offsetOf (w : World) (k : nat) (f g : string) :
  offsetOf (dispatched w k f) g = offsetOf w g.
Proof.
  unfold offsetOf. simpl. destruct (decide (g = f)) as [->|Hne].
  - by rewrite lockAt_insert_eq.
  - by rewrite lockAt_insert_ne.
Qed.

Lemma processFiles_offsets (w w' : World) (g : string) :
  wfQueue (service w) → processFiles w = Ok tt w' →
  offsetOf w' g = offsetOf w g.
Proof.
  intros Hwf Hrun.
  destruct (Z.le_gt_cases (maxThreads (service w)) (activeWorkers (service w)))
    as [Hfull|Hspare].
  - rewrite processFiles_full in Hrun by done. by inversion Hrun; subst.
  - rewrite processFiles_spare in Hrun by (done || lia).
    destruct (list_find _ _) as [[k f]|] eqn:Hfind.
    + inversion Hrun; subst. apply dispatched_offsetOf.
    + by inversion Hrun; subst.
Qed.

Lemma readFile_OpenError (w : World) (wk : Worker) (err : string) (sink : SinkResult) :
  readFile wk (OpenError err) sink w =
  Ok tt (on_service (λ s, set_activeWorkers (intSub (activeWorkers s) 1) s)
           (set_stdout
              (stdout w ++ ["Start reading file " +:+ file wk +:+ nl] ++
                 ["Error opening file " +:+ file wk +:+ ": " +:+ err +:+ nl]) w)).
Proof.
  unfold readFile. repeat (rewrite bind_unfold; simpl).
  unfold set_stdout, on_service. simpl. by rewrite <- app_assoc.
Qed.

Lemma afterWorker_lockAt (w : World) (f : string) (st : FileStatus) (n : Z) (g : string) :
  lockAt (lock (afterWorker w f st n)) g =
  if decide (g = f ∧ ¬ (statusOf w f = Completed ∧ st ≠ Completed))
  then mkFileLock st n
  else lockAt (lock (service w)) g.
Proof.
  unfold afterWorker.
  destruct (decide (statusOf w f = Completed ∧ st ≠ Completed)) as [Hr|Hr]; simpl.
  - rewrite decide_False by tauto. done.
  - destruct (decide (g = f)) as [->|Hne].
    + rewrite decide_True by tauto. by rewrite lockAt_insert_eq.
    + rewrite decide_False by tauto. by rewrite lockAt_insert_ne.
Qed.

(** The run of one started worker keeps the invariant, lowers no offset
    and frees one slot. *)
Lemma startProcessing_preserves (maxThr : Z) (w : World)
    (pre post : list Worker) (wk : Worker)
    (opened : OpenResult) (sink : SinkResult) (w' : World) :
  maxThr <= maxInt →
  wfWorld maxThr w →
  goroutines w = pre ++ wk :: post →
  recordsFit opened →
  startProcessing wk opened sink (set_goroutines (pre ++ post) w) = Ok tt w' →
  wfWorld maxThr w' ∧
  (∀ g, offsetOf w g <= offsetOf w' g) ∧
  activeWorkers (service w') = activeWorkers (service w) - 1.
Proof.
  intros Hmax [Hwf Hfit] Hgo Hrec Hrun. unfold startProcessing in Hrun.
  destruct Hwf as [Hmt Hact Hceil Hlo Hhi Hnames Hnd Htr Hwk Hoff Hst Hev Hbuf].
  assert (Hlen : len (goroutines w) = len (pre ++ post) + 1).
  { rewrite Hgo. unfold len. rewrite !length_app. simpl. lia. }
  assert (Hsub : intSub (activeWorkers (service w)) 1 = activeWorkers (service w) - 1).
  { apply intSub_exact. unfold isInt, len, minInt, maxInt in *. lia. }
  assert (Hin : file wk ∈ filesQueue (service w)).
  { apply Hwk. rewrite Hgo. apply elem_of_app. right. left. }
  set (w0 := set_goroutines (pre ++ post) w) in *.
  destruct opened as [err|records stop].
  - rewrite readFile_OpenError in Hrun. inversion Hrun; subst w'. clear Hrun.
    simpl. rewrite Hsub. split_and!; try done.
    split; [|done]. split; simpl; try done; try lia.
    intros wk' Hwk'. apply Hwk. rewrite Hgo.
    apply elem_of_app in Hwk' as [?|?]; apply elem_of_app; [by left|right; by right].
  - simpl in Hrec.
    pose proof (readFile_Opened w0 wk records stop sink) as Hspec.
    simpl in Hspec. change (offsetOf w0 (file wk)) with (offsetOf w (file wk)) in Hspec.
    set (o := offsetOf w (file wk)) in *.
    assert (Ho : isInt o).
    { specialize (Hoff (file wk)). unfold isInt, minInt, maxInt in *. fold o in Hoff. lia. }
    specialize (Hspec Ho Hrec).
    pose proof (chunkOf_fits o records Ho Hrec) as Hsum.
    destruct (decide (Forall wellFormedRow (chunkOf o records))) as [Hrows|Hrows];
      [|congruence].
    destruct Hspec as (w1 & Hrun1 & Hs1 & Hg1 & _).
    rewrite Hrun in Hrun1. inversion Hrun1; subst w1. clear Hrun1.
    set (st := statusAfter (length (chunkOf o records))) in *.
    set (n := o + len (chunkOf o records)) in *.
    change (afterWorker w0 (file wk) st n) with (afterWorker w (file wk) st n) in Hs1.
    assert (Hn : 0 <= o <= n).
    { specialize (Hoff (file wk)). fold o in Hoff. unfold n, len. lia. }
    assert (Hlock : ∀ g, lockAt (lock (service w')) g =
      if decide (g = file wk ∧ ¬ (statusOf w (file wk) = Completed ∧ st ≠ Completed))
      then mkFileLock st n else lockAt (lock (service w)) g).
    { intros g. rewrite Hs1. apply afterWorker_lockAt. }
    assert (Hother : activeWorkers (service w') = activeWorkers (service w) - 1 ∧
      maxThreads (service w') = maxThreads (service w) ∧
      filesQueue (service w') = filesQueue (service w) ∧
      currentFileIndex (service w') = currentFileIndex (service w) ∧
      newFilesEvent (service w') = newFilesEvent (service w)).
    { rewrite Hs1. unfold afterWorker. simpl. rewrite Hsub.
      by destruct (decide _). }
    destruct Hother as (Haw & Hmt' & Hq' & Hc' & Hev').
    assert (Htracked : ∀ g, is_Some (lock (service w') !! g) ↔
                            is_Some (lock (service w) !! g)).
    { intros g. rewrite Hs1. unfold afterWorker.
      destruct (decide _); simpl; [done|].
      destruct (decide (g = file wk)) as [->|Hne].
      - rewrite lookup_insert_eq. split; [intros _; by apply Htr|by eexists].
      - by rewrite lookup_insert_ne. }
    split_and!; [|intros g; unfold offsetOf; rewrite Hlock|done].
    + split; [|by rewrite Hq'].
      split; rewrite ?Hmt', ?Haw, ?Hq', ?Hc', ?Hev', ?Hg1; simpl; try done; try lia.
      * intros g. by rewrite Htracked.
      * intros wk' Hwk'. apply Hwk. rewrite Hgo.
        apply elem_of_app in Hwk' as [?|?]; apply elem_of_app; [by left|right; by right].
      * intros g. unfold offsetOf. rewrite Hlock.
        destruct (decide _); simpl; [unfold n, maxInt in *; lia|apply Hoff].
      * intros g Hg. unfold statusOf. rewrite Hlock.
        destruct (decide _); simpl; [|by apply Hst].
        unfold st, statusAfter. destruct (_ <? _); [right; right; left|left].
    + destruct (decide _) as [[-> _]|_]; simpl; [apply Hn|done].
Qed.

Lemma handleNewFileEvent_offsets (f : string) (w w' : World) (g : string) :
  wfQueue (service w) → handleNewFileEvent f w = Ok tt w' →
  offsetOf w' g = offsetOf w g.
Proof.
  intros Hwf. unfold handleNewFileEvent, isFileTracked.
  rewrite !bind_unfold. simpl.
  destruct (bool_decide _).
  - intros H. by inversion H; subst.
  - rewrite bind_unfold. simpl. intros H.
    by rewrite (processFiles_offsets (set_stdout _ w) _ g Hwf H).
Qed.

Lemma step_preserves (maxThr : Z) (w w' : World) :
  maxThr <= maxInt → wfWorld maxThr w → step w w' →
  wfWorld maxThr w' ∧ ∀ g, offsetOf w g <= offsetOf w' g.
Proof.
  intros Hmax Hwf Hstep.
  destruct Hstep as [w dir w' _ Hrun Hfit'|w dir w' _ Hrun Hfit'
                    |w f rest w' _ Hev Hrun|w w' Hrun
                    |w pre wk post opened sink w' Hgo Hrec Hrun].
  - pose proof (checkForNewFiles_preserves maxThr dir w (proj1 Hwf)) as H.
    rewrite Hrun in H. destruct H as (H1 & H2 & _). by split.
  - pose proof (checkForNewFiles_preserves maxThr dir w (proj1 Hwf)) as H.
    rewrite Hrun in H. destruct H as (H1 & H2 & _). split; [|done].
    split; [|done]. by eapply wfState_ext; [| |exact H1].
  - assert (Hwf1 : wfWorld maxThr (on_service (set_newFilesEvent rest) w)).
    { destruct Hwf as [[Hmt Hact Hceil Hlo Hhi Hnames Hnd Htr Hwk Hoff Hst Hevs Hbuf] Hfit].
      split; [|done]. split; simpl; try done.
      - intros g Hg. apply Hevs. rewrite Hev. by right.
      - rewrite Hev in Hbuf. unfold len in *. simpl in *. lia. }
    split; [by eapply handleNewFileEvent_preserves|].
    intros g. rewrite (handleNewFileEvent_offsets _ _ _ g
      (wfWorld_wfQueue _ _ Hwf1) Hrun). done.
  - split; [by eapply processFiles_preserves|].
    intros g.
    by rewrite (processFiles_offsets _ _ g (wfWorld_wfQueue _ _ Hwf) Hrun).
  - destruct (startProcessing_preserves maxThr w pre post wk opened sink w')
      as (H1 & H2 & _); done.
Qed.

Lemma reachable_wf (maxThr : Z) (w : World) :
  0 <= maxThr <= maxInt → reachable maxThr w → wfWorld maxThr w.
Proof.
  intros [Hlo Hhi]. unfold reachable. revert w. apply rtc_ind_r.
  - by apply wfWorld_init.
  - intros w1 w2 _ Hstep IH. by apply (step_preserves maxThr w1 w2).
Qed.

(** C4. Start the service with a ceiling [maxThr] that is a non-negative
    [int]. In every world reachable by the steps (scan tick, new-file
    event, dispatch tick, run of a started worker to completion or open
    failure) the active-worker count is at most the ceiling, and it
    counts the started workers that have not finished. There, a dispatch
    tick returns: when the count has reached the ceiling it changes
    nothing at all; otherwise it leaves the count as it is or adds one to
    it, starting at most one worker. *)
Theorem activeWorkers_never_exceed_maxThreads (maxThr : Z) (w : World) :
  0 <= maxThr <= maxInt →
  reachable maxThr w →
  maxThreads (service w) = maxThr ∧
  activeWorkers (service w) = len (goroutines w) ∧
  activeWorkers (service w) <= maxThreads (service w) ∧
  (maxThreads (service w) <= activeWorkers (service w) →
     processFiles w = Ok tt w) ∧
  (activeWorkers (service w) < maxThreads (service w) →
     ∃ w', processFiles w = Ok tt w' ∧
       ((activeWorkers (service w') = activeWorkers (service w) ∧
         goroutines w' = goroutines w) ∨
        (activeWorkers (service w') = activeWorkers (service w) + 1 ∧
         ∃ f, goroutines w' = goroutines w ++ [NewWorker f])) ∧
       activeWorkers (service w') <= maxThreads (service w')).
Proof.
  intros Hmt Hreach.
  pose proof (reachable_wf maxThr w Hmt Hreach) as Hwf.
  pose proof Hwf as [[Hm Hact Hceil _ _ _ _ _ _ _ _ _ _] _].
  split_and!; try done; try lia.
  - apply processFiles_full.
  - intros Hspare.
    rewrite processFiles_spare by (by eapply wfWorld_wfQueue || done).
    destruct (list_find _ _) as [[k f]|] eqn:Hfind.
    + eexists. split; [done|]. simpl.
      rewrite intAdd_exact by (unfold isInt, len, minInt, maxInt in *; lia).
      split; [right; split; [done|by exists f]|lia].
    + eexists. split; [done|]. split; [by left|lia].
Qed.

(** ** A record with one field *)

(** C9, the code at the failing input. A file whose only record has one
    field, read at offset 0, makes the worker index past the end of the
    record: [readFile] panics instead of skipping the row. *)
Theorem one_field_row_panics :
  offsetOf oneFileReading "a.csv" = 0 ∧
  readFile (mkWorker "a.csv") (Opened [["x"]] EOF) sinkOk oneFileReading =
    Panic "index out of range".
Proof. split; by vm_compute. Qed.

(** ** Blank rows *)

Lemma readFile_loop_dataRows (records : list (list string)) :
  ∀ readLines temp results w,
  readFile_loop records readLines temp results w =
  readFile_loop (dataRows records) readLines temp results w.
Proof.
  induction records as [|record rest IH]; intros readLines temp results w; [done|].
  destruct (isEmptyLine record) eqn:Hblank.
  - pose proof (proj1 (isEmptyLine_blank record) Hblank) as Hb.
    rewrite (dataRows_blank _ _ Hb). simpl. rewrite Hblank. apply IH.
  - assert (Hdata : ¬ isBlank record).
    { intros H%isEmptyLine_blank. congruence. }
    rewrite (dataRows_data _ _ Hdata). simpl. rewrite Hblank.
    destruct (0 <? readLines); [apply IH|].
    destruct (len results <? MAX_CHUNK_SIZE); [|done].
    rewrite !bind_unfold. destruct (sliceIndex record 0 w); try done.
    rewrite !bind_unfold. destruct (sliceIndex record 1 w0); try done.
Qed.

(** C10. Blank records (every field empty) are invisible to a worker: it
    does with a file exactly what it does with the file's non-blank
    records alone, so a blank record uses up neither a row to skip nor a
    place in the chunk. On a file of blank records only, the worker
    collects nothing, writes nothing to the result file and sets the file
    Completed at its saved offset: at offset 0 on the first dispatch. *)
Theorem blank_rows_are_skipped
    (w : World) (wk : Worker) (records : list (list string))
    (stop : ReadStop) (sink : SinkResult) :
  readFile wk (Opened records stop) sink w =
    readFile wk (Opened (dataRows records) stop) sink w ∧
  (Forall isBlank records →
   ∃ w', readFile wk (Opened records stop) sink w = Ok tt w' ∧
     statusOf w' (file wk) = Completed ∧
     offsetOf w' (file wk) = offsetOf w (file wk) ∧
     (offsetOf w (file wk) = 0 → offsetOf w' (file wk) = 0) ∧
     resultFile w' = resultFile w ∧
     activeWorkers (service w') = intSub (activeWorkers (service w)) 1).
Proof.
  split.
  - unfold readFile. rewrite !bind_unfold. simpl. rewrite !bind_unfold. simpl.
    rewrite !bind_unfold. by rewrite readFile_loop_dataRows.
  - intros Hall.
    assert (Hnone : dataRows records = []).
    { unfold dataRows. induction Hall as [|r rest Hr _ IH]; [done|].
      by rewrite filter_cons_False by tauto. }
    unfold readFile. rewrite bind_unfold. simpl. rewrite bind_unfold. simpl.
    rewrite bind_unfold, readFile_loop_dataRows, Hnone.
    set (w0 := set_stdout _ w).
    destruct (appendToResultFile_frame sink [] w0)
      as (w1 & Happ & Hs1 & Hg1 & Hb1 & _).
    assert (Hres : resultFile w1 = resultFile w).
    { unfold appendToResultFile in Happ. destruct (sinkOpenErr sink).
      - by inversion Happ; subst.
      - rewrite bind_unfold in Happ. simpl in Happ. by inversion Happ; subst. }
    change (readFile_loop [] ?a ?b [] w0) with (Ok (@nil (gmap string string), b) w0).
    cbv beta iota. rewrite bind_unfold, Happ.
    change (len (@nil (gmap string string)) <? MAX_CHUNK_SIZE) with true.
    cbv beta iota. rewrite !bind_unfold.
    rewrite setFileStatus_applied by (intros [_ H]; done). simpl.
    eexists. split; [done|]. unfold statusOf, offsetOf. simpl.
    rewrite lockAt_insert_eq, Hs1. simpl. split_and!; try done.
Qed.

(** ** Double dispatch *)

Lemma oneFileReading_reachable : reachable MAX_THREADS_COUNT oneFileReading.
Proof.
  unfold reachable.
  eapply rtc_l.
  { apply (step_scan _ (DirEntries [mkDirEntry "a.csv" false]) oneFileTracked);
      [done|by vm_compute|by vm_compute]. }
  eapply rtc_l; [|apply rtc_refl].
  apply step_dispatch. by vm_compute.
Qed.

Lemma pickNextFile_some_if_eligible (w : World) (f : string) :
  wfQueue (service w) → f ∈ filesQueue (service w) →
  statusOf w f ≠ Completed →
  ∃ g w', pickNextFile w = Ok g w' ∧ g ≠ "" ∧ g ∈ filesQueue (service w) ∧
          statusOf w g ≠ Completed.
Proof.
  intros Hwf Hin He. rewrite (pickNextFile_spec w Hwf).
  destruct (list_find _ _) as [[k g]|] eqn:Hfind.
  - apply list_find_elem_of in Hfind as (Hg & Heg & _).
    apply circular_elem_of in Hg. eexists _, _. split; [done|].
    split_and!; try done. intros ->. by apply (wf_names _ Hwf).
  - apply list_find_None in Hfind. rewrite Forall_forall in Hfind.
    destruct (Hfind f); [by apply circular_elem_of|done].
Qed.

(** C8. The only test of [pickNextFile] is that the status is not
    Completed, so a file in status Reading is eligible: on a well-formed
    service with a queued file in status Reading, [pickNextFile] returns a
    file, never none. And the double dispatch happens: after a scan tick
    that finds [a.csv] and a dispatch tick, the world is reachable, the
    file is Reading with one worker started and not finished, one of four
    slots is taken; the next dispatch tick picks [a.csv] again and starts
    a second worker on it, at the same saved offset: the files of the
    started workers are then [a.csv] twice. *)
Theorem reading_file_is_dispatched_again :
  (∀ w f, wfQueue (service w) → f ∈ filesQueue (service w) →
     statusOf w f = Reading →
     ∃ g w', pickNextFile w = Ok g w' ∧ g ≠ "" ∧ statusOf w g ≠ Completed) ∧
  reachable MAX_THREADS_COUNT oneFileReading ∧
  filesQueue (service oneFileReading) = ["a.csv"] ∧
  statusOf oneFileReading "a.csv" = Reading ∧
  goroutines oneFileReading = [NewWorker "a.csv"] ∧
  file <$> goroutines oneFileReading = ["a.csv"] ∧
  activeWorkers (service oneFileReading) = 1 ∧
  maxThreads (service oneFileReading) = 4 ∧
  (∃ w', pickNextFile oneFileReading = Ok "a.csv" w') ∧
  processFiles oneFileReading = Ok tt oneFileTwice ∧
  reachable MAX_THREADS_COUNT oneFileTwice ∧
  goroutines oneFileTwice = [NewWorker "a.csv"; NewWorker "a.csv"] ∧
  file <$> goroutines oneFileTwice = ["a.csv"; "a.csv"] ∧
  activeWorkers (service oneFileTwice) = 2 ∧
  statusOf oneFileTwice "a.csv" = Reading ∧
  offsetOf oneFileTwice "a.csv" = offsetOf oneFileReading "a.csv" ∧
  offsetOf oneFileTwice "a.csv" = 0.
Proof.
  assert (Hpick : processFiles oneFileReading = Ok tt oneFileTwice)
    by (vm_compute; reflexivity).
  split_and!.
  - intros w f Hwf Hin Hst.
    destruct (pickNextFile_some_if_eligible w f Hwf Hin) as (g & w' & H1 & H2 & _ & H3).
    { rewrite Hst. done. }
    by exists g, w'.
  - apply oneFileReading_reachable.
  - vm_compute; reflexivity.
  - vm_compute; reflexivity.
  - vm_compute; reflexivity.
  - vm_compute; reflexivity.
  - vm_compute; reflexivity.
  - vm_compute; reflexivity.
  - eexists. vm_compute. reflexivity.
  - exact Hpick.
  - unfold reachable. eapply rtc_r; [apply oneFileReading_reachable|].
    by apply step_dispatch.
  - vm_compute; reflexivity.
  - vm_compute; reflexivity.
  - vm_compute; reflexivity.
  - vm_compute; reflexivity.
  - vm_compute; reflexivity.
  - vm_compute; reflexivity.
Qed.

(** ** Dispatch after dispatch on one file *)

Lemma idleSingle_wfQueue (f : string) (w : World) :
  idleSingle f w → wfQueue (service w).
Proof.
  intros [Hq Hf Hc _ _ _]. split; rewrite ?Hq, ?Hc; try done.
  - by right.
  - intros H%list_elem_of_singleton. by subst f.
Qed.

Lemma statusAfter_cases (k : nat) :
  (k ≤ Z.to_nat MAX_CHUNK_SIZE)%nat →
  (k < 3 ∧ statusAfter k = Completed)%nat ∨ (k = 3%nat ∧ statusAfter k = NotRead).
Proof.
  unfold statusAfter, MAX_CHUNK_SIZE. intros Hk.
  destruct (Z.ltb_spec (Z.of_nat k) 3); [left|right]; split; try done; lia.
Qed.

(** On a world with the single file [f], idle and not Completed, a
    dispatch tick followed by the run of its worker leaves the world idle
    again, with the status and the offset the worker asked for. *)
Lemma dispatchAndRun_single (env : Env) (f : string) (w : World)
    (records : list (list string)) (stop : ReadStop) (sink : SinkResult) :
  let o := offsetOf w f in
  let chunk := chunkOf o records in
  idleSingle f w → statusOf w f ≠ Completed →
  env f = (Opened records stop, sink) →
  isInt o → len records <= maxInt → Forall wellFormedRow chunk →
  ∃ w', dispatchAndRun env w = Ok tt w' ∧ idleSingle f w' ∧
        statusOf w' f = statusAfter (length chunk) ∧
        offsetOf w' f = o + len chunk.
Proof.
  intros o chunk Hidle Hst Henv Ho Hfit Hrows.
  pose proof (idleSingle_wfQueue f w Hidle) as Hwf.
  destruct Hidle as [Hq Hf Hc Hact Hcap Hgo].
  unfold dispatchAndRun. rewrite bind_unfold.
  rewrite processFiles_spare by (done || lia).
  rewrite Hq, Hc. simpl.
  rewrite decide_True by done. simpl.
  unfold runStarted. simpl. rewrite Hgo. simpl.
  rewrite Hgo. simpl. rewrite bind_unfold. unfold startProcessing. simpl. rewrite Henv. simpl.
  set (w0 := set_goroutines [] (dispatched w 0 f)).
  pose proof (readFile_Opened w0 (NewWorker f) records stop sink) as Hspec.
  simpl in Hspec.
  assert (Ho0 : offsetOf w0 f = o) by apply dispatched_offsetOf.
  rewrite Ho0 in Hspec. specialize (Hspec Ho Hfit). fold chunk in Hspec.
  rewrite decide_True in Hspec by done.
  destruct Hspec as (w' & -> & Hs & Hg & Hb & _).
  exists w'. split; [done|].
  assert (Hst0 : statusOf w0 f = Reading).
  { unfold statusOf. simpl. by rewrite lockAt_insert_eq. }
  unfold afterWorker in Hs. rewrite Hst0 in Hs.
  rewrite decide_False in Hs by (intros [H _]; done).
  simpl in Hs. rewrite Hq, Hc, Hact in Hs. simpl in Hs.
  unfold statusOf, offsetOf. rewrite Hs. simpl.
  rewrite lockAt_insert_eq. simpl. split_and!; try done.
  split; rewrite ?Hs, ?Hg; simpl; try done.
Qed.

Lemma chunkOf_wellFormed (o : Z) (records : list (list string)) :
  Forall wellFormedRow (dataRows records) →
  Forall wellFormedRow (chunkOf o records).
Proof. intros H. unfold chunkOf. by apply Forall_take, Forall_drop. Qed.

Lemma chunkOf_count (o : Z) (records : list (list string)) :
  0 <= o →
  len (chunkOf o records) = Z.min MAX_CHUNK_SIZE (Z.max 0 (len (dataRows records) - o)).
Proof.
  intros Ho. unfold chunkOf, len, MAX_CHUNK_SIZE.
  rewrite length_take, length_drop. lia.
Qed.

Lemma dispatchAndRun_count (env : Env) (f : string) (w : World)
    (records : list (list string)) (stop : ReadStop) (sink : SinkResult)
    (o n : Z) :
  idleSingle f w → statusOf w f ≠ Completed →
  env f = (Opened records stop, sink) →
  offsetOf w f = o → 0 <= o <= maxInt → len records <= maxInt →
  Forall wellFormedRow (dataRows records) →
  len (dataRows records) = n →
  ∃ w', dispatchAndRun env w = Ok tt w' ∧ idleSingle f w' ∧
        offsetOf w' f = o + Z.min MAX_CHUNK_SIZE (Z.max 0 (n - o)) ∧
        statusOf w' f =
          if Z.min MAX_CHUNK_SIZE (Z.max 0 (n - o)) <? MAX_CHUNK_SIZE
          then Completed else NotRead.
Proof.
  intros Hidle Hst Henv Ho Hrange Hfit Hrows Hn.
  destruct (dispatchAndRun_single env f w records stop sink)
    as (w' & Hrun & Hidle' & Hst' & Ho'); try done.
  - rewrite Ho. unfold isInt, minInt, maxInt in *. lia.
  - by apply chunkOf_wellFormed.
  - exists w'. rewrite Ho in *. split_and!; try done.
    + by rewrite Ho', chunkOf_count, Hn by lia.
    + rewrite Hst'. unfold statusAfter.
      fold (len (chunkOf o records)). by rewrite chunkOf_count, Hn by lia.
Qed.

(** C2. Let a worker run on file [f] at saved offset [o], on a file of
    fewer records than an [int] counts whose non-blank records have their
    two fields. It collects the chunk: the first at most three non-blank
    records after the first [o] non-blank ones, [k] of them. It appends
    them to the result file and asks [setFileStatus] for Completed with
    offset [o + k] when [k < 3], for NotRead with offset [o + k] when
    [k = 3]; the table then holds that pair (unless the file was
    Completed already and the request is NotRead, which is refused).
    Hence, on a world whose single file is idle at offset 0: a file of 7
    non-blank records goes NotRead/3, NotRead/6, Completed/7 in three
    dispatches; a file of 6 goes NotRead/3, NotRead/6 and needs a third
    dispatch, which collects nothing, to become Completed at 6. *)
Theorem worker_collects_chunk_and_sets_status
    (env : Env) (f : string) (w : World)
    (records : list (list string)) (stop : ReadStop) (sink : SinkResult) :
  let o := offsetOf w f in
  let chunk := chunkOf o records in
  let k := len chunk in
  env f = (Opened records stop, sink) →
  isInt o → len records <= maxInt →
  Forall wellFormedRow (dataRows records) →
  (chunk = take 3 (drop (Z.to_nat o) (dataRows records)) ∧
   0 <= k <= MAX_CHUNK_SIZE ∧
   ∃ w', readFile (NewWorker f) (Opened records stop) sink w = Ok tt w' ∧
     service w' = afterWorker w f (statusAfter (length chunk)) (o + k) ∧
     (k < 3 → statusOf w' f = Completed ∧ offsetOf w' f = o + k) ∧
     (k = 3 → statusOf w f ≠ Completed →
        statusOf w' f = NotRead ∧ offsetOf w' f = o + k) ∧
     (k = 3 → statusOf w f = Completed →
        statusOf w' f = Completed ∧ offsetOf w' f = o) ∧
     (sinkOpenErr sink = None → (∀ j, sinkWriteErr sink j = None) →
        resultFile w' = resultFile w ++ (lineOf <$> (toRow <$> chunk))) ∧
     activeWorkers (service w') = intSub (activeWorkers (service w)) 1) ∧
  (idleSingle f w → statusOf w f ≠ Completed → o = 0 →
   len (dataRows records) = 7 →
   dispatchesGive env f w [(NotRead, 3); (NotRead, 6); (Completed, 7)]) ∧
  (idleSingle f w → statusOf w f ≠ Completed → o = 0 →
   len (dataRows records) = 6 →
   dispatchesGive env f w [(NotRead, 3); (NotRead, 6); (Completed, 6)]).
Proof.
  intros o chunk k Henv Ho Hfit Hrows. split_and!.
  - done.
  - unfold k, len. lia.
  - pose proof (chunkOf_length o records) as Hlen. fold chunk in Hlen.
    unfold k, len, MAX_CHUNK_SIZE in *. lia.
  - pose proof (readFile_Opened w (NewWorker f) records stop sink) as Hspec.
    simpl in Hspec. specialize (Hspec Ho Hfit). fold o chunk in Hspec.
    rewrite decide_True in Hspec by (by apply chunkOf_wellFormed).
    destruct Hspec as (w' & Hrun & Hs & Hg & Hb & Hout).
    exists w'. split; [done|]. fold k in Hs.
    pose proof (afterWorker_lockAt w f (statusAfter (length chunk)) (o + k) f) as Hl.
    rewrite <- Hs in Hl.
    assert (HS : statusOf w' f = Status (lockAt (lock (service w')) f)) by done.
    assert (HO : offsetOf w' f = ReadLinesNumber (lockAt (lock (service w')) f))
      by done.
    rewrite HS, HO, Hl. clear HS HO Hl.
    unfold statusAfter, MAX_CHUNK_SIZE.
    change (Z.of_nat (length chunk)) with k.
    split_and!; try done.
    + intros Hk. destruct (Z.ltb_spec k 3); [|lia].
      by rewrite decide_True by (split; [done|intros [_ H']; done]).
    + intros Hk Hst. destruct (Z.ltb_spec k 3); [lia|].
      by rewrite decide_True by (split; [done|intros [H' _]; done]).
    + intros Hk Hst. destruct (Z.ltb_spec k 3); [lia|].
      rewrite decide_False by (intros [_ H']; apply H'; done).
      done.
    + rewrite Hs. unfold afterWorker.
      by destruct (decide (statusOf w f = Completed ∧ _)).
  - intros Hidle Hst Ho0 Hn. fold o in Ho0.
    assert (Hr0 : 0 <= 0 <= maxInt) by (unfold maxInt; lia).
    assert (Hr3 : 0 <= 3 <= maxInt) by (unfold maxInt; lia).
    assert (Hr6 : 0 <= 6 <= maxInt) by (unfold maxInt; lia).
    destruct (dispatchAndRun_count env f w records stop sink 0 7
                Hidle Hst Henv Ho0 Hr0 Hfit Hrows Hn)
      as (w1 & Hrun1 & Hidle1 & Ho1 & Hst1).
    assert (Hne1 : statusOf w1 f ≠ Completed) by (by rewrite Hst1).
    destruct (dispatchAndRun_count env f w1 records stop sink 3 7
                Hidle1 Hne1 Henv Ho1 Hr3 Hfit Hrows Hn)
      as (w2 & Hrun2 & Hidle2 & Ho2 & Hst2).
    assert (Hne2 : statusOf w2 f ≠ Completed) by (by rewrite Hst2).
    destruct (dispatchAndRun_count env f w2 records stop sink 6 7
                Hidle2 Hne2 Henv Ho2 Hr6 Hfit Hrows Hn)
      as (w3 & Hrun3 & Hidle3 & Ho3 & Hst3).
    simpl. exists w1. split_and!; try done.
    exists w2. split_and!; try done.
    exists w3. split_and!; try done.
  - intros Hidle Hst Ho0 Hn. fold o in Ho0.
    assert (Hr0 : 0 <= 0 <= maxInt) by (unfold maxInt; lia).
    assert (Hr3 : 0 <= 3 <= maxInt) by (unfold maxInt; lia).
    assert (Hr6 : 0 <= 6 <= maxInt) by (unfold maxInt; lia).
    destruct (dispatchAndRun_count env f w records stop sink 0 6
                Hidle Hst Henv Ho0 Hr0 Hfit Hrows Hn)
      as (w1 & Hrun1 & Hidle1 & Ho1 & Hst1).
    assert (Hne1 : statusOf w1 f ≠ Completed) by (by rewrite Hst1).
    destruct (dispatchAndRun_count env f w1 records stop sink 3 6
                Hidle1 Hne1 Henv Ho1 Hr3 Hfit Hrows Hn)
      as (w2 & Hrun2 & Hidle2 & Ho2 & Hst2).
    assert (Hne2 : statusOf w2 f ≠ Completed) by (by rewrite Hst2).
    destruct (dispatchAndRun_count env f w2 records stop sink 6 6
                Hidle2 Hne2 Henv Ho2 Hr6 Hfit Hrows Hn)
      as (w3 & Hrun3 & Hidle3 & Ho3 & Hst3).
    simpl. exists w1. split_and!; try done.
    exists w2. split_and!; try done.
    exists w3. split_and!; try done.
Qed.

(** ** The statements at concrete inputs *)

Lemma threeFiles_wfQueue : wfQueue (service threeFiles).
Proof.
  split.
  - by vm_compute.
  - left. by vm_compute.
  - by vm_compute.
  - simpl. intros H. repeat (apply elem_of_cons in H as [H|H]; [discriminate H|]).
    by apply elem_of_nil in H.
Defined.

Lemma oneFileTracked_idle : idleSingle "a.csv" oneFileTracked.
Proof. split; by vm_compute. Defined.

Lemma pickNextFile_first_eligible_circular_witness :
  wfQueue (service threeFiles) ∧
  ∃ w', pickNextFile threeFiles = Ok "c.csv" w' ∧
        currentFileIndex (service threeFiles) = 1 ∧
        currentFileIndex (service w') = 0 ∧
        filesQueue (service w') = ["a.csv"; "b.csv"; "c.csv"] ∧
        lock (service w') = lock (service threeFiles).
Proof.
  split; [exact threeFiles_wfQueue|].
  destruct (pickNextFile_first_eligible_circular threeFiles threeFiles_wfQueue)
    as (f & w' & Hpick & _ & _ & Hsome).
  assert (Hf : f = "c.csv").
  { destruct (pickNextFile threeFiles) as [g w0|msg|w0] eqn:Hrun;
      vm_compute in Hrun; try discriminate Hrun.
    injection Hrun as <- _. by injection Hpick as <- _. }
  subst f. exists w'. split; [done|]. split; [done|].
  destruct Hsome as (k & Hk & Hat & _ & _ & _ & Hcur & Hq & Hl & _); [done|].
  split_and!; [|done|done].
  rewrite Hcur.
  destruct k as [|[|[|k]]]; [| |exfalso|exfalso].
  - vm_compute in Hat. discriminate Hat.
  - done.
  - vm_compute in Hat. discriminate Hat.
  - simpl in Hk. lia.
Defined.

Lemma pass_returns_each_eligible_once_witness :
  (wfQueue (service threeFiles) ∧
   NoDup (filesQueue (service threeFiles)) ∧
   2%nat = length (filter (eligible (service threeFiles))
                     (filesQueue (service threeFiles)))) ∧
  (∃ fs w', pass 2 threeFiles fs w') ∧
  ∀ fs w', pass 2 threeFiles fs w' → fs = ["c.csv"; "a.csv"].
Proof.
  assert (Hnd : NoDup (filesQueue (service threeFiles))).
  { simpl. apply (bool_decide_unpack _). by vm_compute. }
  assert (HN : 2%nat = length (filter (eligible (service threeFiles))
                                 (filesQueue (service threeFiles)))).
  { vm_compute. reflexivity. }
  split; [split_and!; [exact threeFiles_wfQueue|exact Hnd|exact HN]|].
  destruct (pass_returns_each_eligible_once 2 threeFiles threeFiles_wfQueue Hnd HN)
    as [Hex Hall].
  split; [exact Hex|].
  intros fs w' Hpass. destruct (Hall fs w' Hpass) as [-> _]. by vm_compute.
Defined.

Lemma activeWorkers_never_exceed_maxThreads_witness :
  (0 <= MAX_THREADS_COUNT <= maxInt ∧
   reachable MAX_THREADS_COUNT oneFileReading) ∧
  activeWorkers (service oneFileReading) <= maxThreads (service oneFileReading).
Proof.
  assert (Hmt : 0 <= MAX_THREADS_COUNT <= maxInt) by (by vm_compute).
  split; [split; [exact Hmt|exact oneFileReading_reachable]|].
  by destruct (activeWorkers_never_exceed_maxThreads MAX_THREADS_COUNT
                 oneFileReading Hmt oneFileReading_reachable)
    as (_ & _ & H & _).
Defined.

Lemma worker_collects_chunk_and_sets_status_witness :
  (isInt (offsetOf oneFileTracked "a.csv") ∧
   len sevenRows <= maxInt ∧ len sixRows <= maxInt ∧
   Forall wellFormedRow (dataRows sevenRows) ∧
   Forall wellFormedRow (dataRows sixRows) ∧
   idleSingle "a.csv" oneFileTracked ∧
   statusOf oneFileTracked "a.csv" ≠ Completed ∧
   len (dataRows sevenRows) = 7 ∧ len (dataRows sixRows) = 6) ∧
  dispatchesGive sevenRowsEnv "a.csv" oneFileTracked
    [(NotRead, 3); (NotRead, 6); (Completed, 7)] ∧
  dispatchesGive sixRowsEnv "a.csv" oneFileTracked
    [(NotRead, 3); (NotRead, 6); (Completed, 6)].
Proof.
  assert (Ho : isInt (offsetOf oneFileTracked "a.csv")) by (by vm_compute).
  assert (H7 : len sevenRows <= maxInt) by (by vm_compute).
  assert (H6 : len sixRows <= maxInt) by (by vm_compute).
  assert (Hw7 : Forall wellFormedRow (dataRows sevenRows)).
  { apply (bool_decide_unpack _). by vm_compute. }
  assert (Hw6 : Forall wellFormedRow (dataRows sixRows)).
  { apply (bool_decide_unpack _). by vm_compute. }
  assert (Hst : statusOf oneFileTracked "a.csv" ≠ Completed) by (by vm_compute).
  assert (Hn7 : len (dataRows sevenRows) = 7) by (by vm_compute).
  assert (Hn6 : len (dataRows sixRows) = 6) by (by vm_compute).
  split; [split_and!; try done; exact oneFileTracked_idle|].
  split.
  - destruct (worker_collects_chunk_and_sets_status sevenRowsEnv "a.csv"
                oneFileTracked sevenRows EOF sinkOk eq_refl Ho H7 Hw7)
      as (_ & HA & _).
    by apply HA; [exact oneFileTracked_idle| | |].
  - destruct (worker_collects_chunk_and_sets_status sixRowsEnv "a.csv"
                oneFileTracked sixRows EOF sinkOk eq_refl Ho H6 Hw6)
      as (_ & _ & HB).
    by apply HB; [exact oneFileTracked_idle| | |].
Defined.

(** ** The directory scanner, exactly *)

Lemma scanned_nil (w : World) : scanned w [] [] = w.
Proof.
  destruct w as [[] ? ? ? ?]. unfold scanned, registerAll. simpl.
  by rewrite !app_nil_r.
Qed.

Lemma scanned_cons (w : World) (n : string) (queued sent : list string) :
  scanned (scanned w [n] [n]) queued sent = scanned w (n :: queued) (n :: sent).
Proof.
  unfold scanned, registerAll. simpl. by rewrite <- !app_assoc.
Qed.

Lemma scanned_cons_blocked (w : World) (n : string) (queued : list string) :
  scanned (scanned w [n] []) queued [] = scanned w (n :: queued) [].
Proof.
  unfold scanned, registerAll. simpl. by rewrite <- !app_assoc, !app_nil_r.
Qed.

(** One entry of the listing. *)
Lemma checkForNewFiles_body_exact (e : DirEntry) (w : World) :
  checkForNewFiles_body e w =
  match registered (lock (service w)) [e] with
  | [] => Ok tt w
  | n :: _ =>
      if len (newFilesEvent (service w)) <? newFilesEventCap
      then Ok tt (scanned w [n] [n])
      else Blocked (scanned w [n] [])
  end.
Proof.
  unfold checkForNewFiles_body. simpl. destruct (IsDir e); [done|].
  destruct (decide (Ext (Name e) = ".csv" ∧ lock (service w) !! Name e = None))
    as [[Hext Hnew]|Hno].
  - rewrite bool_decide_eq_true_2 by done.
    unfold isFileTracked. rewrite bind_unfold. simpl.
    rewrite bool_decide_eq_false_2 by (rewrite Hnew; by intros [? ?]).
    simpl. repeat (rewrite bind_unfold; simpl). unfold chanSend. simpl.
    destruct (_ <? _); unfold scanned, registerAll; simpl; try done.
    by rewrite !app_nil_r.
  - destruct (bool_decide_reflect (Ext (Name e) = ".csv")) as [Hext|_]; [|done].
    unfold isFileTracked. rewrite bind_unfold. simpl.
    rewrite bool_decide_eq_true_2; [done|].
    destruct (lock (service w) !! Name e) eqn:E; [by eexists|]. tauto.
Qed.

(** The scan loop, exactly: it returns when the events of all the names it
    registers fit in the buffer, and otherwise blocks on the first event
    that does not fit, its name registered and queued already. *)
Lemma checkForNewFiles_loop_exact (files : list DirEntry) :
  ∀ w,
  let names := registered (lock (service w)) files in
  checkForNewFiles_loop files w =
  if decide (length names ≤ freeSlots w)%nat
  then Ok tt (scanned w names names)
  else Blocked (scanned w (take (S (freeSlots w)) names)
                  (take (freeSlots w) names)).
Proof.
  induction files as [|e rest IH]; intros w names.
  - subst names. simpl. by rewrite scanned_nil.
  - simpl. rewrite bind_unfold, checkForNewFiles_body_exact.
    subst names. simpl. destruct (IsDir e); [apply IH|].
    destruct (decide (Ext (Name e) = ".csv" ∧ lock (service w) !! Name e = None))
      as [Hnew|Hno]; [|apply IH].
    destruct (Z.ltb_spec (len (newFilesEvent (service w))) newFilesEventCap)
      as [Hroom|Hfull].
    + rewrite IH. simpl.
      assert (Hfree : freeSlots w = S (freeSlots (scanned w [Name e] [Name e]))).
      { unfold freeSlots, len in *. simpl. rewrite length_app. simpl. lia. }
      rewrite Hfree.
      set (names := registered _ rest).
      destruct (decide (length names ≤ freeSlots (scanned w [Name e] [Name e]))%nat).
      * rewrite decide_True by (simpl; lia). by rewrite scanned_cons.
      * rewrite decide_False by (simpl; lia). simpl. by rewrite scanned_cons.
    + assert (Hfree : freeSlots w = 0%nat) by (unfold freeSlots; lia).
      fold (freeSlots w). rewrite Hfree.
      rewrite decide_False by (simpl; lia). done.
Qed.

Lemma registered_spec (files : list DirEntry) :
  ∀ (m : gmap string FileLock) (n : string),
  n ∈ registered m files ↔
  m !! n = None ∧ Ext n = ".csv" ∧
  ∃ e, e ∈ files ∧ Name e = n ∧ IsDir e = false.
Proof.
  induction files as [|e rest IH]; intros m n; simpl.
  - split; [by intros ?%elem_of_nil|]. intros (_ & _ & e & ?%elem_of_nil & _). done.
  - destruct (IsDir e) eqn:Hdir.
    { rewrite IH. split; intros (Hm & Hext & e' & He' & Hn & Hd); split_and!; try done.
      - exists e'. split_and!; try done. by right.
      - exists e'. split_and!; try done.
        apply elem_of_cons in He' as [->|?]; [congruence|done]. }
    destruct (decide (Ext (Name e) = ".csv" ∧ m !! Name e = None)) as [[Hext Hnew]|Hno].
    + rewrite elem_of_cons, IH. split.
      * intros [->|(Hm & He & e' & He' & Hn & Hd)].
        -- split_and!; try done. exists e. split_and!; try done. by left.
        -- destruct (decide (Name e = n)) as [<-|Hne].
           ++ by rewrite lookup_insert_eq in Hm.
           ++ rewrite lookup_insert_ne in Hm by done. split_and!; try done.
              exists e'. split_and!; try done. by right.
      * intros (Hm & He & e' & He' & Hn & Hd).
        destruct (decide (Name e = n)) as [<-|Hne]; [by left|right].
        rewrite lookup_insert_ne by done. split_and!; try done.
        exists e'. split_and!; try done.
        apply elem_of_cons in He' as [->|?]; [done|done].
    + rewrite IH. split; intros (Hm & He & e' & He' & Hn & Hd); split_and!; try done.
      * exists e'. split_and!; try done. by right.
      * exists e'. split_and!; try done.
        apply elem_of_cons in He' as [->|?]; [|done].
        destruct Hno. by rewrite Hn.
Qed.

Lemma registered_NoDup (files : list DirEntry) :
  ∀ m, NoDup (registered m files).
Proof.
  induction files as [|e rest IH]; intros m; simpl; [constructor|].
  destruct (IsDir e); [apply IH|].
  destruct (decide _) as [[Hext Hnew]|Hno]; [|apply IH].
  constructor; [|apply IH].
  rewrite registered_spec. intros (Hm & _). by rewrite lookup_insert_eq in Hm.
Qed.

Lemma registerAll_lookup (names : list string) :
  ∀ (m : gmap string FileLock) (f : string),
  registerAll m names !! f =
  if decide (f ∈ names) then Some (mkFileLock NotRead 0) else m !! f.
Proof.
  unfold registerAll.
  induction names as [|n rest IH] using rev_ind; intros m f.
  - destruct (decide (f ∈ [])) as [?%elem_of_nil|]; done.
  - rewrite foldl_app. simpl. destruct (decide (f = n)) as [->|Hne].
    + rewrite lookup_insert_eq, decide_True; [done|].
      apply elem_of_app. right. left.
    + rewrite lookup_insert_ne, IH by done.
      destruct (decide (f ∈ rest)) as [Hin|Hout].
      * rewrite decide_True; [done|]. apply elem_of_app. by left.
      * rewrite decide_False; [done|].
        intros [?|?%list_elem_of_singleton]%elem_of_app; done.
Qed.

(** ** What each operation leaves alone *)


Lemma sameScanFields_refl (w : World) : sameScanFields w w.
Proof. by split_and!. Qed.

Lemma sameScanFields_trans (w1 w2 w3 : World) :
  sameScanFields w1 w2 → sameScanFields w2 w3 → sameScanFields w1 w3.
Proof.
  intros (?&?&?&?&?) (?&?&?&?&?). split_and!; congruence.
Qed.

Lemma setFileStatus_frame (f : string) (st : FileStatus) (n : Z) (w : World) :
  ∃ w', setFileStatus f st n w = Ok tt w' ∧ sameScanFields w w' ∧
    activeWorkers (service w') = activeWorkers (service w) ∧
    currentFileIndex (service w') = currentFileIndex (service w) ∧
    goroutines w' = goroutines w ∧ resultFile w' = resultFile w ∧
    (∀ g, g ≠ f → lock (service w') !! g = lock (service w) !! g) ∧
    (lock (service w') = lock (service w) ∨
     lock (service w') = <[f := mkFileLock st n]> (lock (service w))).
Proof.
  destruct (decide (statusOf w f = Completed ∧ st ≠ Completed)) as [[Hc Hs]|Hn].
  - rewrite setFileStatus_rejected by done. eexists. split; [done|].
    simpl. split_and!; try done. by left.
  - rewrite setFileStatus_applied by done. eexists. split; [done|].
    simpl. split_and!; try done.
    + intros g Hg. by rewrite lookup_insert_ne.
    + by right.
Qed.

Lemma pickNextFile_loop_frame (n : nat) :
  ∀ (i : Z) (w : World) (f : string) (w' : World),
  pickNextFile_loop n i w = Ok f w' →
  ∃ c, w' = on_service (set_currentFileIndex c) w.
Proof.
  induction n as [|n IH]; intros i w f w' Hrun; simpl in Hrun.
  - inversion Hrun; subst. exists (currentFileIndex (service w')).
    by destruct w' as [[] ? ? ? ?].
  - rewrite bind_unfold in Hrun. simpl in Hrun. rewrite bind_unfold in Hrun.
    unfold sliceIndex in Hrun.
    destruct (_ <? 0); [done|].
    destruct (filesQueue (service w) !! _) as [g|]; [|done].
    simpl in Hrun. destruct (bool_decide _).
    + rewrite bind_unfold in Hrun. simpl in Hrun. inversion Hrun; subst.
      by eexists.
    + by eapply IH.
Qed.

Lemma pickNextFile_frame (w : World) (f : string) (w' : World) :
  pickNextFile w = Ok f w' →
  ∃ c, w' = on_service (set_currentFileIndex c) w.
Proof.
  unfold pickNextFile. rewrite bind_unfold. simpl.
  destruct (_ =? 0).
  - intros H. inversion H; subst. exists (currentFileIndex (service w')).
    by destruct w' as [[] ? ? ? ?].
  - apply pickNextFile_loop_frame.
Qed.

Lemma processFiles_frame (w w' : World) :
  processFiles w = Ok tt w' →
  sameScanFields w w' ∧ resultFile w' = resultFile w ∧
  (∀ g, statusOf w g = Completed → statusOf w' g = Completed) ∧
  (∀ g, offsetOf w' g = offsetOf w g).
Proof.
  unfold processFiles. rewrite bind_unfold. simpl.
  destruct (_ <=? _).
  { intros H. inversion H; subst. by split_and!. }
  rewrite bind_unfold.
  destruct (pickNextFile w) as [f w1|msg|w1] eqn:Hpick; [|done|done].
  destruct (pickNextFile_frame _ _ _ Hpick) as [c ->].
  destruct (bool_decide _).
  2: { intros H. inversion H; subst. by split_and!. }
  rewrite bind_unfold. simpl. rewrite bind_unfold.
  set (w1 := on_service (set_currentFileIndex c) w).
  set (n := ReadLinesNumber _).
  destruct (decide (statusOf w1 f = Completed ∧ Reading ≠ Completed)) as [[Hc Hs]|Hn].
  - rewrite setFileStatus_rejected by done. simpl.
    intros H. inversion H; subst. simpl. by split_and!.
  - rewrite setFileStatus_applied by done. simpl.
    intros H. inversion H; subst. unfold statusOf, offsetOf. simpl.
    split_and!; try done.
    + intros g Hg. destruct (decide (g = f)) as [->|Hne].
      * destruct Hn. split; [done|]. done.
      * by rewrite lockAt_insert_ne.
    + intros g. destruct (decide (g = f)) as [->|Hne].
      * by rewrite lockAt_insert_eq.
      * by rewrite lockAt_insert_ne.
Qed.

Lemma readFile_loop_world (records : list (list string)) :
  ∀ readLines temp results w a w',
  readFile_loop records readLines temp results w = Ok a w' → w' = w.
Proof.
  induction records as [|record rest IH]; intros readLines temp results w a w';
    simpl.
  - intros H. by inversion H.
  - destruct (isEmptyLine record); [apply IH|].
    destruct (0 <? readLines); [apply IH|].
    destruct (len results <? MAX_CHUNK_SIZE); [|intros H; by inversion H].
    rewrite bind_unfold. unfold sliceIndex. simpl.
    destruct (record !! Z.to_nat 0); simpl; [|done]. rewrite bind_unfold.
    destruct (record !! Z.to_nat 1); simpl; [|done]. apply IH.
Qed.

Lemma readFile_frame (wk : Worker) (opened : OpenResult) (sink : SinkResult)
    (w w' : World) :
  readFile wk opened sink w = Ok tt w' →
  sameScanFields w w' ∧ goroutines w' = goroutines w ∧
  currentFileIndex (service w') = currentFileIndex (service w) ∧
  activeWorkers (service w') = intSub (activeWorkers (service w)) 1 ∧
  (∀ g, g ≠ file wk → lock (service w') !! g = lock (service w) !! g) ∧
  (∀ g, statusOf w g = Completed → statusOf w' g = Completed).
Proof.
  destruct opened as [err|records stop].
  - rewrite readFile_OpenError. intros H. inversion H; subst. simpl.
    by split_and!.
  - unfold readFile. rewrite bind_unfold. simpl. rewrite bind_unfold. simpl.
    rewrite bind_unfold.
    set (w0 := set_stdout _ w).
    destruct (readFile_loop _ _ _ _ w0) as [[results temp] w1|msg|w1] eqn:Hloop;
      [|done|done].
    apply readFile_loop_world in Hloop as ->.
    destruct (appendToResultFile_frame sink results w0)
      as (w1 & Happ & Hs1 & Hg1 & Hb1 & _).
    rewrite bind_unfold, Happ. rewrite bind_unfold.
    set (st := if len results <? MAX_CHUNK_SIZE then Completed else NotRead).
    assert (Hset : ∃ w2 msg, (if len results <? MAX_CHUNK_SIZE
        then setFileStatus (file wk) Completed temp;;
             printf ("File " +:+ file wk +:+ " has been completed." +:+ nl)
        else setFileStatus (file wk) NotRead temp;;
             printf ("File " +:+ file wk +:+
                     " is set to 'not_read' for further processing." +:+ nl)) w1
        = Ok tt (set_stdout (stdout w2 ++ [msg]) w2) ∧
        setFileStatus (file wk) st temp w1 = Ok tt w2).
    { destruct (setFileStatus_frame (file wk) st temp w1) as (w2 & Hw2 & _).
      unfold st in *. destruct (len results <? MAX_CHUNK_SIZE);
        rewrite bind_unfold, Hw2; by eexists _, _. }
    destruct Hset as (w2 & msg & -> & Hw2).
    destruct (setFileStatus_frame (file wk) st temp w1)
      as (w2' & Hw2' & (Hq & He & Hm & Hwa & Hb) & Haw & Hc & Hg & Hr & Hother & Hlock).
    rewrite Hw2 in Hw2'. inversion Hw2'; subst w2'. clear Hw2'.
    simpl. intros H. inversion H; subst w'. clear H.
    assert (Hs0 : service w1 = service w) by (by rewrite Hs1).
    assert (Hg0 : goroutines w1 = goroutines w) by (by rewrite Hg1).
    assert (Hb0 : scanLoopBlocked w1 = scanLoopBlocked w) by (by rewrite Hb1).
    unfold sameScanFields. simpl.
    split_and!; try congruence.
    + intros g Hg'. rewrite (Hother g Hg'). by rewrite Hs0.
    + intros g Hcomp. clear Hq He Hm Hwa Hb Haw Hc Hg Hr Hother Hlock.
      destruct (decide (statusOf w1 (file wk) = Completed ∧ st ≠ Completed))
        as [[Hc Hs]|Hn].
      * rewrite setFileStatus_rejected in Hw2 by done.
        inversion Hw2; subst w2. unfold statusOf in *. simpl. by rewrite Hs0.
      * rewrite setFileStatus_applied in Hw2 by done.
        inversion Hw2; subst w2. unfold statusOf in *. simpl.
        destruct (decide (g = file wk)) as [->|Hne].
        -- rewrite lockAt_insert_eq. simpl.
           destruct (decide (st = Completed)); [done|].
           destruct Hn. split; [by rewrite Hs0|done].
        -- rewrite lockAt_insert_ne by done. by rewrite Hs0.
Qed.

(** The outcome of a scan, returned or blocked: some untracked [.csv]
    names were registered and queued, and events were sent for some. *)
Lemma checkForNewFiles_shape (dir : ReadDirResult) (w : World) :
  match checkForNewFiles dir w with
  | Ok _ w' | Blocked w' =>
      ∃ queued sent,
        service w' = service (scanned w queued sent) ∧
        goroutines w' = goroutines w ∧ resultFile w' = resultFile w ∧
        scanLoopBlocked w' = scanLoopBlocked w ∧
        NoDup queued ∧
        ∀ n, n ∈ queued → lock (service w) !! n = None ∧ Ext n = ".csv"
  | Panic _ => False
  end.
Proof.
  destruct dir as [err|files].
  - exists [], []. rewrite scanned_nil. simpl. split_and!; try done; [constructor|].
    by intros n ?%elem_of_nil.
  - simpl. rewrite checkForNewFiles_loop_exact.
    set (names := registered (lock (service w)) files).
    assert (Hnames : ∀ n, n ∈ names → lock (service w) !! n = None ∧ Ext n = ".csv").
    { intros n Hn. apply registered_spec in Hn as (? & ? & _). done. }
    assert (Hnd : NoDup names) by apply registered_NoDup.
    destruct (decide _) as [Hfit|Hno].
    + exists names, names. by split_and!.
    + exists (take (S (freeSlots w)) names), (take (freeSlots w) names).
      split_and!; try done.
      * eapply sublist_NoDup; [exact Hnd|apply sublist_take].
      * intros x Hx. apply Hnames. by eapply subseteq_take.
Qed.

(** A scan touches nothing but the queue, the event buffer and the
    entries of the names it adds. *)
Lemma checkForNewFiles_keeps (dir : ReadDirResult) (w : World) :
  match checkForNewFiles dir w with
  | Ok _ w' | Blocked w' =>
      (∀ f, is_Some (lock (service w) !! f) →
            lock (service w') !! f = lock (service w) !! f) ∧
      filesQueue (service w) `prefix_of` filesQueue (service w') ∧
      newFilesEvent (service w) `prefix_of` newFilesEvent (service w') ∧
      activeWorkers (service w') = activeWorkers (service w) ∧
      currentFileIndex (service w') = currentFileIndex (service w) ∧
      maxThreads (service w') = maxThreads (service w) ∧
      goroutines w' = goroutines w ∧
      resultFile w' = resultFile w
  | Panic _ => False
  end.
Proof.
  pose proof (checkForNewFiles_shape dir w) as H.
  destruct (checkForNewFiles dir w) as [[] w'|msg|w']; [|done|].
  all: destruct H as (queued & sent & Hs & Hg & Hr & Hb & Hnd & Hq);
    rewrite Hs; simpl; split_and!; try done;
    try (by eexists).
  all: intros f [fl Hf]; rewrite registerAll_lookup;
    destruct (decide (f ∈ queued)) as [Hin|]; [|done];
    destruct (Hq f Hin) as [Hnone _]; congruence.
Qed.


(** X1. A scan, whether it returns or blocks on an event, never panics
    and leaves every file that was tracked before it with the entry it
    had; names already queued keep their queue positions; the worker
    count, the cursor, the started workers and the result file are not
    touched. *)
Theorem scan_keeps_tracked_files (dir : ReadDirResult) (w : World) :
  match checkForNewFiles dir w with
  | Ok _ w' | Blocked w' =>
      (∀ f, is_Some (lock (service w) !! f) →
            lock (service w') !! f = lock (service w) !! f) ∧
      filesQueue (service w) `prefix_of` filesQueue (service w') ∧
      newFilesEvent (service w) `prefix_of` newFilesEvent (service w') ∧
      activeWorkers (service w') = activeWorkers (service w) ∧
      currentFileIndex (service w') = currentFileIndex (service w) ∧
      maxThreads (service w') = maxThreads (service w) ∧
      goroutines w' = goroutines w ∧
      resultFile w' = resultFile w
  | Panic _ => False
  end.
Proof.
  pose proof (checkForNewFiles_shape dir w) as H.
  destruct (checkForNewFiles dir w) as [[] w'|msg|w']; [|done|].
  all: destruct H as (queued & sent & Hs & Hg & Hr & Hb & Hnd & Hq);
    rewrite Hs; simpl; split_and!; try done;
    try (by eexists).
  all: intros f [fl Hf]; rewrite registerAll_lookup;
    destruct (decide (f ∈ queued)) as [Hin|]; [|done];
    destruct (Hq f Hin) as [Hnone _]; congruence.
Qed.

(** X2. A scan of a listing that returns has registered exactly the
    entries that are no directories, end in [.csv] and were not tracked:
    each is now tracked at status NotRead and offset 0, and they are
    appended to the queue and to the event buffer once each, in listing
    order. No other untracked name becomes tracked. *)
Theorem scan_registers_untracked_csv_files
    (files : list DirEntry) (w : World) :
  match checkForNewFiles (DirEntries files) w with
  | Ok _ w' =>
      let names := registered (lock (service w)) files in
      filesQueue (service w') = filesQueue (service w) ++ names ∧
      newFilesEvent (service w') = newFilesEvent (service w) ++ names ∧
      NoDup names ∧
      (∀ f, f ∈ names ↔
            lock (service w) !! f = None ∧ Ext f = ".csv" ∧
            ∃ e, e ∈ files ∧ Name e = f ∧ IsDir e = false) ∧
      (∀ f, f ∈ names → lock (service w') !! f = Some (mkFileLock NotRead 0)) ∧
      (∀ f, f ∉ names → lock (service w') !! f = lock (service w) !! f)
  | Blocked w' => (freeSlots w < length (registered (lock (service w)) files))%nat
  | Panic _ => False
  end.
Proof.
  simpl. rewrite checkForNewFiles_loop_exact.
  destruct (decide _) as [Hfit|Hno]; [|lia].
  simpl. split_and!; try done.
  - apply registered_NoDup.
  - apply registered_spec.
  - intros f Hf. by rewrite registerAll_lookup, decide_True.
  - intros f Hf. by rewrite registerAll_lookup, decide_False.
Qed.

(** X3. Whether a scan returns is decided by the event buffer: it returns
    exactly when the number of names it registers is at most the number
    of free places. Otherwise it blocks in the send of the first event
    that does not fit: that file is registered and queued already but has
    no event, and the entries after it are not looked at. *)
Theorem scan_blocks_when_events_do_not_fit
    (files : list DirEntry) (w : World) :
  let names := registered (lock (service w)) files in
  ((length names ≤ freeSlots w)%nat ∧
   checkForNewFiles (DirEntries files) w = Ok tt (scanned w names names)) ∨
  ((freeSlots w < length names)%nat ∧
   checkForNewFiles (DirEntries files) w =
     Blocked (scanned w (take (S (freeSlots w)) names)
                (take (freeSlots w) names)) ∧
   ∃ n, names !! freeSlots w = Some n ∧
        n ∈ filesQueue (service (scanned w (take (S (freeSlots w)) names)
                                   (take (freeSlots w) names))) ∧
        n ∉ take (freeSlots w) names).
Proof.
  intros names. simpl. rewrite checkForNewFiles_loop_exact. fold names.
  destruct (decide _) as [Hfit|Hno]; [by left|right].
  split_and!; [lia|done|].
  destruct (lookup_lt_is_Some_2 names (freeSlots w)) as [n Hn]; [lia|].
  exists n. split_and!; [done| |].
  - simpl. apply elem_of_app. right. rewrite (take_S_r _ _ _ Hn).
    apply elem_of_app. right. left.
  - intros Hin. apply list_elem_of_lookup in Hin as [i Hi].
    pose proof (lookup_lt_Some _ _ _ Hi) as Hlt.
    rewrite length_take in Hlt. rewrite lookup_take_lt in Hi by lia.
    pose proof (registered_NoDup files (lock (service w))) as Hnd.
    fold names in Hnd.
    pose proof (NoDup_lookup _ _ _ _ Hnd Hi Hn). lia.
Qed.

(** ** Along the steps *)

Lemma handleNewFileEvent_frame (f : string) (w w' : World) :
  handleNewFileEvent f w = Ok tt w' →
  sameScanFields w w' ∧
  (∀ g, statusOf w g = Completed → statusOf w' g = Completed).
Proof.
  unfold handleNewFileEvent, isFileTracked. rewrite !bind_unfold. simpl.
  destruct (bool_decide _).
  - intros H. inversion H; subst. by split_and!.
  - rewrite bind_unfold. simpl. intros H.
    apply processFiles_frame in H as (H1 & _ & H2 & _). by split.
Qed.

Lemma completed_tracked (w : World) (f : string) :
  statusOf w f = Completed → is_Some (lock (service w) !! f).
Proof.
  unfold statusOf, lockAt. destruct (lock (service w) !! f); [by eexists|done].
Qed.

Lemma scan_keeps_status (dir : ReadDirResult) (w w' : World) (f : string) :
  checkForNewFiles dir w = Ok tt w' ∨ checkForNewFiles dir w = Blocked w' →
  statusOf w f = Completed → statusOf w' f = Completed.
Proof.
  intros Hrun Hc. pose proof (checkForNewFiles_keeps dir w) as H.
  unfold statusOf, lockAt in *.
  destruct Hrun as [Hrun|Hrun]; rewrite Hrun in H; destruct H as (Hl & _);
    rewrite Hl; try done; by apply completed_tracked.
Qed.

Lemma step_keeps_completed (w w' : World) (f : string) :
  step w w' → statusOf w f = Completed → statusOf w' f = Completed.
Proof.
  intros Hstep Hc.
  destruct Hstep as [w dir w' _ Hrun _|w dir w' _ Hrun _
                    |w g rest w' _ Hev Hrun|w w' Hrun
                    |w pre wk post opened sink w' Hgo Hrec Hrun].
  - eapply scan_keeps_status; eauto.
  - change (statusOf (set_scanLoopBlocked true w') f) with (statusOf w' f).
    eapply scan_keeps_status; eauto.
  - apply handleNewFileEvent_frame in Hrun as [_ H]. by apply H.
  - apply processFiles_frame in Hrun as (_ & _ & H & _). by apply H.
  - apply readFile_frame in Hrun as (_ & _ & _ & _ & _ & H). by apply H.
Qed.

(** X4. Completed is terminal along every run: from any world at all, no
    sequence of steps (scan ticks, events, dispatch ticks, worker runs)
    takes a file out of status Completed. *)
Theorem completed_is_terminal (w w' : World) (f : string) :
  rtc step w w' → statusOf w f = Completed → statusOf w' f = Completed.
Proof.
  induction 1 as [|w1 w2 w3 Hstep _ IH]; [done|].
  intros Hc. apply IH. by eapply step_keeps_completed.
Qed.

Lemma step_blocked (w w' : World) :
  scanLoopBlocked w = true → step w w' → sameScanFields w w'.
Proof.
  intros Hb Hstep.
  destruct Hstep as [w dir w' Hnb _ _|w dir w' Hnb _ _
                    |w g rest w' Hnb _ _|w w' Hrun
                    |w pre wk post opened sink w' Hgo Hrec Hrun];
    try congruence.
  - by apply processFiles_frame in Hrun as (H & _).
  - by apply readFile_frame in Hrun as (H & _).
Qed.

(** X5. A blocked scan is final. Once the scan loop is blocked in the
    send of an event, every later step is a dispatch tick or a worker
    run: the loop stays blocked, the queue never grows again and the
    event buffer is never read again, so files that appear later are
    never registered. *)
Theorem blocked_scan_never_recovers (w w' : World) :
  scanLoopBlocked w = true → rtc step w w' →
  scanLoopBlocked w' = true ∧
  filesQueue (service w') = filesQueue (service w) ∧
  newFilesEvent (service w') = newFilesEvent (service w).
Proof.
  intros Hb Hrun. revert Hb.
  induction Hrun as [|w1 w2 w3 Hstep _ IH]; intros Hb; [done|].
  destruct (step_blocked w1 w2 Hb Hstep) as (Hq & He & _ & _ & Hb2).
  destruct IH as (H1 & H2 & H3); [congruence|].
  split_and!; congruence.
Qed.

(** X6. In a reachable world the name of every buffered event is tracked,
    so the receipt of an event only logs that the file is already being
    processed: the branch of [handleNewFileEvent] that would dispatch is
    never taken, and the extra dispatch it promises does not happen. *)
Theorem event_receipt_only_logs
    (maxThr : Z) (w : World) (f : string) (rest : list string) :
  0 <= maxThr <= maxInt →
  reachable maxThr w →
  newFilesEvent (service w) = f :: rest →
  handleNewFileEvent f (on_service (set_newFilesEvent rest) w) =
  Ok tt (set_stdout
           (stdout w ++
              ["File " +:+ f +:+ " is already being processed or completed" +:+ nl])
           (on_service (set_newFilesEvent rest) w)).
Proof.
  intros Hmt Hreach Hev.
  pose proof (reachable_wf maxThr w Hmt Hreach) as [Hwf _].
  assert (Htracked : is_Some (lock (service w) !! f)).
  { apply (wfs_tracked _ _ Hwf), (wfs_events _ _ Hwf). rewrite Hev. left. }
  unfold handleNewFileEvent, isFileTracked. rewrite !bind_unfold. simpl.
  by rewrite bool_decide_eq_true_2.
Qed.

Lemma step_queue_names (w w' : World) :
  step w w' →
  watching (service w') = watching (service w) ∧
  ∃ queued, filesQueue (service w') = filesQueue (service w) ++ queued ∧
            ∀ n, n ∈ queued → Ext n = ".csv".
Proof.
  intros Hstep.
  assert (Hsame : ∀ v, sameScanFields v w' →
            filesQueue (service v) = filesQueue (service w) →
            watching (service v) = watching (service w) →
            watching (service w') = watching (service w) ∧
            ∃ queued, filesQueue (service w') = filesQueue (service w) ++ queued ∧
                      ∀ n, n ∈ queued → Ext n = ".csv").
  { intros v (Hq & _ & _ & Hw & _) Hq' Hw'. split; [congruence|].
    exists []. rewrite app_nil_r. split; [congruence|]. by intros n ?%elem_of_nil. }
  destruct Hstep as [w dir w' _ Hrun _|w dir w' _ Hrun _
                    |w g rest w' _ Hev Hrun|w w' Hrun
                    |w pre wk post opened sink w' Hgo Hrec Hrun].
  - pose proof (checkForNewFiles_shape dir w) as H. rewrite Hrun in H.
    destruct H as (queued & sent & Hs & _ & _ & _ & _ & Hq).
    rewrite Hs. simpl. split; [done|]. exists queued. split; [done|].
    intros n Hn. by apply Hq.
  - pose proof (checkForNewFiles_shape dir w) as H. rewrite Hrun in H.
    destruct H as (queued & sent & Hs & _ & _ & _ & _ & Hq).
    simpl. rewrite Hs. simpl. split; [done|]. exists queued. split; [done|].
    intros n Hn. by apply Hq.
  - apply handleNewFileEvent_frame in Hrun as [H _]. by eapply Hsame.
  - apply processFiles_frame in Hrun as [H _]. by eapply Hsame.
  - apply readFile_frame in Hrun as [H _]. by eapply Hsame.
Qed.

Lemma reachable_queue_names (maxThr : Z) (w : World) :
  reachable maxThr w →
  watching (service w) = true ∧
  ∀ f, f ∈ filesQueue (service w) → Ext f = ".csv".
Proof.
  unfold reachable. revert w. apply rtc_ind_r.
  - split; [done|]. by intros f ?%elem_of_nil.
  - intros w1 w2 _ Hstep [Hw IH].
    destruct (step_queue_names w1 w2 Hstep) as (Hw' & queued & Hq & Hext).
    split; [congruence|]. intros f. rewrite Hq.
    intros [?|?]%elem_of_app; [by apply IH|by apply Hext].
Qed.

(** X7. The queue mirrors the tracking table. In every world reachable
    from a start with a ceiling that is a non-negative [int]: the queue
    holds each tracked name exactly once and nothing else; every queued
    name has the extension [.csv]; its status is one of the three
    declared constants and its offset is not negative; every started
    worker and every buffered event is for a queued file; the buffer
    holds at most ten events; and the cursor is 0 or a position of the
    queue. *)
Theorem queue_mirrors_tracking_table (maxThr : Z) (w : World) :
  0 <= maxThr <= maxInt →
  reachable maxThr w →
  NoDup (filesQueue (service w)) ∧
  (∀ f, f ∈ filesQueue (service w) ↔ is_Some (lock (service w) !! f)) ∧
  (∀ f, f ∈ filesQueue (service w) →
        Ext f = ".csv" ∧
        statusOf w f ∈ [NotRead; Reading; Completed] ∧
        0 <= offsetOf w f) ∧
  (∀ wk, wk ∈ goroutines w → file wk ∈ filesQueue (service w)) ∧
  (∀ f, f ∈ newFilesEvent (service w) → f ∈ filesQueue (service w)) ∧
  len (newFilesEvent (service w)) <= newFilesEventCap ∧
  0 <= currentFileIndex (service w) ∧
  (currentFileIndex (service w) < len (filesQueue (service w)) ∨
   currentFileIndex (service w) = 0) ∧
  watching (service w) = true.
Proof.
  intros Hmt Hreach.
  pose proof (reachable_wf maxThr w Hmt Hreach) as [Hwf _].
  pose proof (reachable_queue_names maxThr w Hreach) as [Hw Hext].
  destruct Hwf as [Hm Hact Hceil Hlo Hhi Hnames Hnd Htr Hwk Hoff Hst Hev Hbuf].
  split_and!; try done.
  intros f Hf. split_and!; [by apply Hext|by apply Hst|apply Hoff].
Qed.

(** ** Draining a file *)

Lemma lineOf_toRow (r : list string) : lineOf (toRow r) = rowLine r.
Proof.
  unfold lineOf, toRow, rowLine, rowAt, mkRow.
  rewrite lookup_insert_eq, lookup_insert_ne, lookup_insert_eq by done. done.
Qed.

Lemma readFile_resultFile_failed (wk : Worker) (opened : OpenResult)
    (sink : SinkResult) (w w' : World) :
  sinkOpenErr sink ≠ None →
  readFile wk opened sink w = Ok tt w' → resultFile w' = resultFile w.
Proof.
  intros Hfail. destruct opened as [err|records stop].
  - rewrite readFile_OpenError. intros H. by inversion H; subst.
  - unfold readFile. rewrite bind_unfold. simpl. rewrite bind_unfold. simpl.
    rewrite bind_unfold.
    set (w0 := set_stdout _ w).
    destruct (readFile_loop _ _ _ _ w0) as [[results temp] w1|msg|w1] eqn:Hloop;
      [|done|done].
    apply readFile_loop_world in Hloop as ->.
    rewrite bind_unfold. unfold appendToResultFile.
    destruct (sinkOpenErr sink) as [err|]; [|done]. simpl.
    rewrite bind_unfold.
    set (w1 := set_stdout _ w0).
    set (st := if len results <? MAX_CHUNK_SIZE then Completed else NotRead).
    destruct (setFileStatus_frame (file wk) st temp w1)
      as (w2 & Hw2 & _ & _ & _ & _ & Hr & _).
    unfold st in Hw2.
    destruct (len results <? MAX_CHUNK_SIZE); rewrite bind_unfold, Hw2; simpl;
      intros H; inversion H; subst w'; simpl; by rewrite Hr.
Qed.

Lemma dispatchAndRun_single_out (env : Env) (f : string) (w : World)
    (records : list (list string)) (stop : ReadStop) (sink : SinkResult) :
  let o := offsetOf w f in
  let chunk := chunkOf o records in
  idleSingle f w → statusOf w f ≠ Completed →
  env f = (Opened records stop, sink) →
  isInt o → len records <= maxInt → Forall wellFormedRow chunk →
  ∃ w', dispatchAndRun env w = Ok tt w' ∧ idleSingle f w' ∧
        statusOf w' f = statusAfter (length chunk) ∧
        offsetOf w' f = o + len chunk ∧
        (sinkWorks sink → resultFile w' = resultFile w ++ (rowLine <$> chunk)) ∧
        (sinkOpenErr sink ≠ None → resultFile w' = resultFile w).
Proof.
  intros o chunk Hidle Hst Henv Ho Hfit Hrows.
  pose proof (idleSingle_wfQueue f w Hidle) as Hwf.
  destruct Hidle as [Hq Hf Hc Hact Hcap Hgo].
  unfold dispatchAndRun. rewrite bind_unfold.
  rewrite processFiles_spare by (done || lia).
  rewrite Hq, Hc. simpl.
  rewrite decide_True by done. simpl.
  unfold runStarted. simpl. rewrite Hgo. simpl.
  rewrite Hgo. simpl. rewrite bind_unfold. unfold startProcessing. simpl.
  rewrite Henv. simpl.
  set (w0 := set_goroutines [] (dispatched w 0 f)).
  pose proof (readFile_Opened w0 (NewWorker f) records stop sink) as Hspec.
  simpl in Hspec.
  assert (Ho0 : offsetOf w0 f = o) by apply dispatched_offsetOf.
  rewrite Ho0 in Hspec. specialize (Hspec Ho Hfit). fold chunk in Hspec.
  rewrite decide_True in Hspec by done.
  destruct Hspec as (w' & Hrun & Hs & Hg & Hb & Hout).
  pose proof (λ H, readFile_resultFile_failed _ _ _ _ _ H Hrun) as Hfail.
  rewrite Hrun.
  exists w'. split; [done|].
  assert (Hst0 : statusOf w0 f = Reading).
  { unfold statusOf. simpl. by rewrite lockAt_insert_eq. }
  unfold afterWorker in Hs. rewrite Hst0 in Hs.
  rewrite decide_False in Hs by (intros [H _]; done).
  simpl in Hs. rewrite Hq, Hc, Hact in Hs. simpl in Hs.
  unfold statusOf, offsetOf. rewrite Hs. simpl.
  rewrite lockAt_insert_eq. simpl. split_and!; try done.
  - split; rewrite ?Hs, ?Hg; simpl; try done.
  - intros [Hopen Hwrite]. rewrite (Hout Hopen Hwrite). simpl.
    f_equal. rewrite <- list_fmap_compose. apply list_fmap_ext.
    intros i r _. simpl. apply lineOf_toRow.
Qed.

Lemma drain_from (env : Env) (f : string) (records : list (list string))
    (stop : ReadStop) (sink : SinkResult) (r : nat) :
  env f = (Opened records stop, sink) →
  len records <= maxInt →
  Forall wellFormedRow (dataRows records) →
  sinkWorks sink → (r < 3)%nat →
  ∀ (q o : nat) (w : World),
  idleSingle f w → statusOf w f ≠ Completed →
  offsetOf w f = Z.of_nat o →
  (o ≤ length (dataRows records))%nat →
  length (drop o (dataRows records)) = (3 * q + r)%nat →
  ∃ w', dispatchTimes env (S q) w = Ok tt w' ∧ idleSingle f w' ∧
        statusOf w' f = Completed ∧
        offsetOf w' f = len (dataRows records) ∧
        resultFile w' = resultFile w ++ (rowLine <$> drop o (dataRows records)).
Proof.
  intros Henv Hfit Hrows Hsink Hr.
  pose proof (dataRows_length records) as Hdl.
  induction q as [|q IH]; intros o w Hidle Hst Ho Hle Hlen.
  - assert (Hoi : isInt (offsetOf w f)).
    { rewrite Ho. unfold isInt, len, minInt, maxInt in *.
      rewrite length_drop in Hlen. lia. }
    destruct (dispatchAndRun_single_out env f w records stop sink)
      as (w' & Hrun & Hidle' & Hst' & Ho' & Hout & _); try done.
    { by apply chunkOf_wellFormed. }
    assert (Hchunk : chunkOf (offsetOf w f) records = drop o (dataRows records)).
    { unfold chunkOf. rewrite Ho, Nat2Z.id. apply take_ge.
      unfold MAX_CHUNK_SIZE. lia. }
    rewrite Hchunk in *.
    exists w'. simpl. rewrite bind_unfold, Hrun. split; [done|].
    split_and!; try done.
    + rewrite Hst'. unfold statusAfter, MAX_CHUNK_SIZE.
      destruct (Z.ltb_spec (Z.of_nat (length (drop o (dataRows records)))) 3);
        [done|lia].
    + rewrite Ho', Ho. unfold len. rewrite length_drop in *. lia.
    + by apply Hout.
  - assert (Hoi : isInt (offsetOf w f)).
    { rewrite Ho. unfold isInt, len, minInt, maxInt in *.
      rewrite length_drop in Hlen. lia. }
    destruct (dispatchAndRun_single_out env f w records stop sink)
      as (w1 & Hrun & Hidle1 & Hst1 & Ho1 & Hout1 & _); try done.
    { by apply chunkOf_wellFormed. }
    assert (Hchunk : chunkOf (offsetOf w f) records =
                     take 3 (drop o (dataRows records))).
    { unfold chunkOf. by rewrite Ho, Nat2Z.id. }
    rewrite Hchunk in *.
    assert (Hk : length (take 3 (drop o (dataRows records))) = 3%nat).
    { rewrite length_take. lia. }
    unfold len in Ho1. rewrite Hk in Hst1, Ho1.
    destruct (IH (o + 3)%nat w1) as (w' & Hrun' & Hidle' & Hst' & Ho' & Hout');
      try done.
    + rewrite Hst1. unfold statusAfter, MAX_CHUNK_SIZE. simpl. done.
    + rewrite Ho1, Ho. lia.
    + rewrite length_drop in Hlen. lia.
    + rewrite <- drop_drop, length_drop. lia.
    + exists w'. split.
      { change (dispatchTimes env (S (S q)) w)
          with ((dispatchAndRun env;; dispatchTimes env (S q)) w).
        by rewrite bind_unfold, Hrun. }
      split_and!; try done.
      rewrite Hout', (Hout1 Hsink), <- app_assoc, <- fmap_app.
      by rewrite <- drop_drop, take_drop.
Qed.

(** X8. A file is drained completely, each row once, in order. Take a
    world whose single tracked file is idle, not Completed, at offset 0;
    a file that does not change, of fewer records than an [int] counts,
    whose non-blank records have their two fields; and a sink that works.
    If the file has [3 * q + r] non-blank records with [r < 3], then
    [q + 1] dispatches, each followed by the run of its worker, end with
    the file Completed at the offset that is the number of its non-blank
    records, the world idle again, and the result file extended by the
    lines [id,name] of all the non-blank records, in file order, no line
    twice and none missing. *)
Theorem single_file_is_drained_in_order
    (env : Env) (f : string) (w : World)
    (records : list (list string)) (stop : ReadStop) (sink : SinkResult)
    (q r : nat) :
  env f = (Opened records stop, sink) →
  len records <= maxInt →
  Forall wellFormedRow (dataRows records) →
  sinkWorks sink →
  idleSingle f w → statusOf w f ≠ Completed → offsetOf w f = 0 →
  length (dataRows records) = (3 * q + r)%nat → (r < 3)%nat →
  ∃ w', dispatchTimes env (S q) w = Ok tt w' ∧
        statusOf w' f = Completed ∧
        offsetOf w' f = len (dataRows records) ∧
        resultFile w' = resultFile w ++ (rowLine <$> dataRows records) ∧
        idleSingle f w'.
Proof.
  intros Henv Hfit Hrows Hsink Hidle Hst Ho Hlen Hr.
  destruct (drain_from env f records stop sink r Henv Hfit Hrows Hsink Hr
              q 0%nat w Hidle Hst Ho)
    as (w' & Hrun & Hidle' & Hst' & Ho' & Hout); [lia|by rewrite drop_0|].
  exists w'. rewrite drop_0 in Hout. by split_and!.
Qed.

(** ** The result file *)


(** X10. With a sink that works, a worker appends to the result file
    exactly one line per record of its chunk, in file order: the first
    field, a comma, the second field, a newline. Fields after the second
    are not written, and nothing is written for records outside the
    chunk. *)
Theorem worker_appends_chunk_lines
    (w : World) (wk : Worker) (records : list (list string))
    (stop : ReadStop) (sink : SinkResult) :
  let o := offsetOf w (file wk) in
  let chunk := chunkOf o records in
  isInt o → len records <= maxInt → Forall wellFormedRow chunk →
  sinkWorks sink →
  ∃ w', readFile wk (Opened records stop) sink w = Ok tt w' ∧
        resultFile w' = resultFile w ++ (rowLine <$> chunk) ∧
        ∀ id name fields, rowLine (id :: name :: fields) = id +:+ "," +:+ name +:+ nl.
Proof.
  intros o chunk Ho Hfit Hrows [Hopen Hwrite].
  pose proof (readFile_Opened w wk records stop sink) as Hspec.
  simpl in Hspec. specialize (Hspec Ho Hfit). fold o chunk in Hspec.
  rewrite decide_True in Hspec by done.
  destruct Hspec as (w' & Hrun & _ & _ & _ & Hout).
  exists w'. split_and!; try done.
  rewrite (Hout Hopen Hwrite). f_equal.
  rewrite <- list_fmap_compose. apply list_fmap_ext.
  intros i r _. simpl. apply lineOf_toRow.
Qed.

(** X13. Under the same size conditions, [readFile] on an opened file
    has two outcomes only: it panics with an index out of range exactly
    when some record of its chunk has fewer than two fields, and it
    returns exactly when every record of the chunk has two. Records that
    are skipped, blank, or after the chunk are never indexed. *)
Theorem readFile_panics_iff_short_row_in_chunk
    (w : World) (wk : Worker) (records : list (list string))
    (stop : ReadStop) (sink : SinkResult) :
  let chunk := chunkOf (offsetOf w (file wk)) records in
  isInt (offsetOf w (file wk)) → len records <= maxInt →
  (readFile wk (Opened records stop) sink w = Panic "index out of range" ↔
   ∃ r, r ∈ chunk ∧ (length r < 2)%nat) ∧
  ((∃ w', readFile wk (Opened records stop) sink w = Ok tt w') ↔
   Forall wellFormedRow chunk).
Proof.
  intros chunk Ho Hfit.
  pose proof (readFile_Opened w wk records stop sink) as Hspec.
  simpl in Hspec. specialize (Hspec Ho Hfit). fold chunk in Hspec.
  assert (Hex : ¬ Forall wellFormedRow chunk ↔ ∃ r, r ∈ chunk ∧ (length r < 2)%nat).
  { rewrite <- Exists_Forall_neg, Exists_exists
      by (intros x; unfold wellFormedRow; lia).
    unfold wellFormedRow. split; intros (r & Hr & Hlen); exists r; split; (done || lia). }
  destruct (decide (Forall wellFormedRow chunk)) as [Hwf|Hwf].
  - destruct Hspec as (w' & Hrun & _). rewrite Hrun. split.
    + split; [done|]. intros H%Hex. done.
    + split; [done|]. intros _. by exists w'.
  - rewrite Hspec. split.
    + split; [intros _; by apply Hex|done].
    + split; [by intros [w' ?]|done].
Qed.

(** ** Reading the table back *)

(** X11. What [setFileStatus] writes is what [getFileStatus] and
    [isFileTracked] read back. After [setFileStatus f status n], the
    status of [f] is [status], or Completed when it was Completed
    before; [f] is tracked, even a name that was never queued; the
    answers for every other name are what they were. A name that is not
    tracked has the empty status, which is none of the three constants. *)
Theorem setFileStatus_read_back
    (w : World) (f : string) (status : FileStatus) (n : Z) :
  ∃ w', setFileStatus f status n w = Ok tt w' ∧
    getFileStatus f w' =
      Ok (if decide (statusOf w f = Completed) then Completed else status) w' ∧
    isFileTracked f w' = Ok true w' ∧
    (∀ g, g ≠ f →
       getFileStatus g w' = Ok (statusOf w g) w' ∧
       isFileTracked g w' =
         Ok (bool_decide (is_Some (lock (service w) !! g))) w') ∧
    (∀ g, isFileTracked g w = Ok false w → getFileStatus g w = Ok "" w).
Proof.
  destruct (decide (statusOf w f = Completed ∧ status ≠ Completed)) as [[Hc Hs]|Hn].
  - rewrite setFileStatus_rejected by done. eexists. split; [done|].
    unfold getFileStatus, isFileTracked. rewrite !bind_unfold. simpl.
    rewrite decide_True by done. fold (statusOf w f). rewrite Hc.
    split_and!; try done.
    + rewrite bool_decide_eq_true_2; [done|]. by apply completed_tracked.
    + intros g. rewrite !bind_unfold. simpl. unfold lockAt.
      destruct (lock (service w) !! g); [|done].
      rewrite bool_decide_eq_true_2 by (by eexists). done.
  - rewrite setFileStatus_applied by done. eexists. split; [done|].
    unfold getFileStatus, isFileTracked. simpl.
    split_and!.
    + rewrite bind_unfold. simpl. rewrite lockAt_insert_eq. simpl.
      destruct (decide (statusOf w f = Completed)) as [Hc|]; [|done].
      destruct (decide (status = Completed)) as [->|]; [done|]. tauto.
    + rewrite bind_unfold. simpl. rewrite lookup_insert_eq.
      rewrite bool_decide_eq_true_2 by (by eexists). done.
    + intros g Hg. rewrite !bind_unfold. simpl.
      by rewrite lockAt_insert_ne, lookup_insert_ne.
    + intros g. rewrite !bind_unfold. simpl. unfold lockAt.
      destruct (lock (service w) !! g); [|done].
      rewrite bool_decide_eq_true_2 by (by eexists). done.
Qed.

(** ** A failed open is retried *)

Lemma dispatchAndRun_open_error (env : Env) (f : string) (w : World)
    (err : string) (sink : SinkResult) :
  idleSingle f w → statusOf w f ≠ Completed →
  env f = (OpenError err, sink) →
  ∃ w', dispatchAndRun env w = Ok tt w' ∧ idleSingle f w' ∧
        statusOf w' f = Reading ∧ offsetOf w' f = offsetOf w f ∧
        resultFile w' = resultFile w.
Proof.
  intros Hidle Hst Henv.
  pose proof (idleSingle_wfQueue f w Hidle) as Hwf.
  destruct Hidle as [Hq Hf Hc Hact Hcap Hgo].
  unfold dispatchAndRun. rewrite bind_unfold.
  rewrite processFiles_spare by (done || lia).
  rewrite Hq, Hc. simpl.
  rewrite decide_True by done. simpl.
  unfold runStarted. simpl. rewrite Hgo. simpl.
  rewrite Hgo. cbn [app]. rewrite bind_unfold.
  unfold startProcessing. cbn [file NewWorker].
  rewrite Henv.
  change ((OpenError err, sink).1) with (OpenError err).
  change ((OpenError err, sink).2) with sink.
  rewrite readFile_OpenError. simpl.
  eexists. split; [done|]. unfold statusOf, offsetOf. simpl.
  rewrite lockAt_insert_eq. simpl.
  split_and!; try done. split; simpl; try done.
  - by rewrite Hq, Hc.
  - by rewrite Hact.
Qed.

(** X12. A file whose open failed is not stuck. On a world whose single
    tracked file is idle and not Completed, a dispatch whose open fails
    leaves the file in status Reading at its offset, with no worker
    running and nothing written; and the very next dispatch tick picks the
    file again and, the open succeeding this time, reads its chunk from
    that offset as if nothing had happened. *)
Theorem failed_open_is_retried_by_next_dispatch
    (env1 env2 : Env) (f : string) (w : World) (err : string)
    (records : list (list string)) (stop : ReadStop) (sink1 sink2 : SinkResult) :
  let o := offsetOf w f in
  let chunk := chunkOf o records in
  idleSingle f w → statusOf w f ≠ Completed →
  env1 f = (OpenError err, sink1) →
  env2 f = (Opened records stop, sink2) →
  isInt o → len records <= maxInt → Forall wellFormedRow chunk →
  ∃ w1 w2,
    dispatchAndRun env1 w = Ok tt w1 ∧
    statusOf w1 f = Reading ∧ offsetOf w1 f = o ∧
    goroutines w1 = [] ∧ activeWorkers (service w1) = 0 ∧
    resultFile w1 = resultFile w ∧
    dispatchAndRun env2 w1 = Ok tt w2 ∧
    statusOf w2 f = statusAfter (length chunk) ∧
    offsetOf w2 f = o + len chunk.
Proof.
  intros o chunk Hidle Hst Henv1 Henv2 Ho Hfit Hrows.
  destruct (dispatchAndRun_open_error env1 f w err sink1 Hidle Hst Henv1)
    as (w1 & Hrun1 & Hidle1 & Hst1 & Ho1 & Hr1).
  destruct (dispatchAndRun_single env2 f w1 records stop sink2)
    as (w2 & Hrun2 & Hidle2 & Hst2 & Ho2); try done.
  - by rewrite Hst1.
  - by rewrite Ho1.
  - by rewrite Ho1.
  - exists w1, w2. rewrite Ho1 in *. destruct Hidle1. by split_and!.
Qed.

(** ** The dispatch tick, exactly *)

(** X14. A dispatch tick with spare capacity on a well-formed service
    does one of two things. If the queue is empty or all its files are
    Completed, it changes nothing. Otherwise it picks one queued file that
    is not Completed, marks it Reading at the offset it has, adds one to
    the count, starts one worker for it and logs one line; the entry of
    every other file, the queue and the result file stay as they are. *)
Theorem dispatch_tick_marks_exactly_one_file (w : World) :
  wfQueue (service w) →
  activeWorkers (service w) < maxThreads (service w) →
  (processFiles w = Ok tt w ∧
   (filesQueue (service w) = [] ∨
    Forall (λ g, statusOf w g = Completed) (filesQueue (service w)))) ∨
  (∃ f w',
     processFiles w = Ok tt w' ∧
     f ∈ filesQueue (service w) ∧ statusOf w f ≠ Completed ∧
     statusOf w' f = Reading ∧ offsetOf w' f = offsetOf w f ∧
     (∀ g, g ≠ f → lock (service w') !! g = lock (service w) !! g) ∧
     goroutines w' = goroutines w ++ [NewWorker f] ∧
     file <$> goroutines w' = (file <$> goroutines w) ++ [f] ∧
     activeWorkers (service w') = intAdd (activeWorkers (service w)) 1 ∧
     filesQueue (service w') = filesQueue (service w) ∧
     stdout w' = stdout w ++ ["File " +:+ f +:+ " status updated to reading" +:+ nl] ∧
     resultFile w' = resultFile w).
Proof.
  intros Hwf Hspare. rewrite processFiles_spare by done.
  destruct (list_find _ _) as [[k f]|] eqn:Hfind.
  - right. apply list_find_elem_of in Hfind as (Hin & He & _).
    apply circular_elem_of in Hin.
    exists f, (dispatched w k f). unfold statusOf, offsetOf. simpl.
    rewrite lockAt_insert_eq. simpl. split_and!; try done.
    + intros g Hg. by rewrite lookup_insert_ne.
    + by rewrite fmap_app.
  - left. split; [done|].
    apply list_find_None in Hfind.
    destruct (decide (filesQueue (service w) = [])); [by left|right].
    rewrite Forall_forall in Hfind. apply Forall_forall. intros g Hg.
    apply not_eligible_completed, Hfind. by apply circular_elem_of.
Qed.

(** ** The result file only grows *)

Lemma appendRows_prefix (sink : SinkResult) (chunk : list (gmap string string)) :
  ∀ (i : nat) (w w' : World),
  appendRows sink i chunk w = Ok tt w' →
  resultFile w `prefix_of` resultFile w'.
Proof.
  induction chunk as [|row rest IH]; intros i w w'; simpl.
  - intros H. by inversion H.
  - rewrite bind_unfold. destruct (sinkWriteErr sink i) as [e|].
    + rewrite bind_unfold. simpl. intros H. apply IH in H. simpl in H.
      etrans; [|exact H]. by apply prefix_app_r.
    + simpl. intros H. apply IH in H. simpl in H.
      etrans; [|exact H]. by apply prefix_app_r.
Qed.

Lemma readFile_resultFile_prefix (wk : Worker) (opened : OpenResult)
    (sink : SinkResult) (w w' : World) :
  readFile wk opened sink w = Ok tt w' →
  resultFile w `prefix_of` resultFile w'.
Proof.
  destruct opened as [err|records stop].
  - rewrite readFile_OpenError. intros H. by inversion H; subst.
  - unfold readFile. rewrite bind_unfold. simpl. rewrite bind_unfold. simpl.
    rewrite bind_unfold.
    set (w0 := set_stdout _ w).
    destruct (readFile_loop _ _ _ _ w0) as [[results temp] w1|msg|w1] eqn:Hloop;
      [|done|done].
    apply readFile_loop_world in Hloop as ->.
    rewrite bind_unfold.
    destruct (appendToResultFile results sink w0) as [[] w1|msg|w1] eqn:Happ;
      [|done|done].
    assert (Hpre : resultFile w `prefix_of` resultFile w1).
    { unfold appendToResultFile in Happ. destruct (sinkOpenErr sink).
      - by inversion Happ; subst.
      - rewrite bind_unfold in Happ.
        destruct (appendRows sink 0 results w0) as [[] w2|msg|w2] eqn:Hrows;
          [|done|done].
        apply appendRows_prefix in Hrows. simpl in Happ.
        by inversion Happ; subst. }
    rewrite bind_unfold.
    set (st := if len results <? MAX_CHUNK_SIZE then Completed else NotRead).
    destruct (setFileStatus_frame (file wk) st temp w1)
      as (w2 & Hw2 & _ & _ & _ & _ & Hr & _).
    unfold st in Hw2.
    destruct (len results <? MAX_CHUNK_SIZE); rewrite bind_unfold, Hw2; simpl;
      intros H; inversion H; subst w'; simpl; by rewrite Hr.
Qed.

Lemma step_resultFile (w w' : World) :
  step w w' → resultFile w `prefix_of` resultFile w'.
Proof.
  intros Hstep.
  destruct Hstep as [w dir w' _ Hrun _|w dir w' _ Hrun _
                    |w g rest w' _ Hev Hrun|w w' Hrun
                    |w pre wk post opened sink w' Hgo Hrec Hrun].
  - pose proof (checkForNewFiles_keeps dir w) as H. rewrite Hrun in H.
    destruct H as (_ & _ & _ & _ & _ & _ & _ & ->). done.
  - pose proof (checkForNewFiles_keeps dir w) as H. rewrite Hrun in H.
    destruct H as (_ & _ & _ & _ & _ & _ & _ & H). simpl. by rewrite H.
  - unfold handleNewFileEvent, isFileTracked in Hrun.
    rewrite !bind_unfold in Hrun. simpl in Hrun. destruct (bool_decide _).
    + by inversion Hrun; subst.
    + rewrite bind_unfold in Hrun. simpl in Hrun.
      apply processFiles_frame in Hrun as (_ & -> & _). done.
  - apply processFiles_frame in Hrun as (_ & -> & _). done.
  - by apply readFile_resultFile_prefix in Hrun.
Qed.

(** X15. The result file is append-only. Along every run, from any
    world at all, what the result file held stays as a prefix of what it
    holds later: no step removes or rewrites a line, and only the run of
    a worker adds any. *)
Theorem result_file_only_grows (w w' : World) :
  rtc step w w' → resultFile w `prefix_of` resultFile w'.
Proof.
  induction 1 as [|w1 w2 w3 Hstep _ IH]; [done|].
  etrans; [by apply step_resultFile|done].
Qed.

(** ** The other variant of the reader *)

Lemma PartOne_readFile_loop_spec (records : list (list string)) :
  ∀ (readLines : Z) (results : list (gmap string string)) (w : World),
  let chunk := take (Z.to_nat MAX_CHUNK_SIZE - length results)
                 (drop (Z.to_nat readLines) records) in
  isInt readLines →
  (length results ≤ Z.to_nat MAX_CHUNK_SIZE)%nat →
  PartOne.readFile_loop records readLines results w =
  if decide (Forall wellFormedRow chunk)
  then Ok (results ++ (toRow <$> chunk),
           PartOne.countdownLeft readLines (len records)) w
  else Panic "index out of range".
Proof.
  induction records as [|record rest IH]; intros readLines results w chunk HrI Hres;
    unfold PartOne.countdownLeft in *.
  - subst chunk. rewrite drop_nil, take_nil. simpl. rewrite app_nil_r.
    unfold len. simpl. destruct (Z.ltb_spec 0 readLines); [|done].
    by rewrite Z.sub_0_r, Z.max_r by lia.
  - subst chunk. simpl.
    destruct (Z.ltb_spec 0 readLines) as [Hpos|Hnonpos].
    { assert (Hsub : intSub readLines 1 = readLines - 1).
      { apply intSub_exact. unfold isInt, minInt, maxInt in *. lia. }
      rewrite Hsub.
      replace (Z.to_nat readLines) with (S (Z.to_nat (readLines - 1))) by lia.
      simpl. rewrite IH by (done || unfold isInt, minInt, maxInt in *; lia).
      destruct (decide _); [|done]. do 2 f_equal.
      unfold len. simpl. destruct (Z.ltb_spec 0 (readLines - 1)); lia. }
    replace (Z.to_nat readLines) with 0%nat by lia. rewrite drop_0.
    destruct (Z.ltb_spec (len results) MAX_CHUNK_SIZE) as [Hroom|Hfull].
    2: { unfold len, MAX_CHUNK_SIZE in *.
         replace (Z.to_nat 3 - length results)%nat with 0%nat by lia.
         simpl. by rewrite app_nil_r. }
    unfold len, MAX_CHUNK_SIZE in Hroom.
    destruct (Z.to_nat MAX_CHUNK_SIZE - length results)%nat as [|m] eqn:Hm;
      [unfold MAX_CHUNK_SIZE in Hm; lia|].
    rewrite firstn_cons.
    destruct record as [|id [|name fields]].
    + rewrite decide_False.
      * by rewrite bind_unfold.
      * intros H. apply Forall_cons in H as [H _]. unfold wellFormedRow in H.
        simpl in H. lia.
    + rewrite decide_False.
      * rewrite bind_unfold. simpl. by rewrite bind_unfold.
      * intros H. apply Forall_cons in H as [H _]. unfold wellFormedRow in H.
        simpl in H. lia.
    + specialize (IH readLines (results ++ [mkRow id name]) w).
      replace (Z.to_nat readLines) with 0%nat in IH by lia.
      rewrite drop_0, length_app in IH. simpl in IH.
      replace (Z.to_nat MAX_CHUNK_SIZE - (length results + 1))%nat with m in IH
        by lia.
      rewrite bind_unfold. simpl. rewrite bind_unfold. simpl.
      rewrite IH by (done || unfold MAX_CHUNK_SIZE in *; lia).
      destruct (Z.ltb_spec 0 readLines) as [Hbad|_]; [lia|].
      destruct (decide (Forall wellFormedRow (take m rest))) as [Hw|Hw].
      * rewrite decide_True.
        -- rewrite <- app_assoc.
           change (toRow (id :: name :: fields)) with (mkRow id name). done.
        -- constructor; [unfold wellFormedRow; simpl; lia|done].
      * rewrite decide_False; [done|].
        intros Hc. apply Forall_cons in Hc as [_ Hc]. done.
Qed.

(** X16. The variant of the reader without [tempReadLines] does not
    resume. It writes back what is left of its countdown plus the number
    of rows it collected; for a saved offset within the file nothing is
    left of the countdown, so the offset it writes is the size of the
    chunk alone, not the saved offset plus that size. Hence a file of six
    or more records dispatched at offset 3 is left NotRead at offset 3
    again, its fourth to sixth records appended once more: every later
    dispatch repeats this and the file is never Completed. *)
Theorem PartOne_reader_does_not_resume
    (w : World) (wk : Worker) (records : list (list string))
    (stop : ReadStop) (sink : SinkResult) :
  let o := offsetOf w (file wk) in
  let chunk := take (Z.to_nat MAX_CHUNK_SIZE) (drop (Z.to_nat o) records) in
  isInt o → len records <= maxInt → Forall wellFormedRow chunk →
  ∃ w', PartOne.readFile wk (Opened records stop) sink w = Ok tt w' ∧
    service w' =
      afterWorker w (file wk) (statusAfter (length chunk))
        (PartOne.countdownLeft o (len records) + len chunk) ∧
    (sinkWorks sink → resultFile w' = resultFile w ++ (rowLine <$> chunk)) ∧
    (statusOf w (file wk) ≠ Completed → 0 <= o <= len records →
       offsetOf w' (file wk) = len chunk) ∧
    (statusOf w (file wk) ≠ Completed → o = 3 → 6 <= len records →
       statusOf w' (file wk) = NotRead ∧ offsetOf w' (file wk) = 3 ∧
       chunk = take 3 (drop 3 records)).
Proof.
  intros o chunk Ho Hfit Hrows.
  assert (Hlen : (length chunk ≤ 3)%nat)
    by (unfold chunk, MAX_CHUNK_SIZE; rewrite length_take; lia).
  assert (Hleft : isInt (PartOne.countdownLeft o (len records) + len chunk) ∧
                  (0 <= o <= len records →
                   PartOne.countdownLeft o (len records) = 0)).
  { unfold PartOne.countdownLeft, isInt, len, minInt, maxInt in *.
    assert (Hc : (Z.to_nat o < length records)%nat ∨ length chunk = 0%nat).
    { destruct (decide (Z.to_nat o < length records)%nat); [by left|right].
      unfold chunk. rewrite drop_ge by lia. done. }
    destruct (Z.ltb_spec 0 o); lia. }
  destruct Hleft as [Hint Hzero].
  unfold PartOne.readFile. rewrite bind_unfold. simpl. rewrite bind_unfold. simpl.
  rewrite bind_unfold. fold (offsetOf w (file wk)). fold o.
  set (w0 := set_stdout _ w).
  pose proof (PartOne_readFile_loop_spec records o [] w0) as Hloop.
  simpl in Hloop.
  change (take 3 (drop (Z.to_nat o) records)) with chunk in Hloop.
  rewrite Hloop; [|done|lia]. clear Hloop.
  rewrite decide_True by done.
  destruct (appendToResultFile_frame sink (toRow <$> chunk) w0)
    as (w1 & Happ & Hs1 & Hg1 & Hb1 & Hout).
  rewrite bind_unfold, Happ.
  assert (Hst1 : statusOf w1 (file wk) = statusOf w (file wk))
    by (unfold statusOf; by rewrite Hs1).
  assert (Hlf : len (toRow <$> chunk) = len chunk)
    by (unfold len; by rewrite length_fmap).
  rewrite !Hlf, (intAdd_exact _ _ Hint).
  set (n := PartOne.countdownLeft o (len records) + len chunk) in *.
  assert (Hres : sinkWorks sink →
                 resultFile w1 = resultFile w ++ (rowLine <$> chunk)).
  { intros [Hopen Hwrite]. rewrite (Hout Hopen Hwrite). simpl. f_equal.
    rewrite <- list_fmap_compose. apply list_fmap_ext.
    intros i r _. simpl. apply lineOf_toRow. }
  assert (Hrun : ∃ w', (
      (if len chunk <? MAX_CHUNK_SIZE
       then setFileStatus (file wk) Completed n;;
            printf ("File " +:+ file wk +:+ " has been completed." +:+ nl)
       else setFileStatus (file wk) NotRead n;;
            printf ("File " +:+ file wk +:+
                    " is set to 'not_read' for further processing." +:+ nl));;
      modService (λ s, set_activeWorkers (intSub (activeWorkers s) 1) s)) w1
      = Ok tt w' ∧
      service w' = afterWorker w (file wk) (statusAfter (length chunk)) n ∧
      resultFile w' = resultFile w1).
  { unfold afterWorker, statusAfter. fold (len chunk).
    destruct (Z.ltb_spec (len chunk) MAX_CHUNK_SIZE) as [Hk|Hk].
    - rewrite !bind_unfold.
      rewrite setFileStatus_applied by (intros [_ H]; done).
      simpl. eexists. split; [done|]. simpl.
      rewrite decide_False by (intros [_ H]; done). by rewrite Hs1.
    - rewrite !bind_unfold.
      destruct (decide (statusOf w (file wk) = Completed ∧ NotRead ≠ Completed))
        as [[Hc Hn]|Hn].
      + rewrite setFileStatus_rejected by (done || congruence).
        simpl. eexists. split; [done|]. simpl. by rewrite Hs1.
      + rewrite setFileStatus_applied by (rewrite Hst1; done).
        simpl. eexists. split; [done|]. simpl. by rewrite Hs1. }
  destruct Hrun as (w' & Hrun & Hs & Hr).
  exists w'. split; [exact Hrun|]. split; [done|].
  assert (Hoff : statusOf w (file wk) ≠ Completed →
                 statusOf w' (file wk) = statusAfter (length chunk) ∧
                 offsetOf w' (file wk) = n).
  { intros Hst. unfold statusOf, offsetOf. rewrite Hs, afterWorker_lockAt.
    rewrite decide_True; [done|]. split; [done|]. by intros [? _]. }
  split_and!.
  - intros Hsink. rewrite Hr. by apply Hres.
  - intros Hst Hrange. destruct (Hoff Hst) as [_ ->].
    unfold n. rewrite (Hzero Hrange). lia.
  - intros Hst Ho3 H6. destruct (Hoff Hst) as [-> ->].
    assert (Hchunk : chunk = take 3 (drop 3 records)).
    { unfold chunk. rewrite Ho3. done. }
    assert (Hk : length chunk = 3%nat).
    { rewrite Hchunk, length_take, length_drop. unfold len in H6. lia. }
    unfold n. rewrite Hzero by (unfold len in *; lia).
    unfold statusAfter, len. rewrite Hk. done.
Qed.

(** ** The further statements at concrete inputs *)

Lemma oneFileTracked_reachable : reachable MAX_THREADS_COUNT oneFileTracked.
Proof.
  unfold reachable. eapply rtc_l; [|apply rtc_refl].
  apply (step_scan _ (DirEntries [mkDirEntry "a.csv" false]) oneFileTracked);
    [done|by vm_compute|by vm_compute].
Qed.

Lemma blockedWorld_reachable : reachable MAX_THREADS_COUNT blockedWorld.
Proof.
  unfold reachable. eapply rtc_l; [|apply rtc_refl].
  apply (step_scan_blocked _ (DirEntries elevenFiles)); [done| |by vm_compute].
  vm_compute. reflexivity.
Qed.

Lemma oneFileChunked_step : step oneFileReading oneFileChunked.
Proof.
  apply (step_worker oneFileReading [] (NewWorker "a.csv") []
           (Opened sevenRows EOF) sinkOk).
  - by vm_compute.
  - by vm_compute.
  - vm_compute. reflexivity.
Qed.

Lemma threeFiles_dispatch :
  step threeFiles (dispatched threeFiles 1 "c.csv").
Proof. apply step_dispatch. vm_compute. reflexivity. Qed.

Lemma completed_is_terminal_witness :
  (rtc step threeFiles (dispatched threeFiles 1 "c.csv") ∧
   statusOf threeFiles "b.csv" = Completed) ∧
  statusOf (dispatched threeFiles 1 "c.csv") "b.csv" = Completed.
Proof.
  assert (H1 : rtc step threeFiles (dispatched threeFiles 1 "c.csv"))
    by (apply rtc_once, threeFiles_dispatch).
  assert (H2 : statusOf threeFiles "b.csv" = Completed) by (by vm_compute).
  split; [by split|].
  exact (completed_is_terminal _ _ "b.csv" H1 H2).
Defined.

Lemma blocked_scan_never_recovers_witness :
  (scanLoopBlocked blockedWorld = true ∧
   rtc step blockedWorld (dispatched blockedWorld 0 "f01.csv")) ∧
  filesQueue (service (dispatched blockedWorld 0 "f01.csv")) = elevenNames.
Proof.
  assert (H1 : scanLoopBlocked blockedWorld = true) by (by vm_compute).
  assert (H2 : rtc step blockedWorld (dispatched blockedWorld 0 "f01.csv")).
  { apply rtc_once, step_dispatch. vm_compute. reflexivity. }
  split; [by split|].
  by destruct (blocked_scan_never_recovers _ _ H1 H2) as (_ & -> & _).
Defined.

Lemma event_receipt_only_logs_witness :
  (0 <= MAX_THREADS_COUNT <= maxInt ∧
   reachable MAX_THREADS_COUNT oneFileTracked ∧
   newFilesEvent (service oneFileTracked) = ["a.csv"]) ∧
  ∃ w', handleNewFileEvent "a.csv"
          (on_service (set_newFilesEvent []) oneFileTracked) = Ok tt w' ∧
        goroutines w' = [].
Proof.
  assert (Hmt : 0 <= MAX_THREADS_COUNT <= maxInt) by (by vm_compute).
  assert (Hev : newFilesEvent (service oneFileTracked) = ["a.csv"]) by done.
  split; [exact (conj Hmt (conj oneFileTracked_reachable Hev))|].
  eexists. split; [|].
  - exact (event_receipt_only_logs MAX_THREADS_COUNT oneFileTracked "a.csv" []
             Hmt oneFileTracked_reachable Hev).
  - reflexivity.
Defined.

Lemma queue_mirrors_tracking_table_witness :
  (0 <= MAX_THREADS_COUNT <= maxInt ∧
   reachable MAX_THREADS_COUNT oneFileReading) ∧
  NoDup (filesQueue (service oneFileReading)).
Proof.
  assert (Hmt : 0 <= MAX_THREADS_COUNT <= maxInt) by (by vm_compute).
  split; [exact (conj Hmt oneFileReading_reachable)|].
  by destruct (queue_mirrors_tracking_table MAX_THREADS_COUNT oneFileReading
                 Hmt oneFileReading_reachable) as [H _].
Defined.

Lemma sinkOk_works : sinkWorks sinkOk.
Proof. by split. Defined.

Lemma single_file_is_drained_in_order_witness :
  (len sevenRows <= maxInt ∧
   Forall wellFormedRow (dataRows sevenRows) ∧
   sinkWorks sinkOk ∧
   idleSingle "a.csv" oneFileTracked ∧
   statusOf oneFileTracked "a.csv" ≠ Completed ∧
   offsetOf oneFileTracked "a.csv" = 0 ∧
   length (dataRows sevenRows) = (3 * 2 + 1)%nat ∧ (1 < 3)%nat) ∧
  ∃ w', dispatchTimes sevenRowsEnv 3 oneFileTracked = Ok tt w' ∧
        statusOf w' "a.csv" = Completed ∧
        offsetOf w' "a.csv" = 7 ∧
        resultFile w' =
          ["1,a" +:+ nl; "2,b" +:+ nl; "3,c" +:+ nl; "4,d" +:+ nl;
           "5,e" +:+ nl; "6,f" +:+ nl; "7,g" +:+ nl].
Proof.
  assert (H7 : len sevenRows <= maxInt) by (by vm_compute).
  assert (Hw7 : Forall wellFormedRow (dataRows sevenRows)).
  { apply (bool_decide_unpack _). by vm_compute. }
  assert (Hst : statusOf oneFileTracked "a.csv" ≠ Completed) by (by vm_compute).
  assert (Ho : offsetOf oneFileTracked "a.csv" = 0) by (by vm_compute).
  assert (Hn : length (dataRows sevenRows) = (3 * 2 + 1)%nat) by (by vm_compute).
  assert (Hr : (1 < 3)%nat) by lia.
  split; [exact (conj H7 (conj Hw7 (conj sinkOk_works (conj oneFileTracked_idle
                  (conj Hst (conj Ho (conj Hn Hr)))))))|].
  destruct (single_file_is_drained_in_order sevenRowsEnv "a.csv" oneFileTracked
              sevenRows EOF sinkOk 2 1 eq_refl H7 Hw7 sinkOk_works
              oneFileTracked_idle Hst Ho Hn Hr)
    as (w' & Hrun & Hc & Hoff & Hout & _).
  exists w'. split_and!; try done.
Defined.

Lemma sevenRows_chunk_wellFormed :
  Forall wellFormedRow (chunkOf (offsetOf oneFileReading "a.csv") sevenRows).
Proof. apply (bool_decide_unpack _). by vm_compute. Defined.


Lemma worker_appends_chunk_lines_witness :
  (isInt (offsetOf oneFileReading "a.csv") ∧ len sevenRows <= maxInt ∧
   Forall wellFormedRow (chunkOf (offsetOf oneFileReading "a.csv") sevenRows) ∧
   sinkWorks sinkOk) ∧
  ∃ w', readFile (NewWorker "a.csv") (Opened sevenRows EOF) sinkOk
          oneFileReading = Ok tt w' ∧
        resultFile w' = ["1,a" +:+ nl; "2,b" +:+ nl; "3,c" +:+ nl].
Proof.
  assert (Ho : isInt (offsetOf oneFileReading "a.csv")) by (by vm_compute).
  assert (H7 : len sevenRows <= maxInt) by (by vm_compute).
  split; [exact (conj Ho (conj H7 (conj sevenRows_chunk_wellFormed sinkOk_works)))|].
  destruct (worker_appends_chunk_lines oneFileReading (NewWorker "a.csv")
              sevenRows EOF sinkOk Ho H7 sevenRows_chunk_wellFormed sinkOk_works)
    as (w' & Hrun & Hr & _).
  exists w'. by split.
Defined.

Lemma failed_open_is_retried_by_next_dispatch_witness :
  (idleSingle "a.csv" oneFileTracked ∧
   statusOf oneFileTracked "a.csv" ≠ Completed ∧
   isInt (offsetOf oneFileTracked "a.csv") ∧ len sevenRows <= maxInt ∧
   Forall wellFormedRow (chunkOf (offsetOf oneFileTracked "a.csv") sevenRows)) ∧
  ∃ w1 w2,
    dispatchAndRun missingFileEnv oneFileTracked = Ok tt w1 ∧
    statusOf w1 "a.csv" = Reading ∧
    dispatchAndRun sevenRowsEnv w1 = Ok tt w2 ∧
    offsetOf w2 "a.csv" = 3.
Proof.
  assert (Ho : isInt (offsetOf oneFileTracked "a.csv")) by (by vm_compute).
  assert (H7 : len sevenRows <= maxInt) by (by vm_compute).
  assert (Hst : statusOf oneFileTracked "a.csv" ≠ Completed) by (by vm_compute).
  assert (Hw : Forall wellFormedRow
                 (chunkOf (offsetOf oneFileTracked "a.csv") sevenRows)).
  { apply (bool_decide_unpack _). by vm_compute. }
  split; [exact (conj oneFileTracked_idle (conj Hst (conj Ho (conj H7 Hw))))|].
  destruct (failed_open_is_retried_by_next_dispatch missingFileEnv sevenRowsEnv
              "a.csv" oneFileTracked "no such file" sevenRows EOF sinkOk sinkOk
              oneFileTracked_idle Hst eq_refl eq_refl Ho H7 Hw)
    as (w1 & w2 & H1 & H2 & _ & _ & _ & _ & H3 & _ & H4).
  exists w1, w2. by split_and!.
Defined.

Lemma readFile_panics_iff_short_row_in_chunk_witness :
  (isInt (offsetOf oneFileReading "a.csv") ∧ len [["x"]] <= maxInt) ∧
  readFile (NewWorker "a.csv") (Opened [["x"]] EOF) sinkOk oneFileReading =
    Panic "index out of range".
Proof.
  assert (Ho : isInt (offsetOf oneFileReading "a.csv")) by (by vm_compute).
  assert (H1 : len [["x"]] <= maxInt) by (by vm_compute).
  split; [by split|].
  destruct (readFile_panics_iff_short_row_in_chunk oneFileReading
              (NewWorker "a.csv") [["x"]] EOF sinkOk Ho H1) as [[_ Hp] _].
  apply Hp. exists ["x"]. split; [left|simpl; lia].
Defined.

Lemma dispatch_tick_marks_exactly_one_file_witness :
  (wfQueue (service threeFiles) ∧
   activeWorkers (service threeFiles) < maxThreads (service threeFiles)) ∧
  ∃ w', processFiles threeFiles = Ok tt w'.
Proof.
  assert (Hlt : activeWorkers (service threeFiles) < maxThreads (service threeFiles))
    by (by vm_compute).
  split; [exact (conj threeFiles_wfQueue Hlt)|].
  destruct (dispatch_tick_marks_exactly_one_file threeFiles threeFiles_wfQueue Hlt)
    as [[H _]|(f & w' & H & _)]; eauto.
Defined.

Lemma result_file_only_grows_witness :
  rtc step oneFileReading oneFileChunked ∧
  resultFile oneFileReading `prefix_of` resultFile oneFileChunked.
Proof.
  assert (H : rtc step oneFileReading oneFileChunked)
    by (apply rtc_once, oneFileChunked_step).
  split; [exact H|]. exact (result_file_only_grows _ _ H).
Defined.

Lemma PartOne_reader_does_not_resume_witness :
  (isInt (offsetOf oneFileChunked "a.csv") ∧ len sevenRows <= maxInt ∧
   Forall wellFormedRow
     (take (Z.to_nat MAX_CHUNK_SIZE)
        (drop (Z.to_nat (offsetOf oneFileChunked "a.csv")) sevenRows)) ∧
   statusOf oneFileChunked "a.csv" ≠ Completed ∧
   offsetOf oneFileChunked "a.csv" = 3 ∧ 6 <= len sevenRows) ∧
  ∃ w', PartOne.readFile (NewWorker "a.csv") (Opened sevenRows EOF) sinkOk
          oneFileChunked = Ok tt w' ∧
        statusOf w' "a.csv" = NotRead ∧ offsetOf w' "a.csv" = 3.
Proof.
  assert (Ho : isInt (offsetOf oneFileChunked "a.csv")) by (by vm_compute).
  assert (H7 : len sevenRows <= maxInt) by (by vm_compute).
  assert (Hw : Forall wellFormedRow
                 (take (Z.to_nat MAX_CHUNK_SIZE)
                    (drop (Z.to_nat (offsetOf oneFileChunked "a.csv")) sevenRows))).
  { apply (bool_decide_unpack _). by vm_compute. }
  assert (Hst : statusOf oneFileChunked "a.csv" ≠ Completed) by (by vm_compute).
  assert (Ho3 : offsetOf oneFileChunked "a.csv" = 3) by (by vm_compute).
  assert (H6 : 6 <= len sevenRows) by (by vm_compute).
  split; [exact (conj Ho (conj H7 (conj Hw (conj Hst (conj Ho3 H6)))))|].
  destruct (PartOne_reader_does_not_resume oneFileChunked (NewWorker "a.csv")
              sevenRows EOF sinkOk Ho H7 Hw)
    as (w' & Hrun & _ & _ & _ & Hloop).
  destruct (Hloop Hst Ho3 H6) as (H1 & H2 & _).
  exists w'. by split_and!.
Defined.

(** ** The scanner of the other variant *)

Lemma PartOne_checkForNewFiles_body_exact (e : DirEntry) (w : World) :
  PartOne.checkForNewFiles_body e w =
  match registered (lock (service w)) [e] with
  | [] => Ok tt w
  | n :: _ => Ok tt (scanned w [n] [])
  end.
Proof.
  unfold PartOne.checkForNewFiles_body. simpl. destruct (IsDir e); [done|].
  destruct (decide (Ext (Name e) = ".csv" ∧ lock (service w) !! Name e = None))
    as [[Hext Hnew]|Hno].
  - rewrite bool_decide_eq_true_2 by done.
    unfold isFileTracked. rewrite bind_unfold. simpl.
    rewrite bool_decide_eq_false_2 by (rewrite Hnew; by intros [? ?]).
    simpl. repeat (rewrite bind_unfold; simpl).
    unfold scanned, registerAll; simpl. by rewrite !app_nil_r.
  - destruct (bool_decide_reflect (Ext (Name e) = ".csv")) as [Hext|_]; [|done].
    unfold isFileTracked. rewrite bind_unfold. simpl.
    rewrite bool_decide_eq_true_2; [done|].
    destruct (lock (service w) !! Name e) eqn:E; [by eexists|]. tauto.
Qed.

Lemma PartOne_checkForNewFiles_loop_exact (files : list DirEntry) :
  ∀ w, PartOne.checkForNewFiles_loop files w =
       Ok tt (scanned w (registered (lock (service w)) files) []).
Proof.
  induction files as [|e rest IH]; intros w.
  - simpl. by rewrite scanned_nil.
  - simpl. rewrite bind_unfold, PartOne_checkForNewFiles_body_exact.
    simpl. destruct (IsDir e); [apply IH|].
    destruct (decide (Ext (Name e) = ".csv" ∧ lock (service w) !! Name e = None))
      as [Hnew|Hno]; [|apply IH].
    rewrite IH. simpl. by rewrite scanned_cons_blocked.
Qed.

(** X18. The scanner of the variant without the event channel never
    blocks and never panics: on every listing it returns, having
    registered and queued, in listing order, the same names as the scanner
    of main.go registers when its events fit. Where the scanner of main.go
    returns, the two leave the same tracking table and the same queue;
    where it blocks, more names are new than the buffer has free places,
    and it has queued a prefix of what this variant queues. *)
Theorem PartOne_scan_never_blocks (files : list DirEntry) (w : World) :
  let names := registered (lock (service w)) files in
  ∃ w1, PartOne.checkForNewFiles (DirEntries files) w = Ok tt w1 ∧
    filesQueue (service w1) = filesQueue (service w) ++ names ∧
    lock (service w1) = registerAll (lock (service w)) names ∧
    newFilesEvent (service w1) = newFilesEvent (service w) ∧
    resultFile w1 = resultFile w ∧ goroutines w1 = goroutines w ∧
    match checkForNewFiles (DirEntries files) w with
    | Ok _ w2 =>
        lock (service w2) = lock (service w1) ∧
        filesQueue (service w2) = filesQueue (service w1)
    | Blocked w2 =>
        filesQueue (service w2) `prefix_of` filesQueue (service w1) ∧
        (freeSlots w < length names)%nat
    | Panic _ => False
    end.
Proof.
  intros names. simpl. rewrite PartOne_checkForNewFiles_loop_exact.
  fold names. eexists. split; [done|]. simpl. rewrite app_nil_r.
  split_and!; try done.
  rewrite checkForNewFiles_loop_exact. fold names.
  destruct (decide _) as [Hfit|Hno]; simpl; [done|].
  split; [|lia]. apply prefix_app, prefix_take.
Qed.

(** ** What a worker logs *)

(** What a worker logs on a file it reads to the end of its chunk, when
    the sink works and its request is applied. *)
Lemma readFile_stdout (w : World) (wk : Worker) (records : list (list string))
    (stop : ReadStop) (sink : SinkResult) (w' : World) :
  let f := file wk in
  let o := offsetOf w f in
  let chunk := chunkOf o records in
  isInt o → len records <= maxInt → Forall wellFormedRow chunk →
  sinkWorks sink → statusOf w f ≠ Completed →
  readFile wk (Opened records stop) sink w = Ok tt w' →
  stdout w' = stdout w ++
    ["Start reading file " +:+ f +:+ nl;
     "Appended chunk to " +:+ RESULT_FILE_PATH +:+ nl;
     "File " +:+ f +:+ " status updated to " +:+
       statusAfter (length chunk) +:+ nl;
     if len chunk <? MAX_CHUNK_SIZE
     then "File " +:+ f +:+ " has been completed." +:+ nl
     else "File " +:+ f +:+ " is set to 'not_read' for further processing." +:+ nl].
Proof.
  intros f o chunk Ho Hfit Hrows [Hopen Hwrite] Hst.
  pose proof (chunkOf_fits o records Ho Hfit) as Hsum.
  unfold readFile. rewrite bind_unfold. simpl. rewrite bind_unfold. simpl.
  rewrite bind_unfold. fold f. fold (offsetOf w f). fold o.
  set (w0 := set_stdout _ w).
  pose proof (readFile_loop_spec records o o [] w0) as Hloop.
  simpl in Hloop.
  change (take 3 (drop (Z.to_nat o) (dataRows records))) with chunk in Hloop.
  rewrite Hloop; [|done|done|done|lia]. clear Hloop.
  rewrite decide_True by done.
  rewrite bind_unfold. unfold appendToResultFile. rewrite Hopen.
  rewrite bind_unfold.
  destruct (appendRows_frame sink (toRow <$> chunk) 0%nat w0)
    as (w1 & -> & Hs1 & _ & _ & Hout).
  destruct (Hout Hwrite) as [Hstd1 _]. simpl.
  set (w2 := set_stdout _ w1).
  assert (Hst2 : statusOf w2 f = statusOf w f).
  { unfold statusOf. simpl. by rewrite Hs1. }
  unfold len at 1. rewrite length_fmap. fold (len chunk).
  unfold statusAfter. fold (len chunk).
  rewrite bind_unfold.
  destruct (len chunk <? MAX_CHUNK_SIZE); rewrite !bind_unfold;
    (rewrite setFileStatus_applied by (rewrite Hst2; intros [? ?]; done));
    simpl; intros H; inversion H; subst w'; simpl; rewrite Hstd1; simpl;
    by rewrite <- !app_assoc.
Qed.

(** ** Writes that fail *)








(** ** Failures of a worker *)

Lemma readFile_OpenError_wfQueue (w w' : World) (wk : Worker) (err : string)
    (sink : SinkResult) :
  readFile wk (OpenError err) sink w = Ok tt w' →
  wfQueue (service w) → wfQueue (service w').
Proof.
  rewrite readFile_OpenError. intros H [H1 H2 H3 H4].
  inversion H; subst w'. by constructor.
Qed.

(** C7, as amended. When the open of the data file fails, the worker logs
    the failure, decrements the active-worker count once (Go's [--], which
    is minus one on every count above the least [int]), leaves the
    tracking table, the queue and the cursor as they were, so the file
    keeps its status and its offset, writes nothing to the result file and
    starts no worker. The file is not stuck, though: it is still eligible,
    so the next dispatch tick with spare capacity starts a worker again,
    on a queue of this one file a worker for this file at its offset. A
    parse failure is no failure of the worker and is not logged: the read
    loop stops at it as at the end of the file, and the worker goes on
    exactly as if the file ended there: it appends the chunk collected
    before the failure, asks for the pair of a normal end and decrements
    the count once. *)
Theorem open_failure_keeps_table_parse_failure_ends_file
    (w : World) (wk : Worker) (sink : SinkResult) :
  (∀ err, ∃ w',
     readFile wk (OpenError err) sink w = Ok tt w' ∧
     stdout w' = stdout w ++
       ["Start reading file " +:+ file wk +:+ nl;
        "Error opening file " +:+ file wk +:+ ": " +:+ err +:+ nl] ∧
     activeWorkers (service w') = intSub (activeWorkers (service w)) 1 ∧
     (minInt < activeWorkers (service w) <= maxInt →
        activeWorkers (service w') = activeWorkers (service w) - 1) ∧
     lock (service w') = lock (service w) ∧
     (∀ f, statusOf w' f = statusOf w f ∧ offsetOf w' f = offsetOf w f) ∧
     filesQueue (service w') = filesQueue (service w) ∧
     currentFileIndex (service w') = currentFileIndex (service w) ∧
     goroutines w' = goroutines w ∧
     resultFile w' = resultFile w) ∧
  (∀ err w',
     readFile wk (OpenError err) sink w = Ok tt w' →
     wfQueue (service w) → file wk ∈ filesQueue (service w) →
     statusOf w (file wk) ≠ Completed →
     activeWorkers (service w') < maxThreads (service w') →
     ∃ g w'',
       processFiles w' = Ok tt w'' ∧
       g ∈ filesQueue (service w) ∧ statusOf w g ≠ Completed ∧
       (filesQueue (service w) = [file wk] → g = file wk) ∧
       file <$> goroutines w'' = (file <$> goroutines w) ++ [g] ∧
       statusOf w'' g = Reading ∧ offsetOf w'' g = offsetOf w g) ∧
  (∀ records err,
     readFile wk (Opened records (ParseError err)) sink w =
     readFile wk (Opened records EOF) sink w) ∧
  (∀ records err,
     let o := offsetOf w (file wk) in
     let chunk := chunkOf o records in
     isInt o → len records <= maxInt → Forall wellFormedRow chunk →
     ∃ w',
       readFile wk (Opened records (ParseError err)) sink w = Ok tt w' ∧
       service w' =
         afterWorker w (file wk) (statusAfter (length chunk)) (o + len chunk) ∧
       activeWorkers (service w') = intSub (activeWorkers (service w)) 1 ∧
       (minInt < activeWorkers (service w) <= maxInt →
          activeWorkers (service w') = activeWorkers (service w) - 1) ∧
       goroutines w' = goroutines w ∧
       (statusOf w (file wk) ≠ Completed →
          statusOf w' (file wk) = statusAfter (length chunk) ∧
          offsetOf w' (file wk) = o + len chunk) ∧
       (sinkWorks sink →
          resultFile w' = resultFile w ++ (rowLine <$> chunk)) ∧
       (sinkWorks sink → statusOf w (file wk) ≠ Completed →
          stdout w' = stdout w ++
            ["Start reading file " +:+ file wk +:+ nl;
             "Appended chunk to " +:+ RESULT_FILE_PATH +:+ nl;
             "File " +:+ file wk +:+ " status updated to " +:+
               statusAfter (length chunk) +:+ nl;
             if len chunk <? MAX_CHUNK_SIZE
             then "File " +:+ file wk +:+ " has been completed." +:+ nl
             else "File " +:+ file wk +:+
                  " is set to 'not_read' for further processing." +:+ nl])).
Proof.
  split_and!.
  - intros err. eexists. split; [apply readFile_OpenError|].
    simpl. split_and!; try done.
    intros H. apply intSub_exact. unfold isInt, minInt, maxInt in *. lia.
  - intros err w' Hrun Hwf Hin Hst Hspare.
    pose proof (readFile_OpenError_wfQueue _ _ _ _ _ Hrun Hwf) as Hwf'.
    rewrite readFile_OpenError in Hrun. injection Hrun as Hw'.
    assert (Hq : filesQueue (service w') = filesQueue (service w))
      by (by rewrite <- Hw').
    assert (Hl : lock (service w') = lock (service w)) by (by rewrite <- Hw').
    assert (Hg : goroutines w' = goroutines w) by (by rewrite <- Hw').
    clear Hw'.
    rewrite processFiles_spare by done.
    destruct (list_find _ _) as [[k g]|] eqn:Hfind.
    + apply list_find_elem_of in Hfind as (Hg' & He & _).
      apply circular_elem_of in Hg'. rewrite Hq in Hg'.
      exists g, (dispatched w' k g). unfold statusOf, offsetOf. simpl.
      rewrite lockAt_insert_eq. simpl. rewrite Hg. unfold offsetOf.
      rewrite Hl. split_and!; try done.
      * unfold eligible in He. by rewrite Hl in He.
      * intros Hone. rewrite Hone in Hg'.
        by apply list_elem_of_singleton in Hg'.
      * by rewrite fmap_app.
    + apply list_find_None in Hfind. rewrite Forall_forall in Hfind.
      exfalso. apply (Hfind (file wk)).
      * apply circular_elem_of. by rewrite Hq.
      * unfold eligible. by rewrite Hl.
  - done.
  - intros records err o chunk Ho Hfit Hrows.
    pose proof (readFile_Opened w wk records (ParseError err) sink) as Hspec.
    simpl in Hspec. specialize (Hspec Ho Hfit). fold o chunk in Hspec.
    rewrite decide_True in Hspec by done.
    destruct Hspec as (w' & Hrun & Hs & Hg & _ & Hout).
    exists w'. split_and!; try done.
    + by rewrite Hs.
    + intros H. rewrite Hs. simpl. apply intSub_exact.
      unfold isInt, minInt, maxInt in *. lia.
    + intros Hst. unfold statusOf, offsetOf. rewrite Hs, afterWorker_lockAt.
      rewrite decide_True; [done|]. split; [done|]. by intros [? _].
    + intros [Hopen Hwrite]. rewrite (Hout Hopen Hwrite). f_equal.
      rewrite <- list_fmap_compose. apply list_fmap_ext.
      intros i r _. simpl. apply lineOf_toRow.
    + intros Hsink Hst.
      by apply (readFile_stdout w wk records (ParseError err) sink w').
Qed.

(** Against C7 as stated, twice. With [a.csv] in status Reading at offset
    0, a read that delivers one record and then a parse error does not
    leave the entry untouched: the file ends up Completed at offset 1, its
    record appended. And the work of a failed open is retried: when the
    worker started on [a.csv] fails to open it, the next dispatch tick
    starts a worker on [a.csv] again, which reads the first chunk. *)
Lemma parse_failure_changes_table_open_failure_is_retried :
  (statusOf oneFileReading "a.csv" = Reading ∧
   offsetOf oneFileReading "a.csv" = 0 ∧
   match readFile (mkWorker "a.csv")
           (Opened [["1"; "x"]] (ParseError "bare quote in non-quoted field"))
           sinkOk oneFileReading with
   | Ok _ w' =>
       lock (service w') ≠ lock (service oneFileReading) ∧
       statusOf w' "a.csv" = Completed ∧ offsetOf w' "a.csv" = 1 ∧
       resultFile w' = ["1,x" +:+ nl]
   | Panic _ | Blocked _ => False
   end) ∧
  (file <$> goroutines oneFileReading = ["a.csv"] ∧
   match (readFile (mkWorker "a.csv") (OpenError "no such file") sinkOk;;
          processFiles) (set_goroutines [] oneFileReading) with
   | Ok _ w' =>
       file <$> goroutines w' = ["a.csv"] ∧
       statusOf w' "a.csv" = Reading ∧ offsetOf w' "a.csv" = 0 ∧
       match readFile (mkWorker "a.csv") (Opened sevenRows EOF) sinkOk
               (set_goroutines [] w') with
       | Ok _ w'' =>
           statusOf w'' "a.csv" = NotRead ∧ offsetOf w'' "a.csv" = 3 ∧
           resultFile w'' = ["1,a" +:+ nl; "2,b" +:+ nl; "3,c" +:+ nl]
       | Panic _ | Blocked _ => False
       end
   | Panic _ | Blocked _ => False
   end).
Proof.
  split.
  - split; [by vm_compute|]. split; [by vm_compute|].
    destruct (readFile _ _ _ _) as [[] w'|msg|w'] eqn:Hrun;
      vm_compute in Hrun; try discriminate Hrun.
    injection Hrun as <-.
    assert (Hst : Status (lockAt (lock (service oneFileReading)) "a.csv") = Reading)
      by (by vm_compute).
    split_and!; [|by vm_compute..].
    intros H. rewrite <- H in Hst. vm_compute in Hst. discriminate Hst.
  - split; [by vm_compute|].
    match goal with
    | |- match ?run with _ => _ end =>
        destruct run as [[] w'|msg|w'] eqn:Hrun
    end; vm_compute in Hrun; try discriminate Hrun.
    injection Hrun as <-.
    split_and!; [by vm_compute..|].
    destruct (readFile _ _ _ _) as [[] w''|msg|w''] eqn:Hrun;
      vm_compute in Hrun; try discriminate Hrun.
    injection Hrun as <-. by vm_compute.
Qed.

(** ** Operations that interleave *)

(** Run back to back, the two halves of a worker are [readFile]. *)
Lemma readFile_phases (wk : Worker) (opened : OpenResult) (sink : SinkResult)
    (w : World) :
  readFile wk opened sink w =
  (r ← readFile_open wk opened;
   match r with
   | Some (records, o) => readFile_rest wk records o sink
   | None => mret tt
   end) w.
Proof. by destruct opened. Qed.

(** Run back to back, the two halves of a dispatch tick are
    [processFiles]. *)
Lemma processFiles_phases (w : World) :
  processFiles w =
  (r ← processFiles_pick;
   match r with
   | Some (f, o) => processFiles_mark f o
   | None => mret tt
   end) w.
Proof.
  unfold processFiles, processFiles_pick, processFiles_mark.
  unfold mbind, M_bind, getService, mret, M_ret. simpl.
  destruct (_ <=? _); [done|].
  destruct (pickNextFile w) as [f w1|msg|w1]; [|done|done].
  by destruct (bool_decide _).
Qed.

Lemma move_cstep (m : Move) (c c' : Conc) : move m c = Some c' → cstep c c'.
Proof.
  destruct m as [dir| | | |i opened|i sink]; unfold move.
  - destruct (scanLoopBlocked (shared c)) eqn:Hb; [done|].
    destruct (checkForNewFiles dir (shared c)) as [[] w'|msg|w'] eqn:Hrun;
      [|done|]; destruct (decide _) as [Hq|]; try done;
      intros H; injection H as <-.
    + by eapply cstep_scan.
    + by eapply cstep_scan_blocked.
  - destruct (scanLoopBlocked (shared c)) eqn:Hb; [done|].
    destruct (newFilesEvent (service (shared c))) as [|f rest] eqn:Hev; [done|].
    destruct (handleNewFileEvent _ _) as [[] w'|msg|w'] eqn:Hrun; try done.
    intros H; injection H as <-. by eapply cstep_event.
  - destruct (marking c) as [p|] eqn:Hm; [done|].
    destruct (processFiles_pick _) as [r w'|msg|w'] eqn:Hrun; try done.
    intros H; injection H as <-. by apply cstep_pick.
  - destruct (marking c) as [[f o]|] eqn:Hm; [|done].
    destruct (processFiles_mark _ _ _) as [[] w'|msg|w'] eqn:Hrun; try done.
    intros H; injection H as <-. by eapply cstep_mark.
  - destruct (goroutines (shared c) !! i) as [wk|] eqn:Hi; [|done].
    destruct (decide _) as [Hfit|]; [|done].
    destruct (readFile_open _ _ _) as [r w'|msg|w'] eqn:Hrun; try done.
    intros H; injection H as <-.
    eapply cstep_open; [|exact Hfit|exact Hrun].
    by rewrite <- (take_drop_middle _ _ _ Hi) at 1.
  - destruct (readers c !! i) as [rd|] eqn:Hi; [|done].
    destruct (readFile_rest _ _ _ _ _) as [[] w'|msg|w'] eqn:Hrun; try done.
    intros H; injection H as <-.
    eapply cstep_rest; [|exact Hrun].
    by rewrite <- (take_drop_middle _ _ _ Hi) at 1.
Qed.

Lemma moves_cstep (ms : list Move) :
  ∀ c c', moves ms c = Some c' → rtc cstep c c'.
Proof.
  induction ms as [|m rest IH]; intros c c'; simpl.
  - intros H; injection H as <-. apply rtc_refl.
  - destruct (move m c) as [c1|] eqn:Hm; [|done].
    intros H. eapply rtc_l; [by eapply move_cstep|by apply IH].
Qed.

(** A step of the sequential system is a run of the interleaved one in
    which the halves of the operation follow each other. *)
Lemma step_cstep (w w' : World) (rs : list Reader) :
  step w w' → rtc cstep (mkConc w rs None) (mkConc w' rs None).
Proof.
  intros Hstep.
  destruct Hstep as [w dir w' Hb Hrun Hq|w dir w' Hb Hrun Hq
                    |w g rest w' Hb Hev Hrun|w w' Hrun
                    |w pre wk post opened sink w' Hgo Hrec Hrun].
  - apply rtc_once. by apply (cstep_scan (mkConc w rs None) dir).
  - apply rtc_once. by apply (cstep_scan_blocked (mkConc w rs None) dir).
  - apply rtc_once. by apply (cstep_event (mkConc w rs None) g rest).
  - rewrite processFiles_phases, bind_unfold in Hrun.
    destruct (processFiles_pick w) as [[[f o]|] w1|msg|w1] eqn:Hpick;
      try done.
    + eapply rtc_l; [by apply (cstep_pick (mkConc w rs None))|].
      apply rtc_once. by apply (cstep_mark (mkConc w1 rs _) f o).
    + injection Hrun as <-.
      apply rtc_once. by apply (cstep_pick (mkConc w rs None)).
  - unfold startProcessing in Hrun.
    rewrite readFile_phases, bind_unfold in Hrun.
    destruct (readFile_open _ _ _) as [[[records o]|] w1|msg|w1] eqn:Hopen;
      try done.
    + eapply rtc_l;
        [exact (cstep_open (mkConc w rs None) pre wk post opened _ w1
                  Hgo Hrec Hopen)|].
      apply rtc_once.
      pose proof (cstep_rest (mkConc w1 (rs ++ [mkReader wk records o]) None)
                    rs (mkReader wk records o) [] sink w' eq_refl Hrun) as H.
      simpl in H. by rewrite app_nil_r in H.
    + injection Hrun as <-. apply rtc_once.
      exact (cstep_open (mkConc w rs None) pre wk post opened None w1
               Hgo Hrec Hopen).
Qed.

Lemma rtc_step_cstep (w w' : World) :
  rtc step w w' → rtc cstep (idle w) (idle w').
Proof.
  induction 1 as [w|w w1 w2 Hstep _ IH]; [apply rtc_refl|].
  etrans; [by apply step_cstep|exact IH].
Qed.

(** What the second half of a worker writes: the pair for the offset it
    was given plus the size of its chunk, whatever the table holds by
    then. *)
Lemma readFile_rest_spec (v : World) (wk : Worker)
    (records : list (list string)) (o : Z) (sink : SinkResult) :
  let f := file wk in
  let chunk := chunkOf o records in
  isInt o → len records <= maxInt →
  if decide (Forall wellFormedRow chunk)
  then ∃ v', readFile_rest wk records o sink v = Ok tt v' ∧
         service v' = afterWorker v f (statusAfter (length chunk)) (o + len chunk) ∧
         goroutines v' = goroutines v ∧
         scanLoopBlocked v' = scanLoopBlocked v
  else readFile_rest wk records o sink v = Panic "index out of range".
Proof.
  intros f chunk Ho Hfit.
  pose proof (chunkOf_fits o records Ho Hfit) as Hsum.
  unfold readFile_rest. fold f. rewrite bind_unfold.
  pose proof (readFile_loop_spec records o o [] v) as Hloop.
  simpl in Hloop.
  change (take 3 (drop (Z.to_nat o) (dataRows records))) with chunk in Hloop.
  rewrite Hloop; [|done|done|done|lia].
  clear Hloop.
  destruct (decide (Forall wellFormedRow chunk)) as [Hwf|Hwf]; [|done].
  destruct (appendToResultFile_frame sink (toRow <$> chunk) v)
    as (v1 & Happ & Hs1 & Hg1 & Hb1 & _).
  simpl. rewrite bind_unfold, Happ.
  assert (Hst1 : statusOf v1 f = statusOf v f) by (unfold statusOf; by rewrite Hs1).
  unfold len at 1. rewrite length_fmap. fold (len chunk).
  unfold afterWorker, statusAfter. fold (len chunk).
  destruct (Z.ltb_spec (len chunk) MAX_CHUNK_SIZE) as [Hk|Hk].
  - rewrite !bind_unfold.
    rewrite setFileStatus_applied by (intros [_ H]; done).
    simpl. eexists. split; [done|]. simpl.
    rewrite decide_False by (intros [_ H]; done).
    rewrite Hs1. split_and!; try done.
  - rewrite !bind_unfold.
    destruct (decide (statusOf v f = Completed ∧ NotRead ≠ Completed)) as [[Hc Hn]|Hn].
    + rewrite setFileStatus_rejected by (done || congruence).
      simpl. eexists. split; [done|]. simpl. rewrite Hs1. split_and!; try done.
    + rewrite setFileStatus_applied by (rewrite Hst1; done).
      simpl. eexists. split; [done|]. simpl. rewrite Hs1. split_and!; try done.
Qed.

Lemma checkForNewFiles_offsets (dir : ReadDirResult) (w w' : World) (f : string) :
  checkForNewFiles dir w = Ok tt w' ∨ checkForNewFiles dir w = Blocked w' →
  offsetOf w' f = offsetOf w f.
Proof.
  intros Hrun. pose proof (checkForNewFiles_shape dir w) as H.
  assert (Hs : ∃ queued sent, service w' = service (scanned w queued sent) ∧
                 ∀ n, n ∈ queued → lock (service w) !! n = None).
  { destruct Hrun as [Hrun|Hrun]; rewrite Hrun in H;
      destruct H as (queued & sent & Hs & _ & _ & _ & _ & Hq);
      exists queued, sent; split; try done; intros n Hn; by apply Hq. }
  destruct Hs as (queued & sent & Hs & Hq).
  unfold offsetOf, lockAt. rewrite Hs. simpl. rewrite registerAll_lookup.
  destruct (decide (f ∈ queued)) as [Hin|]; [|done].
  by rewrite (Hq f Hin).
Qed.

Lemma handleNewFileEvent_keeps_offsets (f : string) (w w' : World) (g : string) :
  handleNewFileEvent f w = Ok tt w' → offsetOf w' g = offsetOf w g.
Proof.
  unfold handleNewFileEvent, isFileTracked. rewrite !bind_unfold. simpl.
  destruct (bool_decide _).
  - intros H. by inversion H; subst.
  - rewrite bind_unfold. simpl. intros H.
    by apply processFiles_frame in H as (_ & _ & _ & H).
Qed.

(** The first half of a dispatch tick writes the cursor only, and what it
    returns is the offset stored for the file it picked. *)
Lemma processFiles_pick_spec (w : World) (r : option (string * Z)) (w' : World) :
  processFiles_pick w = Ok r w' →
  lock (service w') = lock (service w) ∧
  goroutines w' = goroutines w ∧ resultFile w' = resultFile w ∧
  activeWorkers (service w') = activeWorkers (service w) ∧
  ∀ f o, r = Some (f, o) → o = offsetOf w f.
Proof.
  unfold processFiles_pick. rewrite bind_unfold. simpl.
  destruct (_ <=? _).
  { intros H. injection H as <- <-. by split_and!. }
  rewrite bind_unfold.
  destruct (pickNextFile w) as [f w1|msg|w1] eqn:Hpick; [|done|done].
  apply pickNextFile_frame in Hpick as [c ->].
  destruct (bool_decide _).
  - rewrite bind_unfold. simpl. intros H. injection H as <- <-.
    split_and!; try done. intros g o Hr. by injection Hr as <- <-.
  - intros H. injection H as <- <-. by split_and!.
Qed.

(** The second half of a dispatch tick writes the offset it was given. *)
Lemma processFiles_mark_spec (f : string) (o : Z) (v : World) :
  ∃ v', processFiles_mark f o v = Ok tt v' ∧
    (statusOf v f ≠ Completed → statusOf v' f = Reading ∧ offsetOf v' f = o) ∧
    (statusOf v f = Completed →
       statusOf v' f = Completed ∧ offsetOf v' f = offsetOf v f) ∧
    (∀ g, g ≠ f → lock (service v') !! g = lock (service v) !! g) ∧
    goroutines v' = goroutines v ++ [NewWorker f] ∧
    activeWorkers (service v') = intAdd (activeWorkers (service v)) 1 ∧
    resultFile v' = resultFile v.
Proof.
  unfold processFiles_mark. rewrite !bind_unfold.
  destruct (decide (statusOf v f = Completed)) as [Hc|Hc].
  - rewrite setFileStatus_rejected by done. simpl.
    eexists. split; [done|]. simpl. split_and!; try done.
  - rewrite setFileStatus_applied by (by intros [? _]). simpl.
    eexists. split; [done|]. unfold statusOf, offsetOf. simpl.
    rewrite lockAt_insert_eq. split_and!; try done.
    intros g Hg. by rewrite lookup_insert_ne.
Qed.

Lemma readFile_open_spec (wk : Worker) (opened : OpenResult) (w : World)
    (r : option (list (list string) * Z)) (w' : World) :
  readFile_open wk opened w = Ok r w' →
  lock (service w') = lock (service w) ∧
  goroutines w' = goroutines w ∧ resultFile w' = resultFile w ∧
  match opened with
  | OpenError _ =>
      r = None ∧
      activeWorkers (service w') = intSub (activeWorkers (service w)) 1
  | Opened records _ =>
      r = Some (records, offsetOf w (file wk)) ∧
      activeWorkers (service w') = activeWorkers (service w)
  end.
Proof.
  unfold readFile_open. rewrite bind_unfold. simpl.
  destruct opened as [err|records stop].
  - rewrite !bind_unfold. simpl. intros H. injection H as <- <-. by split_and!.
  - rewrite bind_unfold. simpl. intros H. injection H as <- <-. by split_and!.
Qed.

Lemma readFile_rest_frame (wk : Worker) (records : list (list string)) (o : Z)
    (sink : SinkResult) (v v' : World) :
  readFile_rest wk records o sink v = Ok tt v' →
  ∀ g, g ≠ file wk → lock (service v') !! g = lock (service v) !! g.
Proof.
  unfold readFile_rest. rewrite bind_unfold.
  destruct (readFile_loop _ _ _ _ v) as [[results temp] v1|msg|v1] eqn:Hloop;
    [|done|done].
  apply readFile_loop_world in Hloop as ->. simpl.
  destruct (appendToResultFile_frame sink results v)
    as (v1 & Happ & Hs1 & _).
  rewrite bind_unfold, Happ, bind_unfold.
  destruct (len results <? MAX_CHUNK_SIZE); rewrite bind_unfold;
    match goal with
    | |- context [setFileStatus ?g ?s ?n v1] =>
        destruct (setFileStatus_frame g s n v1)
          as (v2 & Hv2 & _ & _ & _ & _ & _ & Hl & _)
    end;
    rewrite Hv2; simpl; intros H; inversion H; subst v'; simpl;
    intros g Hg; rewrite (Hl g Hg); by rewrite Hs1.
Qed.



Lemma isInt_nonneg (z : Z) : 0 <= z <= maxInt → isInt z.
Proof. unfold isInt, minInt, maxInt. lia. Qed.

(** What the second half of a worker does to the offset of its file. *)
Lemma readFile_rest_offset (v v' : World) (wk : Worker)
    (records : list (list string)) (o : Z) (sink : SinkResult) :
  0 <= o <= maxInt → len records <= maxInt →
  readFile_rest wk records o sink v = Ok tt v' →
  let k := len (chunkOf o records) in
  0 <= k <= MAX_CHUNK_SIZE ∧ o + k <= maxInt ∧
  ((offsetOf v' (file wk) = o + k ∧
    statusOf v' (file wk) = statusAfter (length (chunkOf o records))) ∨
   (statusOf v (file wk) = Completed ∧ k = MAX_CHUNK_SIZE ∧
    lock (service v') = lock (service v))).
Proof.
  intros Ho Hfit Hrun k.
  pose proof (readFile_rest_spec v wk records o sink) as Hspec.
  simpl in Hspec. specialize (Hspec (isInt_nonneg o Ho) Hfit).
  destruct (decide (Forall wellFormedRow (chunkOf o records)));
    [|congruence].
  destruct Hspec as (v2 & Hrun2 & Hs & _).
  rewrite Hrun in Hrun2. injection Hrun2 as <-.
  pose proof (chunkOf_length o records) as Hlen.
  pose proof (chunkOf_fits o records (isInt_nonneg o Ho) Hfit) as Hsum.
  fold k in Hsum.
  assert (Hk : 0 <= k <= MAX_CHUNK_SIZE).
  { unfold k, len, MAX_CHUNK_SIZE in *. lia. }
  split; [done|]. split; [done|].
  unfold offsetOf, statusOf at 1. rewrite Hs, afterWorker_lockAt.
  destruct (decide _) as [_|Hn]; simpl; [by left|right].
  assert (Hc : statusOf v (file wk) = Completed ∧
               statusAfter (length (chunkOf o records)) ≠ Completed).
  { destruct (decide (statusOf v (file wk) = Completed)) as [Hc|Hc];
      destruct (decide (statusAfter (length (chunkOf o records)) = Completed))
        as [Hd|Hd]; try done; destruct Hn; split; try done; by intros [? ?]. }
  destruct Hc as [Hc Hd]. split; [done|]. split.
  - unfold statusAfter in Hd. fold (len (chunkOf o records)) in Hd. fold k in Hd.
    destruct (Z.ltb_spec k MAX_CHUNK_SIZE); [done|lia].
  - unfold afterWorker. by rewrite decide_True.
Qed.

Lemma offsetOf_lookup (w w' : World) (g : string) :
  lock (service w') !! g = lock (service w) !! g →
  offsetOf w' g = offsetOf w g.
Proof. unfold offsetOf, lockAt. by intros ->. Qed.

Lemma cwf_init (maxThr : Z) : cwf (idle (initWorld maxThr)).
Proof.
  constructor; simpl.
  - intros f. unfold offsetOf, lockAt. simpl. rewrite lookup_empty. simpl.
    unfold maxInt. lia.
  - intros rd Hrd. by apply elem_of_nil in Hrd.
  - done.
Qed.

(** Every change of a stored offset is a write-back: of the offset a
    dispatch tick read for the file, or of the offset a worker of the file
    read plus the size of its chunk. *)
Lemma cstep_offset_change (c c' : Conc) (f : string) :
  cwf c → cstep c c' →
  offsetOf (shared c') f = offsetOf (shared c) f ∨
  (∃ o, marking c = Some (f, o) ∧ marking c' = None ∧
        readers c' = readers c ∧
        offsetOf (shared c') f = o) ∨
  (∃ pre rd post,
     readers c = pre ++ rd :: post ∧ readers c' = pre ++ post ∧
     file (rWorker rd) = f ∧
     offsetOf (shared c') f =
       rReadLines rd + len (chunkOf (rReadLines rd) (rRecords rd))).
Proof.
  intros [Hoff Hrd Hmk] Hstep.
  destruct Hstep as [c dir w' Hb Hrun Hq|c dir w' Hb Hrun Hq
                    |c g rest w' Hb Hev Hrun|c r w' Hm Hrun
                    |c g o w' Hm Hrun
                    |c pre wk post opened r w' Hgo Hrec Hrun
                    |c pre rd post sink w' Hrs Hrun]; simpl.
  - left. apply (checkForNewFiles_offsets dir). by left.
  - left. change (offsetOf (set_scanLoopBlocked true w') f) with (offsetOf w' f).
    apply (checkForNewFiles_offsets dir). by right.
  - left. by rewrite (handleNewFileEvent_keeps_offsets _ _ _ _ Hrun).
  - left. apply processFiles_pick_spec in Hrun as (Hl & _).
    unfold offsetOf. by rewrite Hl.
  - destruct (processFiles_mark_spec g o (shared c))
      as (v' & Hrun' & Happ & Hrej & Hother & _).
    rewrite Hrun in Hrun'. injection Hrun' as <-.
    destruct (decide (f = g)) as [->|Hne].
    + destruct (decide (statusOf (shared c) g = Completed)) as [Hc|Hc].
      * left. by apply Hrej.
      * right. left. exists o. split_and!; try done. by apply Happ.
    + left. apply offsetOf_lookup. by apply Hother.
  - left. apply readFile_open_spec in Hrun as (Hl & _).
    unfold offsetOf. by rewrite Hl.
  - assert (Hin : rd ∈ readers c).
    { rewrite Hrs. apply elem_of_app. right. left. }
    destruct (Hrd rd Hin) as [Ho Hfit].
    destruct (decide (f = file (rWorker rd))) as [->|Hne].
    + destruct (readFile_rest_offset _ _ _ _ _ _ Ho Hfit Hrun)
        as (_ & _ & [[Hnew _]|(_ & _ & Hl)]).
      * right. right. by exists pre, rd, post.
      * left. unfold offsetOf. by rewrite Hl.
    + left. apply offsetOf_lookup.
      by apply (readFile_rest_frame _ _ _ _ _ _ Hrun).
Qed.

Lemma cstep_cwf (c c' : Conc) : cwf c → cstep c c' → cwf c'.
Proof.
  intros Hwf Hstep. pose proof Hwf as [Hoff Hrd Hmk].
  assert (Hoff' : ∀ f, 0 <= offsetOf (shared c') f <= maxInt).
  { intros f.
    destruct (cstep_offset_change c c' f Hwf Hstep)
      as [->|[(o & Hm & _ & _ & ->)|(pre & rd & post & Hrs & _ & _ & ->)]].
    - apply Hoff.
    - by eapply Hmk.
    - assert (Hin : rd ∈ readers c).
      { rewrite Hrs. apply elem_of_app. right. left. }
      destruct (Hrd rd Hin) as [Ho Hfit].
      pose proof (chunkOf_fits _ _ (isInt_nonneg _ Ho) Hfit).
      unfold len in *. lia. }
  destruct Hstep as [c dir w' Hb Hrun Hq|c dir w' Hb Hrun Hq
                    |c g rest w' Hb Hev Hrun|c r w' Hm Hrun
                    |c g o w' Hm Hrun
                    |c pre wk post opened r w' Hgo Hrec Hrun
                    |c pre rd post sink w' Hrs Hrun];
    constructor; simpl in *; try done.
  - intros f o Hr. apply processFiles_pick_spec in Hrun as (_ & _ & _ & _ & Ho).
    rewrite (Ho f o Hr). apply Hoff.
  - apply readFile_open_spec in Hrun as (_ & _ & _ & Hr).
    destruct opened as [err|records stop].
    + destruct Hr as [-> _]. done.
    + destruct Hr as [-> _]. intros rd [Hin|Hin]%elem_of_app; [by apply Hrd|].
      apply list_elem_of_singleton in Hin as ->. simpl.
      split; [apply Hoff|done].
  - intros rd' Hin. apply Hrd. rewrite Hrs.
    apply elem_of_app in Hin as [Hin|Hin]; apply elem_of_app;
      [by left|right; by right].
Qed.

Lemma creachable_cwf (maxThr : Z) (c : Conc) : creachable maxThr c → cwf c.
Proof.
  unfold creachable. revert c. apply rtc_ind_r; [apply cwf_init|].
  intros c c' _ Hstep IH. by eapply cstep_cwf.
Qed.

Lemma staleWorkerBefore_run :
  moves staleWorkerRun (idle (initWorld MAX_THREADS_COUNT)) =
  Some staleWorkerBefore.
Proof. vm_compute. reflexivity. Qed.

Lemma staleWorkerAfter_move :
  move (MRest 0 sinkOk) staleWorkerBefore = Some staleWorkerAfter.
Proof. vm_compute. reflexivity. Qed.

Lemma staleMarkBefore_run :
  moves staleMarkRun (idle (initWorld MAX_THREADS_COUNT)) =
  Some staleMarkBefore.
Proof. vm_compute. reflexivity. Qed.

Lemma staleMarkAfter_move : move MMark staleMarkBefore = Some staleMarkAfter.
Proof. vm_compute. reflexivity. Qed.

(** C5, the code at the failing input. The stored offset of [a.csv], a
    file of seven rows, goes down, twice. In a run of the interleaved
    system, the table holds offset 6 for [a.csv] while a worker that read
    offset 0 is still in flight; its write-back stores offset 3, and rows
    one to three are in the result file twice. In another run, the table
    holds offset 3 when a dispatch tick that read offset 0 marks the file
    Reading: it stores offset 0. *)
Theorem stale_write_back_lowers_offset :
  (creachable MAX_THREADS_COUNT staleWorkerBefore ∧
   cstep staleWorkerBefore staleWorkerAfter ∧
   file ∘ rWorker <$> readers staleWorkerBefore = ["a.csv"] ∧
   rReadLines <$> readers staleWorkerBefore = [0] ∧
   marking staleWorkerBefore = None ∧
   offsetOf (shared staleWorkerBefore) "a.csv" = 6 ∧
   offsetOf (shared staleWorkerAfter) "a.csv" = 3 ∧
   offsetOf (shared staleWorkerAfter) "a.csv" <
     offsetOf (shared staleWorkerBefore) "a.csv" ∧
   resultFile (shared staleWorkerAfter) =
     ["1,a" +:+ nl; "2,b" +:+ nl; "3,c" +:+ nl;
      "4,d" +:+ nl; "5,e" +:+ nl; "6,f" +:+ nl;
      "1,a" +:+ nl; "2,b" +:+ nl; "3,c" +:+ nl]) ∧
  (creachable MAX_THREADS_COUNT staleMarkBefore ∧
   cstep staleMarkBefore staleMarkAfter ∧
   marking staleMarkBefore = Some ("a.csv", 0) ∧
   readers staleMarkBefore = [] ∧
   offsetOf (shared staleMarkBefore) "a.csv" = 3 ∧
   offsetOf (shared staleMarkAfter) "a.csv" = 0 ∧
   offsetOf (shared staleMarkAfter) "a.csv" <
     offsetOf (shared staleMarkBefore) "a.csv").
Proof.
  split; split_and!.
  - apply (moves_cstep staleWorkerRun), staleWorkerBefore_run.
  - apply (move_cstep (MRest 0 sinkOk)), staleWorkerAfter_move.
  - vm_compute; reflexivity.
  - vm_compute; reflexivity.
  - vm_compute; reflexivity.
  - vm_compute; reflexivity.
  - vm_compute; reflexivity.
  - vm_compute; reflexivity.
  - vm_compute; reflexivity.
  - apply (moves_cstep staleMarkRun), staleMarkBefore_run.
  - apply (move_cstep MMark), staleMarkAfter_move.
  - vm_compute; reflexivity.
  - vm_compute; reflexivity.
  - vm_compute; reflexivity.
  - vm_compute; reflexivity.
  - vm_compute; reflexivity.
Qed.

(** The offsets in flight were read from the table: a worker that arrives
    past line 231 holds the offset stored for its file then, and a
    dispatch tick that has evaluated its arguments holds the offset
    stored then for the file it picked. *)
Lemma cstep_reads (c c' : Conc) :
  cstep c c' →
  (∀ rd, rd ∈ readers c' →
     rd ∈ readers c ∨
     rReadLines rd = offsetOf (shared c) (file (rWorker rd))) ∧
  (∀ g o, marking c' = Some (g, o) →
     marking c = Some (g, o) ∨ o = offsetOf (shared c) g).
Proof.
  intros Hstep.
  destruct Hstep as [c dir w' Hb Hrun Hq|c dir w' Hb Hrun Hq
                    |c g rest w' Hb Hev Hrun|c r w' Hm Hrun
                    |c g o w' Hm Hrun
                    |c pre wk post opened r w' Hgo Hrec Hrun
                    |c pre rd post sink w' Hrs Hrun]; simpl;
    (split; [intros rd' Hin|intros g' o' Hmk]); try (by left).
  - right. apply processFiles_pick_spec in Hrun as (_ & _ & _ & _ & Ho).
    by apply Ho.
  - apply readFile_open_spec in Hrun as (_ & _ & _ & Hr).
    destruct opened as [err|records stop]; destruct Hr as [-> _];
      [by left|].
    apply elem_of_app in Hin as [Hin|Hin]; [by left|right].
    by apply list_elem_of_singleton in Hin as ->.
  - left. rewrite Hrs. apply elem_of_app in Hin as [Hin|Hin];
      apply elem_of_app; [by left|right; by right].
Qed.

(** X19. In the worlds reachable by sequential steps from a start with a
    ceiling that is a non-negative [int], where the run of a worker is one
    step and a dispatch tick is one step, no step lowers the stored offset
    of any file: the offset of every file only grows along every such
    run. There a dispatch tick keeps the offset of every file, the one it
    marks Reading included, and a worker that reads a file writes back the
    offset it found plus the number of rows it collected, unless its
    request is refused and the offset stays.

    When the operations interleave (every sequential run is such a run),
    what stays true is what is written: the stored offsets remain
    non-negative [int]s; a step that changes the stored offset of a file
    is the write-back of a dispatch tick, which stores the offset the tick
    read for the file, or the write-back of a worker of the file, which
    stores the offset the worker read plus the size of its chunk; and
    what they read was the stored offset at the time they read it. *)
Theorem offset_never_decreases (maxThr : Z) (w w' : World) (f : string) :
  0 <= maxThr <= maxInt →
  reachable maxThr w →
  rtc step w w' →
  0 <= offsetOf w f <= offsetOf w' f ∧
  (∀ w1, processFiles w' = Ok tt w1 → offsetOf w1 f = offsetOf w' f) ∧
  (∀ l records stop sink w1,
     len records <= maxInt →
     readFile (NewWorker f) (Opened records stop) sink (set_goroutines l w') =
       Ok tt w1 →
     let k := len (chunkOf (offsetOf w' f) records) in
     0 <= k ∧
     (offsetOf w1 f = offsetOf w' f + k ∨
      (statusOf w' f = Completed ∧ offsetOf w1 f = offsetOf w' f))) ∧
  creachable maxThr (idle w') ∧
  (∀ c c', creachable maxThr c → cstep c c' →
     0 <= offsetOf (shared c') f <= maxInt ∧
     (offsetOf (shared c') f = offsetOf (shared c) f ∨
      (∃ o, marking c = Some (f, o) ∧ marking c' = None ∧
            readers c' = readers c ∧
            offsetOf (shared c') f = o) ∨
      (∃ pre rd post,
         readers c = pre ++ rd :: post ∧ readers c' = pre ++ post ∧
         file (rWorker rd) = f ∧
         0 <= len (chunkOf (rReadLines rd) (rRecords rd)) <= MAX_CHUNK_SIZE ∧
         offsetOf (shared c') f =
           rReadLines rd + len (chunkOf (rReadLines rd) (rRecords rd)))) ∧
     (∀ rd, rd ∈ readers c' →
        rd ∈ readers c ∨
        rReadLines rd = offsetOf (shared c) (file (rWorker rd))) ∧
     (∀ g o, marking c' = Some (g, o) →
        marking c = Some (g, o) ∨ o = offsetOf (shared c) g)).
Proof.
  intros Hmt Hreach Hrun.
  assert (Hreach' : reachable maxThr w') by (unfold reachable in *; by etrans).
  pose proof (reachable_wf maxThr w' Hmt Hreach') as Hwf'.
  split_and!.
  - pose proof (reachable_wf maxThr w Hmt Hreach) as [Hwf _].
    pose proof (wfs_offsets _ _ Hwf f). lia.
  - clear Hreach' Hwf'. revert w' Hrun. apply rtc_ind_r; [lia|].
    intros w1 w2 Hrtc Hstep IH.
    assert (Hreach1 : reachable maxThr w1).
    { unfold reachable in *. by etrans. }
    pose proof (reachable_wf maxThr w1 Hmt Hreach1) as Hwf1.
    destruct (step_preserves maxThr w1 w2) as [_ Hmono]; [lia|done|done|].
    specialize (Hmono f). lia.
  - intros w1 Hp. apply processFiles_offsets; [|done].
    by eapply wfWorld_wfQueue.
  - intros l records stop sink w1 Hfit Hread k.
    split; [unfold k, len; lia|].
    pose proof (readFile_Opened (set_goroutines l w') (NewWorker f)
                  records stop sink) as Hspec.
    simpl in Hspec.
    change (offsetOf (set_goroutines l w') f) with (offsetOf w' f) in Hspec.
    assert (Ho : isInt (offsetOf w' f)).
    { destruct Hwf' as [Hs _]. pose proof (wfs_offsets _ _ Hs f).
      unfold isInt, minInt, maxInt in *. lia. }
    specialize (Hspec Ho Hfit).
    destruct (decide (Forall wellFormedRow (chunkOf (offsetOf w' f) records)));
      [|congruence].
    destruct Hspec as (w2 & Hrun2 & Hs & _).
    rewrite Hread in Hrun2. inversion Hrun2; subst w2.
    unfold offsetOf at 1 3. rewrite Hs.
    change (afterWorker (set_goroutines l w') f) with (afterWorker w' f).
    rewrite afterWorker_lockAt.
    destruct (decide _) as [_|Hn]; simpl; [by left|right].
    split; [|done].
    destruct (decide (statusOf w' f = Completed)); [done|].
    destruct Hn. split; [done|]. by intros [? _].
  - by apply rtc_step_cstep.
  - intros c c' Hc Hstep.
    pose proof (creachable_cwf maxThr c Hc) as Hcwf.
    pose proof (cstep_cwf c c' Hcwf Hstep) as [Hoff' _ _].
    destruct (cstep_reads c c' Hstep) as [Hrd Hmk].
    split; [apply Hoff'|]. split; [|by split].
    destruct (cstep_offset_change c c' f Hcwf Hstep)
      as [H|[H|(pre & rd & post & Hrs & Hrs' & Hf & Hnew)]];
      [by left|right; by left|right; right].
    exists pre, rd, post.
    pose proof (chunkOf_length (rReadLines rd) (rRecords rd)) as Hlen.
    split; [done|]. split; [done|]. split; [done|]. split; [|done].
    unfold len, MAX_CHUNK_SIZE in *. lia.
Qed.

Lemma offset_never_decreases_witness :
  (0 <= MAX_THREADS_COUNT <= maxInt ∧
   reachable MAX_THREADS_COUNT oneFileReading ∧
   rtc step oneFileReading oneFileChunked) ∧
  offsetOf oneFileReading "a.csv" = 0 ∧
  offsetOf oneFileChunked "a.csv" = 3 ∧
  0 <= offsetOf oneFileReading "a.csv" <= offsetOf oneFileChunked "a.csv" ∧
  creachable MAX_THREADS_COUNT (idle oneFileChunked).
Proof.
  assert (Hmt : 0 <= MAX_THREADS_COUNT <= maxInt) by (by vm_compute).
  assert (Hrun : rtc step oneFileReading oneFileChunked)
    by (apply rtc_once, oneFileChunked_step).
  split; [exact (conj Hmt (conj oneFileReading_reachable Hrun))|].
  destruct (offset_never_decreases MAX_THREADS_COUNT
              oneFileReading oneFileChunked "a.csv"
              Hmt oneFileReading_reachable Hrun) as (H & _ & _ & Hc & _).
  split_and!; try done; by vm_compute.
Defined.
